(** * Login tree engine of the Edge core: a shallow embedding

    The definitions below follow [src/core/login/login.ts] and the helper
    modules it imports (the object utilities, the OTP helpers, the stash
    store and the scrypt parameter chooser).  JavaScript objects are finite
    maps from property names to values; a tree node is such a map together
    with its [children] array, the one recursive property of the
    [LoginStash], [LoginReply] and [LoginTree] shapes. *)

From Stdlib Require Import QArith Qcanon Qround.
From stdpp Require Import base numbers option list gmap strings.

Set Warnings "-register-all".

Local Open Scope string_scope.
Local Open Scope Z_scope.

(** ** JavaScript numbers

    A number is a rational or one of the IEEE special values.  The special
    values follow the IEEE rules the code can observe (every comparison with
    [NaN] is false, [0 * Infinity] is [NaN]).  Doubles are among the
    rationals; which rationals are numbers is left open, and the arithmetic
    below rounds through a parameter. *)
Inductive number : Type :=
  | NaN
  | Inf (negative : bool)
  | Fin (q : Qc).

Definition num (z : Z) : number := Fin (Q2Qc (inject_Z z)).

(** ** JavaScript values *)
Inductive value : Type :=
  | VUndefined
  | VNull
  | VBool (b : bool)
  | VNum (n : number)
  | VStr (s : string)
  | VDate (ms : Z)
  | VBytes (b : list Z)
  | VArr (l : list value)
  | VObj (l : list (string * value)).

(** [x != null] *)
Definition notNull (v : value) : bool :=
  match v with
  | VUndefined | VNull => false
  | _ => true
  end.

Definition num_truthy (n : number) : bool :=
  match n with
  | NaN => false
  | Inf _ => true
  | Fin q => negb (bool_decide (q = 0%Qc))
  end.

(** ToBoolean, as used by [!x] and [if (x)]. *)
Definition truthy (v : value) : bool :=
  match v with
  | VUndefined | VNull => false
  | VBool b => b
  | VNum n => num_truthy n
  | VStr s => negb (String.eqb s "")
  | _ => true
  end.

Definition num_eqb (a b : number) : bool :=
  match a, b with
  | Fin p, Fin q => bool_decide (p = q)
  | Inf s, Inf t => Bool.eqb s t
  | _, _ => false
  end.

(** [a === b].  Objects, arrays, dates and byte arrays compare by
    reference; two of them met through different properties are taken to be
    distinct references.  The code only compares the strings [appId] and
    [loginId] this way. *)
Definition strict_eq (a b : value) : bool :=
  match a, b with
  | VUndefined, VUndefined => true
  | VNull, VNull => true
  | VBool x, VBool y => Bool.eqb x y
  | VNum x, VNum y => num_eqb x y
  | VStr x, VStr y => String.eqb x y
  | _, _ => false
  end.

(** Property read [o.k]: a missing property reads as [undefined]. *)
Definition get (o : gmap string value) (k : string) : value :=
  default VUndefined (o !! k).

(** ** Tree nodes

    [children = None] stands for a node without the property [children]
    (or with a null one: the code reads it through [!= null] only). *)
Inductive node : Type :=
  Node { fields : gmap string value; children : option (list node) }.

(** [node.k] for a property other than [children]. *)
Definition prop (n : node) (k : string) : value := get (fields n) k.


(** [node.children != null ? node.children : []] *)
Definition childList (n : node) : list node := default [] (children n).

Section node_induction.
Variable P : node → Prop.
Hypothesis leaf : ∀ f, P (Node f None).
Hypothesis inner : ∀ f cs, Forall P cs → P (Node f (Some cs)).

Fixpoint node_tree_ind (n : node) : P n :=
  match n with
  | Node f None => leaf f
  | Node f (Some cs) =>
      inner f cs
        ((fix go (l : list node) : Forall P l :=
            match l with
            | [] => @List.Forall_nil node P
            | c :: l' => @List.Forall_cons node P c l' (node_tree_ind c) (go l')
            end) cs)
  end.
End node_induction.

(** ** Errors

    Each constructor stands for one [throw new Error(...)] of the code; the
    message is given by [message].  [External] is a failure raised by a
    collaborator (crypto, codecs, disk, server). *)
Inductive error : Type :=
  | ServerLostChildren
  | KeyIntegrity
  | MissingAuth
  | NoAuth
  | MissingLogin
  | KitMissingUsername
  | SyncMissingUsername
  | SaveAppId
  | SaveLoginId
  | SaveUsername
  | InvalidLoginId
  | External (what : string).

Definition message (e : error) : string :=
  match e with
  | ServerLostChildren => "The server has lost children!"
  | KeyIntegrity => "Key integrity violation: No parentBox on child login."
  | MissingAuth => "No server authentication methods on login"
  | NoAuth => "No server authentication methods available"
  | MissingLogin => "Cannot apply kit: missing login"
  | KitMissingUsername => "Cannot apply kit: missing username"
  | SyncMissingUsername => "Cannot sync: missing username"
  | SaveAppId => "Cannot save a login without an appId."
  | SaveLoginId => "Cannot save a login without a loginId."
  | SaveUsername => "Cannot save a login without a username."
  | InvalidLoginId => "Invalid loginId"
  | External what => what
  end.

Inductive result (A : Type) : Type :=
  | Ok (a : A)
  | Throw (e : error).
Arguments Ok {A} a.
Arguments Throw {A} e.

#[global] Instance result_ret : MRet result := λ A a, Ok a.
#[global] Instance result_bind : MBind result := λ A B f m,
  match m with
  | Ok a => f a
  | Throw e => Throw e
  end.

(** How a computation ended: [None] for a result, or the error thrown. *)
Definition status {A : Type} (r : result A) : option error :=
  match r with
  | Ok _ => None
  | Throw e => Some e
  end.

(** [list.map(f)] where [f] may throw: elements are visited in order and the
    first exception ends the traversal. *)
Definition mapR {A B : Type} (f : A → result B) : list A → result (list B) :=
  fix go (l : list A) : result (list B) :=
    match l with
    | [] => Ok []
    | x :: l' =>
        match f x with
        | Ok y => match go l' with
                  | Ok ys => Ok (y :: ys)
                  | Throw e => Throw e
                  end
        | Throw e => Throw e
        end
    end.

(** ** Object helpers (util) *)

(** [filterObject(source, keys)] *)
Definition filterObject (source : gmap string value) (keys : list string)
  : gmap string value :=
  foldl (λ out key,
           match source !! key with
           | Some v => <[key := v]> out
           | None => out
           end) ∅ keys.

(** [softCat(...lists)] on arrays of tree nodes. *)
Definition softCat (lists : list (option (list node))) : list node :=
  concat (omap id lists).

(** [softCat(...lists)] on array values: [concat] spreads arrays and appends
    anything else as a single element. *)
Definition softCatV (lists : list value) : list value :=
  concat (map (λ v, match v with VArr l => l | _ => [v] end)
              (filter (λ v, notNull v = true) lists)).

(** ** Tree engine *)

Definition cloneNode (n : node) (cs : list node) : node :=
  Node (fields n) (Some cs).

(** [for (const x of list) { const out = f(x); if (out != null) return out }] *)
Definition firstOut {A B : Type} (f : A → option B) : list A → option B :=
  fix go (l : list A) : option B :=
    match l with
    | [] => None
    | x :: l' =>
        match f x with
        | Some out => Some out
        | None => go l'
        end
    end.

(** [searchTree(node, predicate)] *)
Fixpoint searchTree (n : node) (predicate : node → bool) : option node :=
  if predicate n then Some n
  else
    match children n with
    | Some cs => firstOut (λ child, searchTree child predicate) cs
    | None => None
    end.

(** [updateTree(node, predicate, update, clone)] *)
Fixpoint updateTree (n : node) (predicate : node → bool)
    (update : node → result node) (clone : node → list node → node)
  : result node :=
  if predicate n then update n
  else
    cs ← match children n with
         | Some cs => mapR (λ child, updateTree child predicate update clone) cs
         | None => Ok []
         end;
    Ok (clone n cs).

(** [sanitizeLoginStash(stashTree, appId)] *)
Definition sanitizeLoginStash (stashTree : node) (appId : value) : result node :=
  updateTree stashTree
    (λ stash, strict_eq (prop stash "appId") appId)
    (λ stash, Ok stash)
    (λ stash cs,
       Node (filterObject (fields stash) ["username"; "appId"; "loginId"])
            (Some cs)).

(** ** Collaborators

    The crypto primitives, codecs, wallet-key helpers, the clock, the stash
    selector, the auth server and the disk are used through their
    interfaces only.  A function that can throw returns a [result]. *)
Class Env : Type := {
  (** [decrypt(box, key)] and [decryptText(box, key)] of util/crypto *)
  decrypt : value → value → result value;
  decryptText : value → value → result value;
  hmacSha256 : value → value → value;
  utf8_parse : string → value;
  base16_stringify : value → string;
  base58_stringify : value → string;
  base64_stringify : value → string;
  base64_parse : value → result value;
  JSON_parse : value → result value;
  JSON_stringify : node → string;
  (** [totp(key)] of util/crypto/hotp: the current one-time code of a
      secret *)
  totp : value → value;
  (** [makeKeyInfo], [makeAccountType], [mergeKeyInfos] and [fixWalletInfo]
      of login/keys *)
  makeKeyInfo : value → value → value → value;
  makeAccountType : value → value;
  mergeKeyInfos : list value → result (list value);
  fixWalletInfo : value → value;
  (** [new Date()] *)
  newDate : value;
  (** [getStash(ai, username)] of login/login-selectors *)
  getStash : value → result node;
  (** [loginFetch(ai, method, path, request)]: the server's answer *)
  loginFetch : string → string → gmap string value → result node;
  (** the failure, if any, with which [io.disklet.setText(path, text)]
      rejects *)
  setTextError : string → string → option error
}.

(** ** Reply reconciler *)

Definition replyAllowlist : list string :=
  [ "appId"; "created"; "loginId"; "loginAuthBox"; "userId"; "otpKey";
    "otpResetDate"; "otpTimeout"; "parentBox"; "passwordAuthBox";
    "passwordAuthSnrp"; "passwordBox"; "passwordKeySnrp"; "pin2TextBox";
    "mnemonicBox"; "rootKeyBox"; "syncKeyBox" ].

(** [if (source.k != null) out.k = source.k] *)
Definition preserve (source : node) (k : string) (out : gmap string value)
  : gmap string value :=
  if notNull (prop source k) then <[k := prop source k]> out else out.

(** [if (reply.box != null) out.k = base64.stringify(decrypt(reply.box, key))] *)
Definition storeKey `{Env} (reply : node) (box k : string) (loginKey : value)
    (out : gmap string value) : result (gmap string value) :=
  if notNull (prop reply box) then
    key ← decrypt (prop reply box) loginKey;
    Ok (<[k := VStr (base64_stringify key)]> out)
  else Ok out.

(** The callback of [replyChildren.map((child, index) => ...)] in
    [applyLoginReplyInner], run over the reply's children in order; [recur]
    is the recursive call. *)
Definition mapReplyChildren `{Env} (recur : node → value → node → result node)
    (stashChildren : list node) (loginKey : value)
  : list node → nat → result (list node) :=
  fix go (l : list node) (index : nat) : result (list node) :=
    match l with
    | [] => Ok []
    | child :: l' =>
        if negb (truthy (prop child "parentBox")) then Throw KeyIntegrity
        else
          childKey ← decrypt (prop child "parentBox") loginKey;
          let childStash :=
            match stashChildren !! index with
            | Some s => s
            | None =>
                Node {[ "appId" := prop child "appId";
                        "loginId" := prop child "loginId" ]} None
            end in
          c ← recur childStash childKey child;
          cs ← go l' (S index);
          Ok (c :: cs)
    end.

(** The properties of the output node other than [children]. *)
Definition replyFields `{Env} (stash : node) (loginKey : value)
    (loginReply : node) : result (gmap string value) :=
  (* Copy common items: *)
  let out := filterObject (fields loginReply) replyAllowlist in
  (* Preserve client-only data: *)
  let out := preserve stash "lastLogin" out in
  let out := preserve stash "username" out in
  let out := preserve stash "userId" out in
  (* Store the pin key unencrypted: *)
  out ← storeKey loginReply "pin2KeyBox" "pin2Key" loginKey out;
  (* Store the recovery key unencrypted: *)
  out ← storeKey loginReply "recovery2KeyBox" "recovery2Key" loginKey out;
  (* Keys: *)
  Ok (<["keyBoxes" := if notNull (prop loginReply "keyBoxes")
                      then prop loginReply "keyBoxes" else VArr []]> out).

(** [applyLoginReplyInner(stash, loginKey, loginReply)] *)
Fixpoint applyLoginReplyInner `{Env} (stash : node) (loginKey : value)
    (loginReply : node) {struct loginReply} : result node :=
  out ← replyFields stash loginKey loginReply;
  (* Recurse into children: *)
  let stashChildren := childList stash in
  let replyChildren := childList loginReply in
  if (length replyChildren <? length stashChildren)%nat
  then Throw ServerLostChildren
  else
    cs ← match children loginReply with
         | Some l =>
             mapReplyChildren
               (λ childStash childKey child,
                  applyLoginReplyInner childStash childKey child)
               stashChildren loginKey l 0%nat
         | None => Ok []
         end;
    Ok (Node out (Some cs)).

(** [applyLoginReply(stashTree, loginKey, loginReply)] *)
Definition applyLoginReply `{Env} (stashTree : node) (loginKey : value)
    (loginReply : node) : result node :=
  updateTree stashTree
    (λ stash, strict_eq (prop stash "appId") (prop loginReply "appId"))
    (λ stash, applyLoginReplyInner stash loginKey loginReply)
    cloneNode.

(** ** Login tree builder *)

(** A destructuring default [{ k = fallback } = source]: the fallback is
    taken when the property reads as [undefined]. *)
Definition orDefault (v fallback : value) : value :=
  match v with
  | VUndefined => fallback
  | _ => v
  end.

(** [array.map(f)] on an array value; any other receiver has no [map]
    method and the call throws a TypeError. *)
Definition mapArray (f : value → result value) (v : value) : result (list value) :=
  match v with
  | VArr l => mapR f l
  | _ => Throw (External "TypeError: map is not a function")
  end.

(** The callback of [stashChildren.map(child => ...)] in
    [makeLoginTreeInner], run over the children in order; [recur] is the
    recursive call. *)
Definition mapStashChildren `{Env} (recur : node → value → result node)
    (loginKey : value) : list node → result (list node) :=
  fix go (l : list node) : result (list node) :=
    match l with
    | [] => Ok []
    | child :: l' =>
        if negb (truthy (prop child "parentBox")) then Throw KeyIntegrity
        else
          childKey ← decrypt (prop child "parentBox") loginKey;
          c ← recur child childKey;
          cs ← go l';
          Ok (c :: cs)
    end.

(** The properties of the in-memory login other than [children]. *)
Definition loginFields `{Env} (stash : node) (loginKey : value)
  : result (gmap string value) :=
  let appId := prop stash "appId" in
  let lastLogin := orDefault (prop stash "lastLogin") newDate in
  let loginId := prop stash "loginId" in
  let keyBoxes := orDefault (prop stash "keyBoxes") (VArr []) in
  let login : gmap string value :=
    {[ "appId" := appId;
       "created" := prop stash "created";
       "lastLogin" := lastLogin;
       "loginId" := loginId;
       "otpKey" := prop stash "otpKey";
       "otpResetDate" := prop stash "otpResetDate";
       "otpTimeout" := prop stash "otpTimeout";
       "userId" := prop stash "userId";
       "username" := prop stash "username";
       "loginKey" := loginKey;
       "keyInfos" := VArr [] ]} in
  (* Server authentication: *)
  login ← (if notNull (prop stash "loginAuthBox") then
             loginAuth ← decrypt (prop stash "loginAuthBox") loginKey;
             Ok (<["loginAuth" := loginAuth]> login)
           else Ok login);
  login ← (if notNull (prop stash "passwordAuthBox") then
             let login :=
               if notNull (get login "userId") then login
               else <["userId" := loginId]> login in
             passwordAuth ← decrypt (prop stash "passwordAuthBox") loginKey;
             Ok (<["passwordAuth" := passwordAuth]> login)
           else Ok login);
  if negb (notNull (get login "loginAuth")) && negb (notNull (get login "passwordAuth"))
  then Throw MissingAuth
  else
    (* PIN v2: *)
    login ← (if notNull (prop stash "pin2Key") then
               pin2Key ← base64_parse (prop stash "pin2Key");
               Ok (<["pin2Key" := pin2Key]> login)
             else Ok login);
    login ← (if notNull (prop stash "pin2TextBox") then
               pin ← decryptText (prop stash "pin2TextBox") loginKey;
               Ok (<["pin" := pin]> login)
             else Ok login);
    (* Recovery v2: *)
    login ← (if notNull (prop stash "recovery2Key") then
               recovery2Key ← base64_parse (prop stash "recovery2Key");
               Ok (<["recovery2Key" := recovery2Key]> login)
             else Ok login);
    let legacyKeys : list value := [] in
    (* BitID wallet: *)
    legacyKeys ←
      (if notNull (prop stash "mnemonicBox") && notNull (prop stash "rootKeyBox")
       then
         rootKey ← decrypt (prop stash "rootKeyBox") loginKey;
         let infoKey := hmacSha256 rootKey (utf8_parse "infoKey") in
         mnemonic ← decryptText (prop stash "mnemonicBox") infoKey;
         let keys := VObj [ ("mnemonic", mnemonic);
                            ("rootKey", VStr (base64_stringify rootKey)) ] in
         Ok (legacyKeys ++ [makeKeyInfo (VStr "wallet:bitid") keys rootKey])%list
       else Ok legacyKeys);
    (* Account settings: *)
    legacyKeys ←
      (if notNull (prop stash "syncKeyBox") then
         syncKey ← decrypt (prop stash "syncKeyBox") loginKey;
         let type := makeAccountType (get login "appId") in
         let keys := VObj [ ("syncKey", VStr (base64_stringify syncKey));
                            ("dataKey", VStr (base64_stringify loginKey)) ] in
         Ok (legacyKeys ++ [makeKeyInfo type keys loginKey])%list
       else Ok legacyKeys);
    (* Keys: *)
    keyInfos ← mapArray (λ box, text ← decryptText box loginKey; JSON_parse text)
                        keyBoxes;
    merged ← mergeKeyInfos (legacyKeys ++ keyInfos)%list;
    Ok (<["keyInfos" := VArr (map fixWalletInfo merged)]> login).

(** [makeLoginTreeInner(stash, loginKey)] *)
Fixpoint makeLoginTreeInner `{Env} (stash : node) (loginKey : value)
    {struct stash} : result node :=
  login ← loginFields stash loginKey;
  (* Recurse into children: *)
  cs ← match children stash with
       | Some stashChildren =>
           mapStashChildren
             (λ child childKey, makeLoginTreeInner child childKey)
             loginKey stashChildren
       | None => Ok []
       end;
  Ok (Node login (Some cs)).

(** [makeLoginTree(stashTree, loginKey, appId = '')] *)
Definition makeLoginTree `{Env} (stashTree : node) (loginKey : value)
    (appId : value) : result node :=
  let appId := orDefault appId (VStr "") in
  updateTree stashTree
    (λ stash, strict_eq (prop stash "appId") appId)
    (λ stash, makeLoginTreeInner stash loginKey)
    (λ stash cs,
       Node (filterObject (fields stash) ["username"; "appId"; "loginId"])
            (Some cs)).

(** ** One-time passwords (login/otp) *)

(** [getLoginOtp(login)] *)
Definition getLoginOtp `{Env} (login : node) : value :=
  if notNull (prop login "otpKey") then totp (prop login "otpKey")
  else VUndefined.

Definition isDigit (c : Ascii.ascii) : bool :=
  (48 <=? Ascii.nat_of_ascii c)%nat && (Ascii.nat_of_ascii c <=? 57)%nat.

(** [/[0-9]+/.test(s)]: the pattern has no anchors, so the search succeeds
    as soon as some position of [s] starts a run of one or more digits. *)
Fixpoint regexDigits_test (s : string) : bool :=
  match s with
  | EmptyString => false
  | String c rest => if isDigit c then true else regexDigits_test rest
  end.

(** The options [getStashOtp] reads from [EdgeAccountOptions]
    ([otp?: string], [otpKey?: string]); [None] is an absent option. *)
Record EdgeAccountOptions : Type := {
  otp : option string;
  otpKey : option string
}.

(** [getStashOtp(stash, opts)] *)
Definition getStashOtp `{Env} (stash : node) (opts : EdgeAccountOptions) : value :=
  let otpKey' :=
    match otpKey opts with
    | Some k => VStr k
    | None => prop stash "otpKey"
    end in
  match otp opts with
  | Some otp =>
      if regexDigits_test otp && (String.length otp <? 16)%nat then VStr otp
      else totp (VStr otp)
  | None =>
      if notNull otpKey' then totp otpKey' else VUndefined
  end.

(** ** Server authentication *)

(** [makeAuthJson(login)] *)
Definition makeAuthJson `{Env} (login : node) : result (gmap string value) :=
  if notNull (prop login "loginAuth") then
    Ok {[ "loginId" := prop login "loginId";
          "loginAuth" := VStr (base64_stringify (prop login "loginAuth"));
          "otp" := getLoginOtp login ]}
  else if notNull (prop login "passwordAuth") then
    Ok {[ "userId" := prop login "userId";
          "passwordAuth" := VStr (base64_stringify (prop login "passwordAuth"));
          "otp" := getLoginOtp login ]}
  else Throw NoAuth.

(** ** Disk, store and server effects

    An operation runs against a [world]: the text files of the disklet and
    the chronological [trace] of the effects carried out so far (server
    requests, completed file writes, dispatched actions).  An exception
    ends the operation and leaves the world as it was when it was thrown. *)
Inductive action : Type :=
  | LOGIN_STASH_SAVED (payload : node).

Inductive effect : Type :=
  | Fetch (method path : string) (request : gmap string value)
  | SetText (path text : string)
  | Dispatch (a : action).

Record world : Type := {
  disk : gmap string string;
  trace : list effect
}.

Definition io (A : Type) : Type := world → result A * world.

#[global] Instance io_ret : MRet io := λ A a w, (Ok a, w).
#[global] Instance io_bind : MBind io := λ A B f m w,
  match m w with
  | (Ok a, w') => f a w'
  | (Throw e, w') => (Throw e, w')
  end.

Definition throw {A : Type} (e : error) : io A := λ w, (Throw e, w).

Definition lift {A : Type} (r : result A) : io A := λ w, (r, w).

Definition record (e : effect) (w : world) : world :=
  {| disk := disk w; trace := (trace w ++ [e])%list |}.

(** [io.disklet.setText(path, text)]: the file is replaced as a whole, or
    the call rejects and the disk is untouched. *)
Definition setText `{Env} (path text : string) : io unit := λ w,
  match setTextError path text with
  | Some e => (Throw e, w)
  | None =>
      (Ok (), {| disk := <[path := text]> (disk w);
                 trace := (trace w ++ [SetText path text])%list |})
  end.

Definition dispatch (a : action) : io unit := λ w, (Ok (), record (Dispatch a) w).

(** [loginFetch(ai, method, path, request)] *)
Definition fetch `{Env} (method path : string) (request : gmap string value)
  : io node := λ w,
  (loginFetch method path request, record (Fetch method path request) w).

(** ** Stash store *)

(** [x.length] *)
Definition propLength (v : value) : value :=
  match v with
  | VStr s => VNum (num (Z.of_nat (String.length s)))
  | VBytes b => VNum (num (Z.of_nat (length b)))
  | VArr l => VNum (num (Z.of_nat (length l)))
  | _ => VUndefined
  end.

Definition stashPath `{Env} (loginId : value) : string :=
  "logins/" ++ base58_stringify loginId ++ ".json".

(** [saveStash(ai, stashTree)] *)
Definition saveStash `{Env} (stashTree : node) : io unit :=
  if negb (strict_eq (prop stashTree "appId") (VStr "")) then throw SaveAppId
  else if negb (notNull (prop stashTree "loginId")) then throw SaveLoginId
  else if negb (notNull (prop stashTree "username")) then throw SaveUsername
  else
    loginId ← lift (base64_parse (prop stashTree "loginId"));
    if negb (strict_eq (propLength loginId) (VNum (num 32)))
    then throw InvalidLoginId
    else
      setText (stashPath loginId) (JSON_stringify stashTree);;
      dispatch (LOGIN_STASH_SAVED stashTree).

(** ** Kits *)

Module Kit.
(** [LoginKit] *)
Record t : Type := {
  loginId : value;
  login : node;
  server : value;
  serverMethod : option string;
  serverPath : string;
  stash : node
}.
End Kit.

(** The [update] callback of [applyKit] for the in-memory login. *)
Definition applyKitLogin `{Env} (kit : Kit.t) (login : node) : result node :=
  let cs := softCat [children login; children (Kit.login kit)] in
  keyInfos ← mergeKeyInfos
    (softCatV [prop login "keyInfos"; prop (Kit.login kit) "keyInfos"]);
  Ok (Node (<["keyInfos" := VArr keyInfos]>
              (fields (Kit.login kit) ∪ fields login))
           (Some cs)).

(** The [update] callback of [applyKit] for the stash. *)
Definition applyKitStash (kit : Kit.t) (stash : node) : result node :=
  let cs := softCat [children stash; children (Kit.stash kit)] in
  let keyBoxes := softCatV [prop stash "keyBoxes"; prop (Kit.stash kit) "keyBoxes"] in
  Ok (Node (<["keyBoxes" := VArr keyBoxes]>
              (fields (Kit.stash kit) ∪ fields stash))
           (Some cs)).

(** [applyKit(ai, loginTree, kit)] *)
Definition applyKit `{Env} (loginTree : node) (kit : Kit.t) : io node :=
  let loginId := Kit.loginId kit in
  let serverMethod := default "POST" (Kit.serverMethod kit) in
  let serverPath := Kit.serverPath kit in
  match searchTree loginTree (λ login, strict_eq (prop login "loginId") loginId) with
  | None => throw MissingLogin
  | Some login =>
      if negb (truthy (prop loginTree "username")) then throw KitMissingUsername
      else
        stashTree ← lift (getStash (prop loginTree "username"));
        request ← lift (makeAuthJson login);
        let request := <["data" := Kit.server kit]> request in
        reply ← fetch serverMethod serverPath request;
        newLoginTree ←
          lift (updateTree loginTree
                  (λ login, strict_eq (prop login "loginId") loginId)
                  (applyKitLogin kit) cloneNode);
        newStashTree ←
          lift (updateTree stashTree
                  (λ stash, strict_eq (prop stash "loginId") loginId)
                  (applyKitStash kit) cloneNode);
        saveStash newStashTree;;
        mret newLoginTree
  end.

(** [syncLogin(ai, loginTree, login)] *)
Definition syncLogin `{Env} (loginTree login : node) : io node :=
  if negb (truthy (prop loginTree "username")) then throw SyncMissingUsername
  else
    stashTree ← lift (getStash (prop loginTree "username"));
    request ← lift (makeAuthJson login);
    reply ← fetch "POST" "/v2/login" request;
    newStashTree ←
      lift (applyLoginReply stashTree (prop login "loginKey") reply);
    newLoginTree ←
      lift (makeLoginTree newStashTree (prop login "loginKey") (prop login "appId"));
    saveStash newStashTree;;
    mret newLoginTree.

(** ** Number arithmetic

    The operators of JavaScript numbers on [number].  A finite sum, product
    or quotient is the exact rational result passed through [round], the
    rounding of the arithmetic; all that is asked of it is that an integer
    of magnitude up to [2^53] is kept as it is, as IEEE doubles do.  There
    is one zero (the sign of zero is not tracked), so [x / 0] takes the
    sign of [x]. *)
Class Rounding : Type := {
  round : Qc → number;
  round_integer :
    ∀ z : Z, (Z.abs z <= 2 ^ 53)%Z → round (Q2Qc (inject_Z z)) = num z
}.

(** The arithmetic that does not round. *)
#[refine] Instance exact : Rounding := {| round := Fin |}.
Proof. done. Defined.

Definition isNegative (q : Qc) : bool := bool_decide (q < 0)%Qc.
Definition isZero (q : Qc) : bool := bool_decide (q = 0%Qc).

(** [- a] *)
Definition nneg (a : number) : number :=
  match a with
  | NaN => NaN
  | Inf s => Inf (negb s)
  | Fin q => Fin (- q)%Qc
  end.

(** [a + b] *)
Definition nadd `{Rounding} (a b : number) : number :=
  match a, b with
  | NaN, _ | _, NaN => NaN
  | Inf s, Inf t => if Bool.eqb s t then Inf s else NaN
  | Inf s, Fin _ | Fin _, Inf s => Inf s
  | Fin x, Fin y => round (x + y)%Qc
  end.

(** [a - b] *)
Definition nsub `{Rounding} (a b : number) : number := nadd a (nneg b).

(** [a * b] *)
Definition nmul `{Rounding} (a b : number) : number :=
  match a, b with
  | NaN, _ | _, NaN => NaN
  | Inf s, Inf t => Inf (xorb s t)
  | Inf s, Fin q | Fin q, Inf s =>
      if isZero q then NaN else Inf (xorb s (isNegative q))
  | Fin x, Fin y => round (x * y)%Qc
  end.

(** [a / b] *)
Definition ndiv `{Rounding} (a b : number) : number :=
  match a, b with
  | NaN, _ | _, NaN => NaN
  | Inf _, Inf _ => NaN
  | Inf s, Fin q => Inf (xorb s (isNegative q))
  | Fin _, Inf _ => Fin 0%Qc
  | Fin x, Fin y =>
      if isZero y then (if isZero x then NaN else Inf (isNegative x))
      else round (x / y)%Qc
  end.

(** [a > b] *)
Definition ngt (a b : number) : bool :=
  match a, b with
  | NaN, _ | _, NaN => false
  | Inf s, Inf t => negb s && t
  | Inf s, Fin _ => negb s
  | Fin _, Inf t => t
  | Fin x, Fin y => bool_decide (y < x)%Qc
  end.

(** [a >= b] *)
Definition nge (a b : number) : bool :=
  match a, b with
  | NaN, _ | _, NaN => false
  | Inf s, Inf t => negb s || t
  | Inf s, Fin _ => negb s
  | Fin _, Inf t => t
  | Fin x, Fin y => bool_decide (y <= x)%Qc
  end.

(** [Math.floor(a)] *)
Definition Math_floor (a : number) : number :=
  match a with
  | Fin q => num (Qfloor q)
  | _ => a
  end.

(** [Math.pow(2, a)].  A fractional exponent has an irrational power,
    which [number] cannot hold; it is mapped to [NaN].  The exponents the
    code passes are integers. *)
Definition Math_pow2 (a : number) : number :=
  match a with
  | NaN => NaN
  | Inf false => Inf false
  | Inf true => Fin 0%Qc
  | Fin q =>
      if Pos.eqb (Qden q) 1 then
        if (0 <=? Qnum q)%Z then num (2 ^ Qnum q)
        else Fin (1 / Q2Qc (inject_Z (2 ^ (- Qnum q))))%Qc
      else NaN
  end.

(** ** Scrypt parameter chooser (scrypt-pixie) *)
Module Scrypt.

(** [EdgeSnrp] *)
Record EdgeSnrp : Type := {
  salt_hex : string;
  n : number;
  r : number;
  p : number
}.

(** [calcSnrpForTarget(salt, benchMs, targetMs)] *)
Definition calcSnrpForTarget `{Env} `{Rounding} (salt : value)
    (benchMs targetMs : number) : EdgeSnrp :=
  let snrp := {| salt_hex := base16_stringify salt;
                 n := num 16384; r := num 8; p := num 1 |} in
  if num_eqb benchMs (num 0) then
    {| salt_hex := salt_hex snrp; n := num 131072; r := num 8; p := num 64 |}
  else
    let timeUsed := benchMs in
    (* Add additional r value first. *)
    let STARTING_R := num 8 in
    let MAX_R := num 8 in
    let REMAINING_R := nsub MAX_R STARTING_R in
    let perRValue := ndiv benchMs STARTING_R in
    let addR := ndiv (nsub targetMs timeUsed) perRValue in
    let addR := if ngt addR (num 0) then addR else num 0 in
    let addR := if ngt addR REMAINING_R then REMAINING_R else addR in
    let addR := Math_floor addR in
    let snrp_r := nadd STARTING_R addR in
    let timeUsed := nadd timeUsed (nmul addR perRValue) in
    (* Add additional N value in powers of 2. *)
    let nPow := num 14 in
    let addN := ndiv (nsub targetMs timeUsed) timeUsed in
    let addN := if ngt addN (num 0) then addN else num 0 in
    let addN := if ngt addN (num 3) then num 3 else addN in
    let addN := Math_floor addN in
    let nPow := nadd nPow (if nge addN (num 0) then addN else num 0) in
    let timeUsed := nadd timeUsed (nmul addN timeUsed) in
    let snrp_n := Math_pow2 nPow in
    (* Add additional p value which increases parallelization factor. *)
    let addP := ndiv (nsub targetMs timeUsed) timeUsed in
    let addP := if ngt addP (num 0) then addP else num 0 in
    let addP := if ngt addP (num 64) then num 64 else addP in
    let addP := Math_floor addP in
    let snrp_p := if nge addP (num 1) then addP else num 1 in
    {| salt_hex := salt_hex snrp; n := snrp_n; r := snrp_r; p := snrp_p |}.

End Scrypt.

(** ** What the spec says of sanitization

    [sanitizedAs a stash out]: [out] is [stash] with the node matching [a]
    kept verbatim and every node outside it reduced to [username], [appId],
    [loginId] and [children]. *)
Inductive sanitizedAs (a : value) : node → node → Prop :=
  | sanitized_match stash :
      strict_eq (prop stash "appId") a = true →
      sanitizedAs a stash stash
  | sanitized_other stash f cs :
      strict_eq (prop stash "appId") a = false →
      (∀ k, f !! k = if decide (k ∈ ["username"; "appId"; "loginId"])
                     then fields stash !! k else None) →
      Forall2 (sanitizedAs a) (childList stash) cs →
      sanitizedAs a stash (Node f (Some cs)).

(** The number of levels below a node. *)
Fixpoint height (n : node) : nat :=
  match children n with
  | Some cs => S (foldr (λ c m, Nat.max (height c) m) 0%nat cs)
  | None => 0%nat
  end.

(** In a well-formed tree the property [children] is held by [children],
    never by [fields]. *)
Fixpoint wellFormed (n : node) : bool :=
  bool_decide (fields n !! "children" = None)
  && match children n with
     | Some cs => forallb wellFormed cs
     | None => true
     end.

(** How opening [reply.box] ends. *)
Definition boxStatus `{Env} (reply : node) (box : string) (loginKey : value)
  : option error :=
  if notNull (prop reply box) then status (decrypt (prop reply box) loginKey)
  else None.

(** ** Lost children

    [lostChildren stash reply]: at some depth, a stash node has more
    children than the reply node it is paired with (children are paired by
    index). *)
Inductive lostChildren : node → node → Prop :=
  | lost_here stash reply :
      (length (childList reply) < length (childList stash))%nat →
      lostChildren stash reply
  | lost_below stash reply i stashChild replyChild :
      childList stash !! i = Some stashChild →
      childList reply !! i = Some replyChild →
      lostChildren stashChild replyChild →
      lostChildren stash reply.

(** [replyDecrypts loginKey reply]: every box the reconciler opens in
    [reply] opens, that is [pin2KeyBox] and [recovery2KeyBox] where present,
    and the [parentBox] every child must carry, recursively under the
    child's key. *)
Definition boxOpens `{Env} (reply : node) (box : string) (loginKey : value) : bool :=
  if notNull (prop reply box) then
    match decrypt (prop reply box) loginKey with
    | Ok _ => true
    | Throw _ => false
    end
  else true.

Fixpoint replyDecrypts `{Env} (loginKey : value) (reply : node) : bool :=
  boxOpens reply "pin2KeyBox" loginKey
  && boxOpens reply "recovery2KeyBox" loginKey
  && match children reply with
     | Some cs =>
         forallb (λ child,
                    truthy (prop child "parentBox")
                    && match decrypt (prop child "parentBox") loginKey with
                       | Ok childKey => replyDecrypts childKey child
                       | Throw _ => false
                       end) cs
     | None => true
     end.

(** ** A small environment to run the definitions

    Boxes are pairs of a key and a payload, and open under that key only;
    the codecs and wallet helpers are simple stand-ins ([base64.parse]
    yields zero bytes, which base58 writes as a run of [1]).  The server's
    answer and the disk's failure are parameters. *)
Definition toyDecrypt (box key : value) : result value :=
  match box, key with
  | VObj [(_, VBytes k); (_, d)], VBytes k' =>
      if bool_decide (k = k') then Ok d
      else Throw (External "decrypt: wrong key")
  | _, _ => Throw (External "decrypt: not a box")
  end.

Definition toyBox (key : list Z) (payload : value) : value :=
  VObj [("key", VBytes key); ("data", payload)].

Definition toyEnv (server : result node) (diskError : option error) : Env := {|
  decrypt := toyDecrypt;
  decryptText := toyDecrypt;
  hmacSha256 := λ data _, data;
  utf8_parse := VStr;
  base16_stringify := λ _, "00";
  base58_stringify := λ v,
    match v with
    | VBytes b => String.concat "" (map (λ _, "1") b)
    | _ => ""
    end;
  base64_stringify := λ v, match v with VStr s => s | _ => "AAAA" end;
  base64_parse := λ v,
    match v with
    | VStr s => Ok (VBytes (replicate (String.length s) 0%Z))
    | _ => Throw (External "base64: not a string")
    end;
  JSON_parse := Ok;
  JSON_stringify := λ _, "{}";
  totp := λ key, VArr [VStr "totp"; key];
  makeKeyInfo := λ type keys _, VObj [("type", type); ("keys", keys)];
  makeAccountType := λ _, VStr "account-repo";
  mergeKeyInfos := Ok;
  fixWalletInfo := id;
  newDate := VDate 0;
  getStash := λ username,
    Ok (Node {[ "username" := username; "appId" := VStr "";
                "loginId" := VStr "0123456789abcdef0123456789abcdef" ]} None);
  loginFetch := λ _ _ _, server;
  setTextError := λ _ _, diskError
|}.

(** The properties [applyLoginReplyInner] sets on its own account, from
    the old stash or from the boxes it opens. *)
Definition clientFields : list string :=
  ["lastLogin"; "username"; "userId"; "pin2Key"; "recovery2Key"; "keyBoxes"].

(** ** Sample data: a root login "alice" with one app login *)
Definition rootKey : value := VBytes [1; 2; 3].
Definition appKey : value := VBytes [4; 5; 6].
Definition rootId : string := "0123456789abcdef0123456789abcdef".

Definition appStash : node :=
  Node {[ "appId" := VStr "app"; "loginId" := VStr "app-login";
          "parentBox" := toyBox [1; 2; 3] appKey;
          "loginAuthBox" := toyBox [4; 5; 6] (VBytes [9]) ]} None.

Definition aliceStash : node :=
  Node {[ "appId" := VStr ""; "loginId" := VStr rootId;
          "username" := VStr "alice";
          "voucherId" := VStr "v1";
          "loginAuthBox" := toyBox [1; 2; 3] (VBytes [7]) ]}
       (Some [appStash]).

Definition appReply : node :=
  Node {[ "appId" := VStr "app"; "loginId" := VStr "app-login";
          "parentBox" := toyBox [1; 2; 3] appKey;
          "loginAuthBox" := toyBox [4; 5; 6] (VBytes [9]);
          "keyBoxes" := VArr [toyBox [4; 5; 6] (VStr "wallet")] ]} None.

Definition aliceReply : node :=
  Node {[ "appId" := VStr ""; "loginId" := VStr rootId;
          "loginAuthBox" := toyBox [1; 2; 3] (VBytes [7]);
          "pin2KeyBox" := toyBox [1; 2; 3] (VStr "cGlu");
          "otpKey" := VStr "ABCDEFGHIJKLMNOP";
          "keyBoxes" := VArr [] ]}
       (Some [appReply]).

(** The stash [applyLoginReply aliceStash rootKey aliceReply] produces. *)
Definition aliceStash' : node :=
  Node {[ "appId" := VStr ""; "loginId" := VStr rootId;
          "username" := VStr "alice";
          "loginAuthBox" := toyBox [1; 2; 3] (VBytes [7]);
          "otpKey" := VStr "ABCDEFGHIJKLMNOP";
          "pin2Key" := VStr "cGlu";
          "keyBoxes" := VArr [] ]}
       (Some [Node {[ "appId" := VStr "app"; "loginId" := VStr "app-login";
                      "parentBox" := toyBox [1; 2; 3] appKey;
                      "loginAuthBox" := toyBox [4; 5; 6] (VBytes [9]);
                      "keyBoxes" := VArr [toyBox [4; 5; 6] (VStr "wallet")] ]}
                   (Some [])]).

(** An environment whose server and disk both answer. *)
Definition quietEnv : Env := toyEnv (Ok aliceReply) None.

(** The failures of the reconciler: its own two, and whatever [decrypt]
    raises. *)
Definition reconcileError `{Env} (e : error) : Prop :=
  e = ServerLostChildren ∨ e = KeyIntegrity
  ∨ ∃ box key, decrypt box key = Throw e.

(** Scenario S3: two app logins under the root, and a reply with one. *)
Definition otherStash : node :=
  Node {[ "appId" := VStr "other"; "loginId" := VStr "other-login";
          "parentBox" := toyBox [1; 2; 3] (VBytes [8]) ]} None.

Definition twoAppStash : node :=
  Node (fields aliceStash) (Some [appStash; otherStash]).

(** A stash whose app login has two children of its own, and a reply whose
    app login has none and carries no [parentBox]. *)
Definition deepStash : node :=
  Node (fields aliceStash)
       (Some [Node (fields appStash) (Some [otherStash; otherStash])]).

Definition bareReply : node :=
  Node (fields aliceReply)
       (Some [Node {[ "appId" := VStr "app"; "loginId" := VStr "app-login" ]}
                   None]).

(** ** What the spec says of saving

    [savable stashTree loginId]: the root stash may be saved, and [loginId]
    is its decoded 32-byte identity. *)
Definition savable `{Env} (stashTree : node) (loginId : value) : Prop :=
  prop stashTree "appId" = VStr ""
  ∧ notNull (prop stashTree "loginId") = true
  ∧ notNull (prop stashTree "username") = true
  ∧ base64_parse (prop stashTree "loginId") = Ok loginId
  ∧ propLength loginId = VNum (num 32).

(** Logins for the server authentication: one holding both secrets and an
    OTP key, one holding a password secret only, one holding neither. *)
Definition bothAuthLogin : node :=
  Node {[ "loginId" := VStr rootId; "userId" := VStr "user";
          "loginAuth" := VStr "bG9naW4="; "passwordAuth" := VStr "cGFzcw==";
          "otpKey" := VStr "ABCDEFGHIJKLMNOP" ]} (Some []).

Definition passwordLogin : node :=
  Node {[ "loginId" := VStr rootId; "userId" := VStr "user";
          "passwordAuth" := VStr "cGFzcw==" ]} (Some []).

Definition noAuthLogin : node :=
  Node {[ "loginId" := VStr rootId; "otpKey" := VNull ]} (Some []).

(** A disk with nothing on it and no effect yet. *)
Definition emptyWorld : world := {| disk := ∅; trace := [] |}.

(** ** Kit targets and requests *)

(** The login a kit is aimed at. *)
Definition kitTarget (loginTree : node) (kit : Kit.t) : option node :=
  searchTree loginTree
    (λ login, strict_eq (prop login "loginId") (Kit.loginId kit)).

(** The request [applyKit] sends for a kit aimed at [target]. *)
Definition kitRequest `{Env} (kit : Kit.t) (target : node)
  : result (gmap string value) :=
  request ← makeAuthJson target;
  Ok (<["data" := Kit.server kit]> request).

(** Scenario S5: a single login and the kit that enables OTP on it; a kit
    aimed at a login that is not in the tree; the same login without its
    username. *)
Definition aliceTree : node :=
  Node {[ "appId" := VStr ""; "loginId" := VStr rootId;
          "username" := VStr "alice"; "loginAuth" := VStr "bG9naW4=";
          "loginKey" := rootKey; "keyInfos" := VArr [] ]} (Some []).

Definition otpKit : Kit.t := {|
  Kit.loginId := VStr rootId;
  Kit.login := Node {[ "otpKey" := VStr "ABCDEFGHIJKLMNOP";
                       "otpTimeout" := VNum (num 86400) ]} None;
  Kit.server := VObj [("otpKey", VStr "ABCDEFGHIJKLMNOP");
                      ("otpTimeout", VNum (num 86400))];
  Kit.serverMethod := None;
  Kit.serverPath := "/v2/login/otp";
  Kit.stash := Node {[ "otpKey" := VStr "ABCDEFGHIJKLMNOP";
                       "otpResetDate" := VUndefined;
                       "otpTimeout" := VNum (num 86400) ]} None
|}.

Definition strayKit : Kit.t := {|
  Kit.loginId := VStr "nobody";
  Kit.login := Kit.login otpKit;
  Kit.server := Kit.server otpKit;
  Kit.serverMethod := None;
  Kit.serverPath := "/v2/login/otp";
  Kit.stash := Kit.stash otpKit
|}.

Definition namelessTree : node :=
  Node (delete "username" (fields aliceTree)) (Some []).

(** An environment whose server is unreachable. *)
Definition offlineEnv : Env := toyEnv (Throw (External "NetworkError")) None.

(** ** What the spec says of a typed code

    [isDigitString s]: [s] is a non-empty string of decimal digits. *)
Fixpoint allDigits (s : string) : bool :=
  match s with
  | EmptyString => true
  | String c rest => isDigit c && allDigits rest
  end.

Definition isDigitString (s : string) : bool :=
  negb (String.eqb s "") && allDigits s.

(** ** The reconciler over a store of objects

    To say that an operation leaves its input alone, objects need an
    identity.  In [Heap] the stash tree lives in a store: a tree node is an
    object holding its properties, the [children] property refers to an
    array, and the array's elements refer to the child nodes.  Object and
    array literals allocate, [o.k = v] writes into the object [o] refers
    to.  The reply is the parsed answer of the server and is only read; it
    stays a [node].  A stash reached through references need not be a
    finite tree, so [updateTree] takes the depth it may descend to. *)
Module Heap.

Abbreviation loc := positive.

(** What a property or an array element holds: a value, or a reference to
    an object or array of the store. *)
Inductive slot : Type :=
  | Val (v : value)
  | Ref (l : loc).

Inductive cell : Type :=
  | Object (props : gmap string slot)
  | Array (elems : list slot).

Abbreviation heap := (gmap loc cell).

Definition run (A : Type) : Type := heap → result A * heap.

#[global] Instance run_ret : MRet run := λ A a h, (Ok a, h).
#[global] Instance run_bind : MBind run := λ A B f m h,
  match m h with
  | (Ok a, h') => f a h'
  | (Throw e, h') => (Throw e, h')
  end.

Definition fail {A : Type} (e : error) : run A := λ h, (Throw e, h).

Definition liftR {A : Type} (r : result A) : run A := λ h, (r, h).

(** An object or array literal. *)
Definition alloc (c : cell) : run loc := λ h,
  let l := fresh (dom h) in (Ok l, <[l := c]> h).

Definition typeError {A : Type} : run A :=
  fail (External "TypeError").

(** [x != null] *)
Definition notNullS (s : slot) : bool :=
  match s with
  | Val v => notNull v
  | Ref _ => true
  end.

(** [a === b] *)
Definition strict_eqS (a b : slot) : bool :=
  match a, b with
  | Val x, Val y => strict_eq x y
  | Ref x, Ref y => bool_decide (x = y)
  | _, _ => false
  end.

(** [o.k] *)
Definition readProp (o : slot) (k : string) : run slot := λ h,
  match o with
  | Ref l =>
      match h !! l with
      | Some (Object props) => (Ok (default (Val VUndefined) (props !! k)), h)
      | _ => (Ok (Val VUndefined), h)
      end
  | Val (VObj props) =>
      (Ok (Val (default VUndefined (snd <$> find (λ kv, String.eqb kv.1 k) props))), h)
  | Val v => if notNull v then (Ok (Val VUndefined), h) else typeError h
  end.

(** [o.k = v] *)
Definition writeProp (o : loc) (k : string) (v : slot) : run unit := λ h,
  match h !! o with
  | Some (Object props) => (Ok (), <[o := Object (<[k := v]> props)]> h)
  | _ => typeError h
  end.

(** The elements of the array [a], for [a.length], [a[i]] and [a.map]. *)
Definition readArray (a : slot) : run (list slot) := λ h,
  match a with
  | Ref l =>
      match h !! l with
      | Some (Array elems) => (Ok elems, h)
      | _ => typeError h
      end
  | Val (VArr l) => (Ok (Val <$> l), h)
  | Val _ => typeError h
  end.

(** The own properties of [o], for the spread [{ ...o }]. *)
Definition readObject (o : slot) : run (gmap string slot) := λ h,
  match o with
  | Ref l =>
      match h !! l with
      | Some (Object props) => (Ok props, h)
      | _ => (Ok ∅, h)
      end
  | Val (VObj props) => (Ok (Val <$> list_to_map props), h)
  | Val _ => (Ok ∅, h)
  end.

(** [for (const x of list) f(x)] *)
Definition forEach {A : Type} (f : A → run unit) : list A → run unit :=
  fix go (l : list A) : run unit :=
    match l with
    | [] => mret ()
    | x :: l' => f x;; go l'
    end.

(** [list.map(f)], without the allocation of the resulting array. *)
Definition mapRun {A B : Type} (f : A → run B) : list A → run (list B) :=
  fix go (l : list A) : run (list B) :=
    match l with
    | [] => mret []
    | x :: l' => y ← f x; ys ← go l'; mret (y :: ys)
    end.

(** [filterObject(source, keys)] on a reply node. *)
Definition filterObject (source : gmap string value) (keys : list string)
  : run loc :=
  out ← alloc (Object ∅);
  forEach (λ key,
             match source !! key with
             | Some v => writeProp out key (Val v)
             | None => mret ()
             end) keys;;
  mret out.

(** [if (stash.k != null) out.k = stash.k] *)
Definition preserve (stash : slot) (k : string) (out : loc) : run unit :=
  v ← readProp stash k;
  if notNullS v then writeProp out k v else mret ().

(** [if (reply.box != null) out.k = base64.stringify(decrypt(reply.box, key))] *)
Definition storeKey `{Env} (reply : node) (box k : string) (loginKey : value)
    (out : loc) : run unit :=
  if notNull (prop reply box) then
    key ← liftR (decrypt (prop reply box) loginKey);
    writeProp out k (Val (VStr (base64_stringify key)))
  else mret ().

(** [{ appId: child.appId, loginId: child.loginId }] *)
Definition minimalStash (child : node) : run slot :=
  o ← alloc (Object {[ "appId" := Val (prop child "appId");
                       "loginId" := Val (prop child "loginId") ]});
  mret (Ref o).

(** The callback of [replyChildren.map((child, index) => ...)]. *)
Definition mapReplyChildren `{Env} (recur : slot → value → node → run loc)
    (stashChildren : list slot) (loginKey : value)
  : list node → nat → run (list slot) :=
  fix go (l : list node) (index : nat) : run (list slot) :=
    match l with
    | [] => mret []
    | child :: l' =>
        if negb (truthy (prop child "parentBox")) then fail KeyIntegrity
        else
          childKey ← liftR (decrypt (prop child "parentBox") loginKey);
          childStash ←
            match stashChildren !! index with
            | Some s =>
                if notNullS s then mret s
                else minimalStash child
            | None => minimalStash child
            end;
          c ← recur childStash childKey child;
          cs ← go l' (S index);
          mret (Ref c :: cs)
    end.

(** The output object with its properties other than [children]. *)
Definition replyFields `{Env} (stash : slot) (loginKey : value)
    (loginReply : node) : run loc :=
  (* Copy common items: *)
  out ← filterObject (fields loginReply) replyAllowlist;
  (* Preserve client-only data: *)
  preserve stash "lastLogin" out;;
  preserve stash "username" out;;
  preserve stash "userId" out;;
  (* Store the pin key unencrypted: *)
  storeKey loginReply "pin2KeyBox" "pin2Key" loginKey out;;
  (* Store the recovery key unencrypted: *)
  storeKey loginReply "recovery2KeyBox" "recovery2Key" loginKey out;;
  (* Keys: *)
  writeProp out "keyBoxes"
    (Val (if notNull (prop loginReply "keyBoxes")
          then prop loginReply "keyBoxes" else VArr []));;
  mret out.

(** [stash.children != null ? stash.children : []] *)
Definition readChildren (stash : slot) : run (list slot) :=
  sc ← readProp stash "children";
  if notNullS sc then readArray sc else mret [].

(** [applyLoginReplyInner(stash, loginKey, loginReply)] *)
Fixpoint applyLoginReplyInner `{Env} (stash : slot) (loginKey : value)
    (loginReply : node) {struct loginReply} : run loc :=
  out ← replyFields stash loginKey loginReply;
  (* Recurse into children: *)
  stashChildren ← readChildren stash;
  let replyChildren := childList loginReply in
  if (length replyChildren <? length stashChildren)%nat
  then fail ServerLostChildren
  else
    cs ← match children loginReply with
         | Some l =>
             mapReplyChildren
               (λ childStash childKey child,
                  applyLoginReplyInner childStash childKey child)
               stashChildren loginKey l 0%nat
         | None => mret []
         end;
    array ← alloc (Array cs);
    writeProp out "children" (Ref array);;
    mret out.

(** [cloneNode(node, children)]: [{ ...node, children }] *)
Definition cloneNode (n : slot) (cs : slot) : run loc :=
  props ← readObject n;
  alloc (Object (<["children" := cs]> props)).

(** [updateTree(node, predicate, update, clone)], descending at most
    [depth] levels. *)
Fixpoint updateTree (depth : nat) (n : slot) (predicate : slot → run bool)
    (update : slot → run loc) (clone : slot → slot → run loc) : run loc :=
  match depth with
  | O => fail (External "updateTree: depth exhausted")
  | S depth =>
      predicate n ≫= λ matched : bool,
      if matched then update n
      else
        elems ← readChildren n;
        cs ← mapRun (λ child,
                       l ← updateTree depth child predicate update clone;
                       mret (Ref l))
                    elems;
        array ← alloc (Array cs);
        clone n (Ref array)
  end.

(** [applyLoginReply(stashTree, loginKey, loginReply)] *)
Definition applyLoginReply `{Env} (depth : nat) (stashTree : slot)
    (loginKey : value) (loginReply : node) : run loc :=
  updateTree depth stashTree
    (λ stash,
       appId ← readProp stash "appId";
       mret (strict_eqS appId (Val (prop loginReply "appId"))))
    (λ stash, applyLoginReplyInner stash loginKey loginReply)
    cloneNode.

(** Laying a tree out in the store, and reading one back. *)
Fixpoint store (n : node) : run loc :=
  match children n with
  | Some cs =>
      ls ← mapRun (λ child, l ← store child; mret (Ref l)) cs;
      array ← alloc (Array ls);
      alloc (Object (<["children" := Ref array]> (Val <$> fields n)))
  | None => alloc (Object (Val <$> fields n))
  end.

Definition slotValue (s : slot) : option value :=
  match s with
  | Val v => Some v
  | Ref _ => None
  end.

Fixpoint load (depth : nat) (h : heap) (s : slot) : option node :=
  match depth, s with
  | S depth, Ref l =>
      match h !! l with
      | Some (Object props) =>
          let fs := omap slotValue (delete "children" props) in
          match props !! "children" with
          | Some (Ref a) =>
              match h !! a with
              | Some (Array elems) =>
                  cs ← mapM (load depth h) elems;
                  Some (Node fs (Some cs))
              | _ => None
              end
          | Some (Val _) => None
          | None => Some (Node fs None)
          end
      | _ => None
      end
  | _, _ => None
  end.

(** [pairwise R es cs]: the lists have the same length and [R] relates
    their elements position by position. *)
Definition pairwise (R : slot → node → Prop) : list slot → list node → Prop :=
  fix go (es : list slot) (cs : list node) {struct cs} : Prop :=
    match cs, es with
    | [], [] => True
    | c :: cs', e :: es' => R e c ∧ go es' cs'
    | _, _ => False
    end.

(** [represents h s n]: in the store [h], [s] refers to an object that
    holds the tree [n]: its properties are those of [n], and its [children]
    property refers to an array whose elements hold the children of [n],
    or is absent when [n] has none. *)
Fixpoint represents (h : heap) (s : slot) (n : node) {struct n} : Prop :=
  ∃ l props,
    s = Ref l
    ∧ h !! l = Some (Object props)
    ∧ (∀ k, k ≠ "children" → props !! k = Val <$> (fields n !! k))
    ∧ match children n with
      | None => props !! "children" = None
      | Some cs =>
          ∃ a elems,
            props !! "children" = Some (Ref a)
            ∧ h !! a = Some (Array elems)
            ∧ pairwise (λ e c, represents h e c) elems cs
      end.

(** [keeps h0 m Q]: run in any store that extends [h0], [m] ends in a store
    that extends [h0] (every object of [h0] is still there, unchanged), and
    a result it returns satisfies [Q]. *)
Definition keeps {A : Type} (h0 : heap) (m : run A) (Q : A → Prop) : Prop :=
  ∀ h, h0 ⊆ h → h0 ⊆ (m h).2 ∧ ∀ a, (m h).1 = Ok a → Q a.

(** [follows I m st Q]: run in a store where [I] holds, [m] ends in a store
    where [I] holds, it ends as [st] says, and a result it returns
    satisfies [Q]. *)
Definition follows {A : Type} (I : heap → Prop) (m : run A)
    (st : option error) (Q : A → Prop) : Prop :=
  ∀ h, I h →
       I (m h).2 ∧ status (m h).1 = st ∧ ∀ a, (m h).1 = Ok a → Q a.

(** The invariant of a run that has allocated [out]: the store it started
    from is untouched, and [out] is an object. *)
Definition building (h0 : heap) (out : loc) (h : heap) : Prop :=
  h0 ⊆ h ∧ ∃ props, h !! out = Some (Object props).

End Heap.

(** ** Tree shapes

    [preorder n]: the nodes of a tree, each node before its children and the
    children in order. *)
Fixpoint preorder (n : node) : list node :=
  n :: match children n with
       | Some cs => concat (map preorder cs)
       | None => []
       end.

(** [cloneTree clone n]: the tree rebuilt by [clone], from the leaves up. *)
Fixpoint cloneTree (clone : node → list node → node) (n : node) : node :=
  clone n match children n with
          | Some cs => map (cloneTree clone) cs
          | None => []
          end.

(** [mirrors out reply]: [out] has the branching of [reply], and at every
    level the allowlisted properties of the reply node, [userId] apart. *)
Inductive mirrors : node → node → Prop :=
  | mirrors_node out reply cs :
      children out = Some cs →
      (∀ k, k ∈ replyAllowlist → k ≠ "userId" →
            fields out !! k = fields reply !! k) →
      Forall2 mirrors cs (childList reply) →
      mirrors out reply.

(** ** What the reconciler stores

    [openedKey reply box loginKey]: the base64 text of the key in
    [reply.box], when the reply has that box and it opens. *)
Definition openedKey `{Env} (reply : node) (box : string) (loginKey : value)
  : option value :=
  if notNull (prop reply box) then
    match decrypt (prop reply box) loginKey with
    | Ok key => Some (VStr (base64_stringify key))
    | Throw _ => None
    end
  else None.

(** [kept stash k otherwise]: the property [k] of the old stash when it is
    set, and [otherwise] when it is not. *)
Definition kept (stash : node) (k : string) (otherwise : option value)
  : option value :=
  if notNull (prop stash k) then Some (prop stash k) else otherwise.

(** ** What the builder starts from

    The object literal [makeLoginTreeInner] first fills from the stash. *)
Definition loginSkeleton `{Env} (stash : node) (loginKey : value)
  : gmap string value :=
  {[ "appId" := prop stash "appId";
     "created" := prop stash "created";
     "lastLogin" := orDefault (prop stash "lastLogin") newDate;
     "loginId" := prop stash "loginId";
     "otpKey" := prop stash "otpKey";
     "otpResetDate" := prop stash "otpResetDate";
     "otpTimeout" := prop stash "otpTimeout";
     "userId" := prop stash "userId";
     "username" := prop stash "username";
     "loginKey" := loginKey;
     "keyInfos" := VArr [] ]}.

(** ** One-time password kits (login/otp)

    The three operations read the account's login tree from the store and
    apply a kit to it; here the login tree is their argument.  The secret
    [base32.stringify(io.random(10))] is the one drawn by the call. *)
Class OtpEnv : Type := {
  (** [fixOtpKey(key)] of util/crypto/hotp *)
  fixOtpKey : value → value;
  (** [base32.stringify(io.random(10))] *)
  freshOtpKey : value
}.

(** The kit of [enableOtp(ai, accountId, otpTimeout)]. *)
Definition enableOtpKit `{OtpEnv} (loginTree : node) (otpTimeout : value)
  : Kit.t :=
  let otpKey :=
    if notNull (prop loginTree "otpKey")
    then fixOtpKey (prop loginTree "otpKey")
    else freshOtpKey in
  {| Kit.serverPath := "/v2/login/otp";
     Kit.serverMethod := None;
     Kit.server := VObj [("otpKey", otpKey); ("otpTimeout", otpTimeout)];
     Kit.stash := Node {[ "otpKey" := otpKey;
                          "otpResetDate" := VUndefined;
                          "otpTimeout" := otpTimeout ]} None;
     Kit.login := Node {[ "otpKey" := otpKey;
                          "otpResetDate" := VUndefined;
                          "otpTimeout" := otpTimeout ]} None;
     Kit.loginId := prop loginTree "loginId" |}.

(** [enableOtp(ai, accountId, otpTimeout)] *)
Definition enableOtp `{Env} `{OtpEnv} (loginTree : node) (otpTimeout : value)
  : io unit :=
  applyKit loginTree (enableOtpKit loginTree otpTimeout);; mret ().

(** The kit of [disableOtp(ai, accountId)]. *)
Definition disableOtpKit (loginTree : node) : Kit.t :=
  {| Kit.serverMethod := Some "DELETE";
     Kit.serverPath := "/v2/login/otp";
     Kit.server := VUndefined;
     Kit.stash := Node {[ "otpKey" := VUndefined;
                          "otpResetDate" := VUndefined;
                          "otpTimeout" := VUndefined ]} None;
     Kit.login := Node {[ "otpKey" := VUndefined;
                          "otpResetDate" := VUndefined;
                          "otpTimeout" := VUndefined ]} None;
     Kit.loginId := prop loginTree "loginId" |}.

(** [disableOtp(ai, accountId)] *)
Definition disableOtp `{Env} (loginTree : node) : io unit :=
  applyKit loginTree (disableOtpKit loginTree);; mret ().

(** The kit of [cancelOtpReset(ai, accountId)]. *)
Definition cancelOtpResetKit (loginTree : node) : Kit.t :=
  {| Kit.serverPath := "/v2/login/otp";
     Kit.serverMethod := None;
     Kit.server := VObj [("otpTimeout", prop loginTree "otpTimeout");
                         ("otpKey", prop loginTree "otpKey")];
     Kit.stash := Node {[ "otpResetDate" := VUndefined ]} None;
     Kit.login := Node {[ "otpResetDate" := VUndefined ]} None;
     Kit.loginId := prop loginTree "loginId" |}.

(** [cancelOtpReset(ai, accountId)] *)
Definition cancelOtpReset `{Env} (loginTree : node) : io unit :=
  applyKit loginTree (cancelOtpResetKit loginTree);; mret ().

(** The node of a stash tree a kit is aimed at. *)
Definition kitStash (stashTree : node) (kit : Kit.t) : option node :=
  searchTree stashTree
    (λ stash, strict_eq (prop stash "loginId") (Kit.loginId kit)).

(** A login tree with an app login, and a kit aimed at the app login. *)
Definition appTree : node :=
  Node (fields aliceTree)
       (Some [Node {[ "appId" := VStr "app"; "loginId" := VStr "app-login";
                      "loginAuth" := VStr "YXBw"; "loginKey" := appKey;
                      "keyInfos" := VArr [] ]} (Some [])]).

Definition appKit : Kit.t := {|
  Kit.loginId := VStr "app-login";
  Kit.login := Kit.login otpKit;
  Kit.server := Kit.server otpKit;
  Kit.serverMethod := None;
  Kit.serverPath := "/v2/login/otp";
  Kit.stash := Kit.stash otpKit
|}.

(** An OTP environment for the samples: keys are kept as they are. *)
Definition plainOtpEnv : OtpEnv :=
  {| fixOtpKey := id; freshOtpKey := VStr "MFRGGZDFMZTWQ2LK" |}.

(** A logged-in account with an OTP key and a pending reset. *)
Definition otpTree : node :=
  Node (<["otpKey" := VStr "ABCDEFGHIJKLMNOP"]>
          (<["otpTimeout" := VNum (num 86400)]>
             (<["otpResetDate" := VDate 1000]> (fields aliceTree))))
       (Some []).

(** ** The chain of login keys *)

(** [keyChain loginKey stash login]: [login] holds [loginKey]; its children
    stand, in order, for the children of [stash], and each of them holds the
    key that the [parentBox] of its stash opens to under [loginKey]; and so
    on down the tree. *)
Inductive keyChain `{Env} : value → node → node → Prop :=
  | keyChain_node loginKey stash login cs :
      prop login "loginKey" = loginKey →
      children login = Some cs →
      Forall2 (λ child l,
                 ∃ childKey,
                   decrypt (prop child "parentBox") loginKey = Ok childKey
                   ∧ keyChain childKey child l)
        (childList stash) cs →
      keyChain loginKey stash login.

(** ** Stash files (login/login-stash)

    [loadStashes] and [removeStash] walk the files of the [logins] folder.
    The disk is the map from paths to texts of [world]; the folder listing,
    the parser and the cleaner of a stash file, and the username
    normalization are collaborators. *)
Class Usernames : Type := {
  (** [fixUsername(username)] of login/login-selectors *)
  fixUsername : string → result string
}.

Class StashFiles : Type := {
  (** [disklet.list('logins').then(justFiles)]: the paths of the files of
      the folder, or the failure of the listing *)
  listLogins : gmap string string → result (list string);
  (** [asLoginStash(JSON.parse(text))] *)
  readStash : string → result node;
  (** the failure, if any, with which [disklet.delete(path)] rejects *)
  deleteError : string → option error;
  (** [String(error)] *)
  errorText : error → string
}.

(** [disklet.getText(path)] *)
Definition getText (disk : gmap string string) (path : string)
  : result string :=
  match disk !! path with
  | Some text => Ok text
  | None => Throw (External "ENOENT")
  end.

(** [loadStashes(disklet, log)]: the stashes read, and the warnings logged,
    both in the order of the listing. *)
Definition loadStashes `{StashFiles} (disk : gmap string string)
  : result (list node * list string) :=
  paths ← listLogins disk;
  Ok (foldl (λ acc path,
               match text ← getText disk path; readStash text with
               | Ok stash => ((acc.1 ++ [stash])%list, acc.2)
               | Throw error =>
                   (acc.1,
                    (acc.2 ++ [("Could not load " ++ path ++ ": "
                                ++ errorText error)%string])%list)
               end)
            ([], []) paths).

Inductive stashAction : Type :=
  | LOGIN_STASH_DELETED (payload : string).

(** The body of the loop of [removeStash]: whatever throws in it is
    caught. *)
Definition removeFile `{StashFiles} (fixedName : string)
    (disk : gmap string string) (path : string) : gmap string string :=
  match text ← getText disk path; readStash text with
  | Ok stash =>
      if strict_eq (prop stash "username") (VStr fixedName) then
        match deleteError path with
        | Some _ => disk
        | None => delete path disk
        end
      else disk
  | Throw _ => disk
  end.

(** [removeStash(ai, username)]: the disk it leaves and the action it
    dispatches; a failure comes before any change. *)
Definition removeStash `{Usernames} `{StashFiles} (username : string)
    (disk : gmap string string)
  : result (gmap string string * stashAction) :=
  fixedName ← fixUsername username;
  paths ← listLogins disk;
  let disk := foldl (removeFile fixedName) disk paths in
  payload ← fixUsername username;
  Ok (disk, LOGIN_STASH_DELETED payload).

(** [removable fixedName disk path]: the file at [path] reads as a stash of
    the user [fixedName], and can be deleted. *)
Definition removable `{StashFiles} (fixedName : string)
    (disk : gmap string string) (path : string) : bool :=
  match text ← getText disk path; readStash text with
  | Ok stash =>
      strict_eq (prop stash "username") (VStr fixedName)
      && bool_decide (deleteError path = None)
  | Throw _ => false
  end.

(** ** Creating a login (login/create)

    The kit of a new login is assembled by [makeCreateKit] from random
    draws, encryptions and the kits of the password, the PIN and the keys;
    [createLogin] takes it as it comes. *)
Record LoginCreateOpts : Type := {
  keyInfo : value;
  password : value;
  pin : value
}.

Class CreateEnv : Type := {
  (** [makeCreateKit(ai, parentLogin, appId, username, opts)] *)
  makeCreateKit : option node → string → string → LoginCreateOpts
                  → result Kit.t
}.

(** [createLogin(ai, username, accountOpts, opts)], with [accountOpts.now]
    as [now]. *)
Definition createLogin `{Env} `{Usernames} `{CreateEnv} (username : string)
    (now : value) (opts : LoginCreateOpts) : io node :=
  fixedName ← lift (fixUsername username);
  let now := orDefault now newDate in
  kit ← lift (makeCreateKit None "" fixedName opts);
  let login := <["username" := VStr fixedName]> (fields (Kit.login kit)) in
  let stash := <["username" := VStr fixedName]> (fields (Kit.stash kit)) in
  let login := <["userId" := get login "loginId"]> login in
  let request : gmap string value := {[ "data" := Kit.server kit ]} in
  fetch "POST" (Kit.serverPath kit) request;;
  let stash := <["lastLogin" := now]> stash in
  saveStash (Node stash (children (Kit.stash kit)));;
  mret (Node login (children (Kit.login kit))).

(** Samples: names that are normalized already, a disk whose every file
    is listed and where the text [{}] reads as the stash of alice, and a
    kit for a new root login. *)
Definition plainUsernames : Usernames := {| fixUsername := Ok |}.

Definition sampleFiles : StashFiles := {|
  listLogins := λ disk, Ok (map fst (map_to_list disk));
  readStash := λ text,
    if String.eqb text "{}" then Ok aliceStash'
    else Throw (External "SyntaxError");
  deleteError := λ _, None;
  errorText := message
|}.

Definition sampleKit : Kit.t := {|
  Kit.loginId := VStr rootId;
  Kit.login := Node {[ "appId" := VStr ""; "loginId" := VStr rootId;
                       "loginKey" := rootKey; "keyInfos" := VArr [] ]} None;
  Kit.server := VObj [("appId", VStr ""); ("loginId", VStr rootId)];
  Kit.serverMethod := None;
  Kit.serverPath := "/v2/login/create";
  Kit.stash := Node {[ "appId" := VStr ""; "loginId" := VStr rootId ]} None
|}.

Definition sampleCreate : CreateEnv :=
  {| makeCreateKit := λ _ _ _ _, Ok sampleKit |}.

(** ** Selecting inherited properties *)

(** [filterObject(source, keys)] on an object that inherits properties:
    [key in source] holds of the properties [source] has and of those it
    inherits, here [proto], and [source[key]] reads the object's own
    property before the inherited one.  The plain [filterObject] is the
    case where no selected key is inherited, as with the key lists of
    login/login. *)
Definition filterObjectIn (proto source : gmap string value)
    (keys : list string) : gmap string value :=
  foldl (λ out key,
           if bool_decide (is_Some (source !! key))
              || bool_decide (is_Some (proto !! key))
           then <[key := get (source ∪ proto) key]> out
           else out) ∅ keys.

(** * Properties *)

(** ** Object helpers *)

Lemma filterObject_fold (source : gmap string value) (keys : list string)
    (acc : gmap string value) (k : string) :
  foldl (λ out key,
           match source !! key with
           | Some v => <[key := v]> out
           | None => out
           end) acc keys !! k
  = if decide (k ∈ keys)
    then match source !! k with Some v => Some v | None => acc !! k end
    else acc !! k.
Proof.
  revert acc. induction keys as [|key keys IH]; intros acc; simpl.
  - done.
  - rewrite IH. destruct (decide (k = key)) as [->|Hne].
    + rewrite (decide_True (P := key ∈ key :: keys)) by (apply elem_of_cons; by left).
      destruct (source !! key) eqn:Hs.
      * rewrite lookup_insert_eq. by case_decide.
      * by case_decide.
    + assert (Hk : ∀ m : gmap string value,
                 match source !! key with
                 | Some v => <[key := v]> m
                 | None => m
                 end !! k = m !! k).
      { intros m. destruct (source !! key); [by rewrite lookup_insert_ne|done]. }
      rewrite Hk. destruct (decide (k ∈ keys)).
      * by rewrite decide_True by (apply elem_of_cons; by right).
      * by rewrite decide_False by (by apply not_elem_of_cons).
Qed.

Lemma filterObject_lookup (source : gmap string value) (keys : list string)
    (k : string) :
  filterObject source keys !! k
  = if decide (k ∈ keys) then source !! k else None.
Proof.
  unfold filterObject. rewrite filterObject_fold, lookup_empty.
  case_decide; [by destruct (source !! k)|done].
Qed.

Lemma filterObject_idemp (source : gmap string value) (keys : list string) :
  filterObject (filterObject source keys) keys = filterObject source keys.
Proof.
  apply map_eq. intros k. rewrite !filterObject_lookup. by case_decide.
Qed.

Lemma get_filterObject (source : gmap string value) (keys : list string)
    (k : string) :
  k ∈ keys → get (filterObject source keys) k = get source k.
Proof. intros Hk. unfold get. by rewrite filterObject_lookup, decide_True. Qed.

(** ** Tree engine *)

Lemma updateTree_eq n predicate update clone :
  updateTree n predicate update clone
  = if predicate n then update n
    else
      cs ← match children n with
           | Some cs => mapR (λ child, updateTree child predicate update clone) cs
           | None => Ok []
           end;
      Ok (clone n cs).
Proof. by destruct n. Qed.

Lemma mapR_Forall2 {A B : Type} (f : A → result B) (R : A → B → Prop) l :
  Forall (λ x, ∃ y, f x = Ok y ∧ R x y) l →
  ∃ ys, mapR f l = Ok ys ∧ Forall2 R l ys.
Proof.
  induction 1 as [|x l (y & Hy & HR) _ (ys & Hys & HRs)]; simpl.
  - eexists; split; [done|constructor].
  - rewrite Hy, Hys. eexists; split; [done|by constructor].
Qed.

Lemma mapR_fixed {A : Type} (f : A → result A) l l' :
  Forall (λ x, ∀ y, f x = Ok y → f y = Ok y) l →
  mapR f l = Ok l' → mapR f l' = Ok l'.
Proof.
  intros Hl. revert l'. induction Hl as [|x l Hx _ IH]; intros l'; simpl.
  - by intros [= <-].
  - destruct (f x) as [y|] eqn:Hy; [|done].
    destruct (mapR f l) as [ys|] eqn:Hys; [|done].
    intros [= <-]. simpl. by rewrite (Hx y eq_refl), (IH ys eq_refl).
Qed.

(** ** Sanitization *)

Lemma sanitize_keeps_appId (f : gmap string value) cs cs' a :
  strict_eq
    (prop (Node (filterObject f ["username"; "appId"; "loginId"]) cs') "appId") a
  = strict_eq (prop (Node f cs) "appId") a.
Proof.
  unfold prop; simpl. by rewrite get_filterObject by set_solver.
Qed.

Lemma sanitizeLoginStash_spec a stash :
  ∃ out, sanitizeLoginStash stash a = Ok out ∧ sanitizedAs a stash out.
Proof.
  unfold sanitizeLoginStash.
  induction stash as [f|f cs IH] using node_tree_ind; rewrite updateTree_eq;
    destruct (strict_eq _ a) eqn:Hp;
    try (eexists; split; [done|by constructor]).
  - eexists; split; [done|]. constructor; [done| |constructor].
    intros k. apply filterObject_lookup.
  - destruct (mapR_Forall2 _ (sanitizedAs a) cs IH) as (cs' & Hcs & Hrel).
    simpl. rewrite Hcs. eexists; split; [done|].
    constructor; [done| |done].
    intros k. apply filterObject_lookup.
Qed.

Lemma sanitizeLoginStash_fixed a stash out :
  sanitizeLoginStash stash a = Ok out → sanitizeLoginStash out a = Ok out.
Proof.
  unfold sanitizeLoginStash. revert out.
  induction stash as [f|f cs IH] using node_tree_ind; intros out;
    rewrite updateTree_eq; cbv beta; destruct (strict_eq _ a) eqn:Hp.
  - intros [= <-]. rewrite updateTree_eq; cbv beta. by rewrite Hp.
  - intros [= <-]. rewrite updateTree_eq; cbv beta.
    rewrite (sanitize_keeps_appId f None), Hp. simpl.
    by rewrite filterObject_idemp.
  - intros [= <-]. rewrite updateTree_eq; cbv beta. by rewrite Hp.
  - simpl. destruct (mapR _ cs) as [cs'|] eqn:Hcs; [|done].
    intros [= <-]. rewrite updateTree_eq; cbv beta.
    rewrite (sanitize_keeps_appId f (Some cs)), Hp. simpl.
    by rewrite (mapR_fixed _ cs cs' IH Hcs), filterObject_idemp.
Qed.

(** C7. [sanitizeLoginStash] always returns, and is idempotent: sanitizing
    its result again for the same appId gives the result back.  The result
    is the input with the node matching the appId (and so the subtree it
    holds) returned verbatim, and every node outside it carrying only the
    properties [username], [appId] and [loginId], each when the input node
    has it, next to [children]. *)
Theorem sanitizeLoginStash_idempotent (stash : node) (a : value) :
  ∃ out,
    sanitizeLoginStash stash a = Ok out
    ∧ sanitizeLoginStash out a = Ok out
    ∧ sanitizedAs a stash out.
Proof.
  destruct (sanitizeLoginStash_spec a stash) as (out & Hout & Hrel).
  exists out. split; [done|]. split; [|done].
  by apply (sanitizeLoginStash_fixed a stash).
Qed.

(** ** Reply reconciler *)

Lemma preserve_lookup_ne source k' (out : gmap string value) k :
  k ≠ k' → preserve source k' out !! k = out !! k.
Proof. intros Hne. unfold preserve. case_match; [by rewrite lookup_insert_ne|done]. Qed.

Lemma storeKey_lookup_ne `{Env} reply box k' loginKey (out out' : gmap string value) k :
  storeKey reply box k' loginKey out = Ok out' → k ≠ k' → out' !! k = out !! k.
Proof.
  unfold storeKey. intros Hs Hne. destruct (notNull _).
  - destruct (decrypt _ _); simpl in Hs; [|done].
    injection Hs as <-. by rewrite lookup_insert_ne.
  - by injection Hs as <-.
Qed.

Lemma storeKey_throw `{Env} reply box k loginKey (out : gmap string value) e :
  storeKey reply box k loginKey out = Throw e →
  boxOpens reply box loginKey = false
  ∧ decrypt (prop reply box) loginKey = Throw e.
Proof.
  unfold storeKey, boxOpens. destruct (notNull _); [|done].
  destruct (decrypt _ _); simpl; [done|]. by intros [= ->].
Qed.

Lemma replyFields_lookup `{Env} stash loginKey reply (out : gmap string value) k :
  replyFields stash loginKey reply = Ok out →
  k ∉ clientFields →
  out !! k = if decide (k ∈ replyAllowlist) then fields reply !! k else None.
Proof.
  unfold replyFields, clientFields. intros Hout Hk.
  rewrite !not_elem_of_cons in Hk. destruct Hk as (Hk1 & Hk2 & Hk3 & Hk4 & Hk5 & Hk6 & _).
  destruct (storeKey reply "pin2KeyBox" _ _ _) as [o1|] eqn:Hs1; [|done].
  simpl in Hout.
  destruct (storeKey reply "recovery2KeyBox" _ _ _) as [o2|] eqn:Hs2; [|done].
  simpl in Hout. injection Hout as <-.
  rewrite lookup_insert_ne by done.
  rewrite (storeKey_lookup_ne _ _ _ _ _ _ _ Hs2) by done.
  rewrite (storeKey_lookup_ne _ _ _ _ _ _ _ Hs1) by done.
  rewrite !preserve_lookup_ne by done.
  apply filterObject_lookup.
Qed.

Lemma applyLoginReplyInner_eq `{Env} stash loginKey loginReply :
  applyLoginReplyInner stash loginKey loginReply
  = (out ← replyFields stash loginKey loginReply;
     if (length (childList loginReply) <? length (childList stash))%nat
     then Throw ServerLostChildren
     else
       cs ← match children loginReply with
            | Some l =>
                mapReplyChildren
                  (λ childStash childKey child,
                     applyLoginReplyInner childStash childKey child)
                  (childList stash) loginKey l 0%nat
            | None => Ok []
            end;
       Ok (Node out (Some cs))).
Proof. by destruct loginReply. Qed.

Lemma applyLoginReplyInner_lookup `{Env} stash loginKey reply out k :
  applyLoginReplyInner stash loginKey reply = Ok out →
  k ∉ clientFields →
  fields out !! k
  = if decide (k ∈ replyAllowlist) then fields reply !! k else None.
Proof.
  rewrite applyLoginReplyInner_eq.
  destruct (replyFields stash loginKey reply) as [fo|] eqn:Hfo; [|done]. simpl.
  destruct (_ <? _)%nat; [done|].
  destruct (match children reply with Some _ => _ | None => _ end) as [cs|];
    [|done].
  simpl. intros [= <-] Hclient. simpl.
  by apply (replyFields_lookup stash loginKey reply).
Qed.

Lemma allowlist_not_client k :
  k ∈ replyAllowlist → k ≠ "userId" → k ∉ clientFields.
Proof.
  intros Hallow Huser Hin. revert Hallow. unfold clientFields in Hin.
  rewrite !elem_of_cons in Hin.
  destruct Hin as [->|[->|[->|[->|[->|[->|Hin]]]]]];
    [compute_done|compute_done|done|compute_done..|by apply elem_of_nil in Hin].
Qed.




Lemma searchTree_eq n predicate :
  searchTree n predicate
  = if predicate n then Some n
    else match children n with
         | Some cs => firstOut (λ child, searchTree child predicate) cs
         | None => None
         end.
Proof. by destruct n. Qed.

Lemma updateTree_no_match n predicate update clone :
  searchTree n predicate = None →
  ∃ n', updateTree n predicate update clone = Ok n'.
Proof.
  induction n as [f|f cs IH] using node_tree_ind;
    rewrite searchTree_eq, updateTree_eq; destruct (predicate _); try done;
    simpl; [by eexists|].
  intros Hnone.
  assert (∃ cs', mapR (λ child, updateTree child predicate update clone) cs
                 = Ok cs') as [cs' ->]; [|by eexists].
  induction IH as [|c cs Hc _ IHcs]; simpl in *; [by eexists|].
  destruct (searchTree c predicate); [done|].
  destruct (Hc eq_refl) as [c' ->]. destruct (IHcs Hnone) as [cs' ->].
  by eexists.
Qed.

Lemma updateTree_match_throws n predicate update clone m e :
  searchTree n predicate = Some m →
  update m = Throw e →
  updateTree n predicate update clone = Throw e.
Proof.
  intros Hm He. revert Hm.
  induction n as [f|f cs IH] using node_tree_ind;
    rewrite searchTree_eq, updateTree_eq; destruct (predicate _); simpl;
    try (by intros [= ->]); try done.
  intros Hm.
  assert (mapR (λ child, updateTree child predicate update clone) cs = Throw e)
    as ->; [|done].
  induction IH as [|c cs Hc _ IHcs]; simpl in *; [done|].
  destruct (searchTree c predicate) as [m'|] eqn:Hsc.
  - by rewrite (Hc Hm).
  - destruct (updateTree_no_match c predicate update clone Hsc) as [c' ->].
    by rewrite (IHcs Hm).
Qed.

Lemma updateTree_search_none n p update clone n' :
  (∀ x cs, p (clone x cs) = p x) →
  (∀ x cs, children (clone x cs) = Some cs) →
  searchTree n p = None →
  updateTree n p update clone = Ok n' →
  searchTree n' p = None.
Proof.
  intros Hclone Hchildren. revert n'.
  induction n as [f|f cs IH] using node_tree_ind; intros n';
    rewrite searchTree_eq, updateTree_eq; destruct (p _) eqn:Hp; simpl;
    try done.
  - intros _ [= <-]. by rewrite searchTree_eq, Hclone, Hp, Hchildren.
  - intros Hfind.
    destruct (mapR _ cs) as [cs'|] eqn:Hcs; simpl; [|done].
    intros [= <-]. rewrite searchTree_eq, Hclone, Hp, Hchildren.
    change (firstOut (λ child, searchTree child p) cs' = None).
    clear Hp. revert cs' Hcs.
    induction IH as [|c cs Hc _ IHcs]; intros cs'; simpl in *.
    + by intros [= <-].
    + destruct (updateTree c p update clone) as [c'|] eqn:Hc'; [|done].
      destruct (mapR _ cs) as [cs''|] eqn:Hcs''; [|done].
      intros [= <-]. simpl.
      destruct (searchTree c p) as [m0|] eqn:Hm0; [done|].
      rewrite (Hc c' eq_refl eq_refl). by eapply IHcs.
Qed.

Lemma updateTree_search n p update clone n' m :
  (∀ x cs, p (clone x cs) = p x) →
  (∀ x cs, children (clone x cs) = Some cs) →
  (∀ x y, p x = true → update x = Ok y → p y = true) →
  searchTree n p = Some m →
  updateTree n p update clone = Ok n' →
  ∃ m', update m = Ok m' ∧ searchTree n' p = Some m'.
Proof.
  intros Hclone Hchildren Hupdate. revert n'.
  induction n as [f|f cs IH] using node_tree_ind; intros n';
    rewrite searchTree_eq, updateTree_eq; destruct (p _) eqn:Hp; simpl;
    try done.
  - intros [= <-] Hu. exists n'. split; [done|].
    by rewrite searchTree_eq, (Hupdate _ _ Hp Hu).
  - intros [= <-] Hu. exists n'. split; [done|].
    by rewrite searchTree_eq, (Hupdate _ _ Hp Hu).
  - intros Hfind.
    destruct (mapR _ cs) as [cs'|] eqn:Hcs; simpl; [|done].
    intros [= <-]. rewrite searchTree_eq, Hclone, Hp, Hchildren.
    change (∃ m', update m = Ok m'
                  ∧ firstOut (λ child, searchTree child p) cs' = Some m').
    clear Hp. revert cs' Hcs.
    induction IH as [|c cs Hc _ IHcs]; intros cs'; simpl in *; [done|].
    destruct (updateTree c p update clone) as [c'|] eqn:Hc'; [|done].
    destruct (mapR _ cs) as [cs''|] eqn:Hcs''; [|done].
    intros [= <-]. simpl.
    destruct (searchTree c p) as [m0|] eqn:Hm0.
    + injection Hfind as ->.
      destruct (Hc c' eq_refl eq_refl) as (m' & Hm' & ->). eauto.
    + rewrite (updateTree_search_none c p update clone c' Hclone Hchildren Hm0 Hc').
      by eapply IHcs.
Qed.

Lemma replyFields_throw `{Env} stash loginKey reply e :
  replyFields stash loginKey reply = Throw e →
  (boxOpens reply "pin2KeyBox" loginKey = false
   ∨ boxOpens reply "recovery2KeyBox" loginKey = false)
  ∧ ∃ box, decrypt box loginKey = Throw e.
Proof.
  unfold replyFields.
  destruct (storeKey reply "pin2KeyBox" _ _ _) as [o1|] eqn:Hs1; simpl.
  - destruct (storeKey reply "recovery2KeyBox" _ _ _) as [o2|] eqn:Hs2;
      simpl; [done|].
    intros [= ->]. apply storeKey_throw in Hs2 as [? ?]. eauto.
  - intros [= ->]. apply storeKey_throw in Hs1 as [? ?]. eauto.
Qed.

Lemma mapReplyChildren_throw `{Env} recur stashChildren loginKey l index e :
  mapReplyChildren recur stashChildren loginKey l index = Throw e →
  e = KeyIntegrity
  ∨ (∃ box, decrypt box loginKey = Throw e)
  ∨ ∃ child childStash childKey,
      child ∈ l ∧ recur childStash childKey child = Throw e.
Proof.
  revert index. induction l as [|c l IH]; intros index; simpl; [done|].
  destruct (truthy _); simpl; [|intros [= <-]; by left].
  destruct (decrypt _ _) as [childKey|] eqn:Hkey; simpl;
    [|intros [= ->]; right; left; eauto].
  destruct (recur _ childKey c) eqn:Hrec; simpl.
  - destruct (mapReplyChildren _ _ _ l _) eqn:Hl; simpl; [done|].
    intros [= ->]. destruct (IH _ Hl) as [?|[?|(c' & s' & k' & Hin & Hc')]];
      [by left|right; by left|].
    right; right. exists c', s', k'. split; [by apply elem_of_cons; right|done].
  - intros [= ->]. right; right. eexists _, _, _.
    split; [by apply elem_of_cons; left|done].
Qed.

Lemma applyLoginReplyInner_errors `{Env} stash loginKey reply e :
  applyLoginReplyInner stash loginKey reply = Throw e → reconcileError e.
Proof.
  revert stash loginKey.
  induction reply as [f|f cs IH] using node_tree_ind; intros stash loginKey;
    rewrite applyLoginReplyInner_eq;
    (destruct (replyFields _ _ _) as [fo|] eqn:Hfo; simpl;
     [|intros [= ->]; apply replyFields_throw in Hfo as [_ [box Hbox]];
       right; right; eauto]);
    (destruct (_ <? _)%nat; [intros [= <-]; by left|]); [done|].
  destruct (mapReplyChildren _ _ _ cs _) eqn:Hcs; simpl; [done|].
  intros [= ->].
  apply mapReplyChildren_throw in Hcs
    as [->|[[box Hbox]|(c & s & k & Hin & Hc)]].
  - right; by left.
  - right; right; eauto.
  - rewrite Forall_forall in IH. by eapply IH.
Qed.

Lemma mapReplyChildren_reaches `{Env} recur stashChildren loginKey l index i
    stashChild replyChild :
  l !! i = Some replyChild →
  stashChildren !! (index + i)%nat = Some stashChild →
  (∀ childKey, ∃ e, recur stashChild childKey replyChild = Throw e) →
  ∃ e, mapReplyChildren recur stashChildren loginKey l index = Throw e.
Proof.
  intros Hl Hs Hrec. revert index i Hl Hs.
  induction l as [|c l IH]; intros index i Hl Hs; [done|]. simpl.
  destruct (truthy _); simpl; [|by eexists].
  destruct (decrypt _ _) as [childKey|]; simpl; [|by eexists].
  destruct i as [|i]; simpl in Hl.
  - injection Hl as ->. rewrite Nat.add_0_r in Hs. rewrite Hs.
    destruct (Hrec childKey) as [e ->]. by eexists.
  - destruct (recur _ childKey c); simpl; [|by eexists].
    rewrite <- Nat.add_succ_comm in Hs.
    destruct (IH (S index) i Hl Hs) as [e ->]. by eexists.
Qed.

Lemma applyLoginReplyInner_lost `{Env} stash loginKey reply :
  lostChildren stash reply →
  ∃ e, applyLoginReplyInner stash loginKey reply = Throw e.
Proof.
  intros Hlost. revert loginKey.
  induction Hlost as [stash reply Hlen|stash reply i sc rc Hs Hr _ IH];
    intros loginKey; rewrite applyLoginReplyInner_eq;
    (destruct (replyFields _ _ _) as [fo|]; simpl; [|by eexists]).
  - apply Nat.ltb_lt in Hlen. rewrite Hlen. by eexists.
  - destruct (_ <? _)%nat; [by eexists|].
    destruct reply as [f [l|]]; simpl in *; [|done].
    destruct (mapReplyChildren_reaches
                (λ childStash childKey child,
                   applyLoginReplyInner childStash childKey child)
                (childList stash) loginKey l 0 i sc rc Hr Hs IH) as [e ->].
    by eexists.
Qed.

Lemma replyDecrypts_eq `{Env} loginKey reply :
  replyDecrypts loginKey reply
  = boxOpens reply "pin2KeyBox" loginKey
    && boxOpens reply "recovery2KeyBox" loginKey
    && match children reply with
       | Some cs =>
           forallb (λ child,
                      truthy (prop child "parentBox")
                      && match decrypt (prop child "parentBox") loginKey with
                         | Ok childKey => replyDecrypts childKey child
                         | Throw _ => false
                         end) cs
       | None => true
       end.
Proof. by destruct reply. Qed.

Lemma applyLoginReplyInner_decrypts `{Env} stash loginKey reply e :
  replyDecrypts loginKey reply = true →
  applyLoginReplyInner stash loginKey reply = Throw e →
  e = ServerLostChildren.
Proof.
  revert stash loginKey.
  induction reply as [f|f cs IH] using node_tree_ind; intros stash loginKey;
    rewrite replyDecrypts_eq, applyLoginReplyInner_eq, !andb_true_iff;
    intros [[Hpin Hrec] Hcs];
    (destruct (replyFields _ _ _) as [fo|] eqn:Hfo; simpl;
     [|apply replyFields_throw in Hfo as [[?|?] _]; congruence]);
    (destruct (_ <? _)%nat; [by intros [= <-]|]); [done|].
  simpl in Hcs.
  destruct (mapReplyChildren _ _ _ cs _) eqn:Hl; simpl; [done|].
  intros [= ->]. revert Hl. generalize 0%nat as index.
  clear Hfo. induction IH as [|c cs Hc _ IHcs]; intros index; simpl in *;
    [done|].
  apply andb_true_iff in Hcs as [Hc' Hcs].
  apply andb_true_iff in Hc' as [-> Hkey]. simpl.
  destruct (decrypt _ _) as [childKey|]; [|done]. simpl.
  destruct (applyLoginReplyInner _ childKey c) eqn:Hrun; simpl;
    [|intros [= <-]; by eapply Hc].
  destruct (mapReplyChildren _ _ _ cs _) eqn:Hl; simpl; [done|].
  intros [= <-]. by eapply IHcs.
Qed.

(** ** The reconciler over a store of objects *)

Section keeps.
Import Heap.
Context (h0 : heap).

Lemma keeps_ret {A : Type} (a : A) (Q : A → Prop) : Q a → keeps h0 (mret a) Q.
Proof. intros HQ h Hh. split; [done|]. by intros ? [= <-]. Qed.

Lemma keeps_bind {A B : Type} (m : run A) (f : A → run B) Q R :
  keeps h0 m Q → (∀ a, Q a → keeps h0 (f a) R) → keeps h0 (m ≫= f) R.
Proof.
  intros Hm Hf h Hh. destruct (Hm h Hh) as [Hh' HQ].
  unfold mbind, run_bind. destruct (m h) as [[a|e] h']; simpl in *.
  - by apply Hf; [apply HQ|].
  - done.
Qed.

Lemma keeps_weaken {A : Type} (m : run A) (Q R : A → Prop) :
  keeps h0 m Q → (∀ a, Q a → R a) → keeps h0 m R.
Proof. intros Hm HQR h Hh. destruct (Hm h Hh). naive_solver. Qed.

Lemma keeps_fail {A : Type} e (Q : A → Prop) : keeps h0 (fail e) Q.
Proof. by intros h Hh. Qed.

Lemma keeps_liftR {A : Type} (r : result A) : keeps h0 (liftR r) (λ _, True).
Proof. by intros h Hh. Qed.

Lemma keeps_alloc c : keeps h0 (alloc c) (λ l, l ∉ dom h0).
Proof.
  intros h Hh. unfold alloc; simpl.
  assert (fresh (dom h) ∉ dom h0) as Hfresh.
  { intros Hin. apply (is_fresh (dom h)). by apply (subseteq_dom h0 h). }
  split; [|by intros ? [= <-]].
  apply insert_subseteq_r; [|done]. by apply not_elem_of_dom.
Qed.

Lemma keeps_readProp o k : keeps h0 (readProp o k) (λ _, True).
Proof.
  intros h Hh. unfold readProp, typeError, fail.
  by repeat case_match.
Qed.

Lemma keeps_readArray a : keeps h0 (readArray a) (λ _, True).
Proof.
  intros h Hh. unfold readArray, typeError, fail. by repeat case_match.
Qed.

Lemma keeps_readObject o : keeps h0 (readObject o) (λ _, True).
Proof. intros h Hh. unfold readObject. by repeat case_match. Qed.

Lemma keeps_writeProp o k v :
  o ∉ dom h0 → keeps h0 (writeProp o k v) (λ _, True).
Proof.
  intros Ho h Hh. unfold writeProp, typeError, fail.
  repeat case_match; try done. split; [|done]. simpl.
  apply insert_subseteq_r; [|done]. by apply not_elem_of_dom.
Qed.

Lemma keeps_forEach {A : Type} (f : A → run unit) l :
  (∀ x, keeps h0 (f x) (λ _, True)) → keeps h0 (forEach f l) (λ _, True).
Proof.
  intros Hf. induction l as [|x l IH]; simpl.
  - by apply keeps_ret.
  - eapply keeps_bind; [apply Hf|]. by intros.
Qed.

Lemma keeps_mapRun {A B : Type} (f : A → run B) l :
  (∀ x, x ∈ l → keeps h0 (f x) (λ _, True)) →
  keeps h0 (mapRun f l) (λ _, True).
Proof.
  induction l as [|x l IH]; intros Hf; simpl.
  - by apply keeps_ret.
  - eapply keeps_bind; [apply Hf; by left|]. intros y _.
    eapply keeps_bind; [apply IH; intros; apply Hf; by right|]. intros ys _.
    by apply keeps_ret.
Qed.

Lemma keeps_filterObject source keys :
  keeps h0 (filterObject source keys) (λ out, out ∉ dom h0).
Proof.
  unfold filterObject. eapply keeps_bind; [apply keeps_alloc|].
  intros out Hout. simpl.
  eapply keeps_bind.
  - apply keeps_forEach. intros key. destruct (source !! key).
    + by apply keeps_writeProp.
    + by apply keeps_ret.
  - intros _ _. by apply keeps_ret.
Qed.

Lemma keeps_preserve stash k out :
  out ∉ dom h0 → keeps h0 (preserve stash k out) (λ _, True).
Proof.
  intros Hout. unfold preserve. eapply keeps_bind; [apply keeps_readProp|].
  intros v _. destruct (notNullS v); [by apply keeps_writeProp|by apply keeps_ret].
Qed.

Lemma keeps_storeKey `{Env} reply box k loginKey out :
  out ∉ dom h0 → keeps h0 (storeKey reply box k loginKey out) (λ _, True).
Proof.
  intros Hout. unfold storeKey. destruct (notNull _); [|by apply keeps_ret].
  eapply keeps_bind; [apply keeps_liftR|]. intros key _.
  by apply keeps_writeProp.
Qed.

Lemma keeps_minimalStash child : keeps h0 (minimalStash child) (λ _, True).
Proof.
  unfold minimalStash. eapply keeps_bind; [apply keeps_alloc|].
  intros o _. by apply keeps_ret.
Qed.

Lemma keeps_mapReplyChildren `{Env} recur stashChildren loginKey l index :
  (∀ child, child ∈ l →
     ∀ s k, keeps h0 (recur s k child) (λ _, True)) →
  keeps h0 (mapReplyChildren recur stashChildren loginKey l index) (λ _, True).
Proof.
  revert index. induction l as [|child l IH]; intros index Hrecur; simpl.
  - by apply keeps_ret.
  - destruct (negb _); [apply keeps_fail|].
    eapply keeps_bind; [apply keeps_liftR|]. intros childKey _.
    eapply keeps_bind.
    { instantiate (1 := λ _, True).
      destruct (stashChildren !! index) as [s|];
        [destruct (notNullS s); [by apply keeps_ret|]|];
        apply keeps_minimalStash. }
    intros childStash _.
    eapply keeps_bind; [apply Hrecur; by left|]. intros c _.
    eapply keeps_bind; [apply IH; intros; apply Hrecur; by right|].
    intros cs _. by apply keeps_ret.
Qed.

Lemma keeps_replyFields `{Env} stash loginKey reply :
  keeps h0 (replyFields stash loginKey reply) (λ out, out ∉ dom h0).
Proof.
  unfold replyFields.
  eapply keeps_bind; [apply keeps_filterObject|]. intros out Hout.
  (eapply keeps_bind; [by apply keeps_preserve|]); intros _ _.
  (eapply keeps_bind; [by apply keeps_preserve|]); intros _ _.
  (eapply keeps_bind; [by apply keeps_preserve|]); intros _ _.
  (eapply keeps_bind; [by apply keeps_storeKey|]); intros _ _.
  (eapply keeps_bind; [by apply keeps_storeKey|]); intros _ _.
  (eapply keeps_bind; [by apply keeps_writeProp|]); intros _ _.
  by apply keeps_ret.
Qed.

Lemma keeps_readChildren stash : keeps h0 (readChildren stash) (λ _, True).
Proof.
  unfold readChildren. eapply keeps_bind; [apply keeps_readProp|].
  intros sc _. destruct (notNullS sc); [apply keeps_readArray|by apply keeps_ret].
Qed.

Lemma applyLoginReplyInner_unfold `{Env} stash loginKey loginReply :
  applyLoginReplyInner stash loginKey loginReply
  = (out ← replyFields stash loginKey loginReply;
     stashChildren ← readChildren stash;
     if (length (childList loginReply) <? length stashChildren)%nat
     then fail ServerLostChildren
     else
       cs ← match children loginReply with
            | Some l =>
                mapReplyChildren
                  (λ childStash childKey child,
                     applyLoginReplyInner childStash childKey child)
                  stashChildren loginKey l 0%nat
            | None => mret []
            end;
       array ← alloc (Array cs);
       writeProp out "children" (Ref array);;
       mret out).
Proof. by destruct loginReply. Qed.

Lemma keeps_applyLoginReplyInner `{Env} stash loginKey reply :
  keeps h0 (applyLoginReplyInner stash loginKey reply) (λ _, True).
Proof.
  revert stash loginKey.
  induction reply as [f|f cs IH] using node_tree_ind; intros stash loginKey;
    rewrite applyLoginReplyInner_unfold;
    (eapply keeps_bind; [apply keeps_replyFields|]); intros out Hout;
    (eapply keeps_bind; [apply keeps_readChildren|]); intros stashChildren _;
    (destruct (_ <? _)%nat; [apply keeps_fail|]).
  - eapply keeps_bind; [by apply (keeps_ret _ (λ _, True))|]. intros cs _.
    eapply keeps_bind; [apply keeps_alloc|]. intros array _.
    eapply keeps_bind; [by apply keeps_writeProp|]. intros _ _.
    by apply keeps_ret.
  - eapply keeps_bind.
    { apply keeps_mapReplyChildren. intros child Hchild s k.
      rewrite Forall_forall in IH. by apply IH. }
    intros cs' _.
    eapply keeps_bind; [apply keeps_alloc|]. intros array _.
    eapply keeps_bind; [by apply keeps_writeProp|]. intros _ _.
    by apply keeps_ret.
Qed.

Lemma keeps_cloneNode n cs : keeps h0 (cloneNode n cs) (λ _, True).
Proof.
  unfold cloneNode. eapply keeps_bind; [apply keeps_readObject|].
  intros props _. eapply keeps_weaken; [apply keeps_alloc|done].
Qed.

Lemma keeps_updateTree depth n predicate update clone :
  (∀ s, keeps h0 (predicate s) (λ _, True)) →
  (∀ s, keeps h0 (update s) (λ _, True)) →
  (∀ s cs, keeps h0 (clone s cs) (λ _, True)) →
  keeps h0 (Heap.updateTree depth n predicate update clone) (λ _, True).
Proof.
  intros Hp Hu Hc. revert n.
  induction depth as [|depth IH]; intros n; simpl; [apply keeps_fail|].
  eapply keeps_bind; [apply Hp|]. intros [] _; [apply Hu|].
  eapply keeps_bind; [apply keeps_readChildren|]. intros elems _.
  eapply keeps_bind.
  { apply keeps_mapRun. intros child _.
    eapply keeps_bind; [apply IH|]. intros l _. by apply keeps_ret. }
  intros cs _. eapply keeps_bind; [apply keeps_alloc|]. intros array _.
  apply Hc.
Qed.

Lemma keeps_applyLoginReply `{Env} depth stashTree loginKey reply :
  keeps h0 (Heap.applyLoginReply depth stashTree loginKey reply) (λ _, True).
Proof.
  unfold Heap.applyLoginReply. apply keeps_updateTree.
  - intros s. eapply keeps_bind; [apply keeps_readProp|]. intros a _.
    by apply keeps_ret.
  - intros s. apply keeps_applyLoginReplyInner.
  - apply keeps_cloneNode.
Qed.

End keeps.

(** ** The store run against the pure reconciler

    On a stash tree laid out in the store, the store version of the
    reconciler ends as the pure one does: it returns when the pure one
    returns, and fails with the same error when the pure one fails. *)

Section refinement.
Import Heap.

Lemma follows_ret {A : Type} (I : heap → Prop) (a : A) (Q : A → Prop) :
  Q a → follows I (mret a) None Q.
Proof. intros HQ h Hh. split; [done|]. split; [done|]. by intros ? [= <-]. Qed.

Lemma follows_bind {A B : Type} (I : heap → Prop) (m : run A) (f : A → run B)
    st Q R :
  follows I m None Q → (∀ a, Q a → follows I (f a) st R) →
  follows I (m ≫= f) st R.
Proof.
  intros Hm Hf h Hh. destruct (Hm h Hh) as (HI & Hst & HQ).
  unfold mbind, run_bind. destruct (m h) as [[a|e] h']; simpl in *; [|done].
  by apply Hf; [apply HQ|].
Qed.

Lemma follows_bind_throw {A B : Type} (I : heap → Prop) (m : run A)
    (f : A → run B) e Q R :
  follows I m (Some e) Q → follows I (m ≫= f) (Some e) R.
Proof.
  intros Hm h Hh. destruct (Hm h Hh) as (HI & Hst & HQ).
  unfold mbind, run_bind. by destruct (m h) as [[a|e'] h']; simpl in *.
Qed.

Lemma follows_liftR {A : Type} (I : heap → Prop) (r : result A) :
  follows I (liftR r) (status r) (λ a, r = Ok a).
Proof. intros h Hh. by repeat split. Qed.

Lemma follows_writeProp h0 out k v :
  out ∉ dom h0 →
  follows (building h0 out) (writeProp out k v) None (λ _, True).
Proof.
  intros Hout h [Hh [props Hprops]]. unfold writeProp. rewrite Hprops. simpl.
  split; [|done]. split.
  - apply insert_subseteq_r; [by apply not_elem_of_dom|done].
  - eexists. by rewrite lookup_insert_eq.
Qed.

Lemma follows_readProp (I : heap → Prop) l k :
  follows I (readProp (Ref l) k) None (λ _, True).
Proof. intros h Hh. unfold readProp. by repeat case_match. Qed.

Lemma follows_forEach_ok {A : Type} (I : heap → Prop) (f : A → run unit) l :
  (∀ x, follows I (f x) None (λ _, True)) →
  follows I (forEach f l) None (λ _, True).
Proof.
  intros Hf. induction l as [|x l IH]; simpl; [by apply follows_ret|].
  eapply follows_bind; [apply Hf|]. by intros.
Qed.

Lemma filterObject_run source keys h :
  ∃ out h',
    filterObject source keys h = (Ok out, h')
    ∧ (out ∉ dom h) ∧ building h out h'.
Proof.
  unfold filterObject, mbind at 1, run_bind, alloc.
  set (out := fresh (dom h)).
  assert (Hout : out ∉ dom h) by apply is_fresh.
  assert (Hbuild : building h out (<[out := Object ∅]> h)).
  { split; [apply insert_subseteq; by apply not_elem_of_dom|].
    eexists. by rewrite lookup_insert_eq. }
  destruct (follows_forEach_ok (building h out)
              (λ key, match source !! key with
                      | Some v => writeProp out key (Val v)
                      | None => mret ()
                      end) keys) with (h := <[out := Object ∅]> h)
    as (Hb & Hst & _); [|done|].
  { intros key. destruct (source !! key);
      [by apply follows_writeProp|by apply follows_ret]. }
  unfold mbind, run_bind.
  destruct (forEach _ keys _) as [[[]|e] h']; simpl in *; [|done].
  by exists out, h'.
Qed.

Lemma represents_eq h s n :
  represents h s n
  = ∃ l props,
      s = Ref l
      ∧ h !! l = Some (Object props)
      ∧ (∀ k, k ≠ "children" → props !! k = Val <$> (fields n !! k))
      ∧ match children n with
        | None => props !! "children" = None
        | Some cs =>
            ∃ a elems,
              props !! "children" = Some (Ref a)
              ∧ h !! a = Some (Array elems)
              ∧ pairwise (represents h) elems cs
        end.
Proof. by destruct n. Qed.

Lemma pairwise_mono (R R' : slot → node → Prop) es cs :
  Forall (λ c, ∀ e, R e c → R' e c) cs →
  pairwise R es cs → pairwise R' es cs.
Proof.
  intros Hcs. revert es. induction Hcs as [|c cs Hc _ IH]; intros [|e es];
    simpl; try done.
  intros [He Hes]. split; [by apply Hc|by apply IH].
Qed.

Lemma pairwise_length R es cs : pairwise R es cs → length es = length cs.
Proof.
  revert es. induction cs as [|c cs IH]; intros [|e es]; simpl; try done.
  intros [_ Hes]. f_equal. by apply IH.
Qed.

Lemma pairwise_lookup R es cs i :
  pairwise R es cs →
  match es !! i, cs !! i with
  | Some e, Some c => R e c
  | None, None => True
  | _, _ => False
  end.
Proof.
  revert es i. induction cs as [|c cs IH]; intros [|e es] i; simpl; try done.
  intros [He Hes]. destruct i as [|i]; simpl; [done|]. by apply IH.
Qed.

Lemma represents_mono h h' s n :
  h ⊆ h' → represents h s n → represents h' s n.
Proof.
  intros Hh. revert s.
  induction n as [f|f cs IH] using node_tree_ind; intros s;
    rewrite !represents_eq; intros (l & props & -> & Hl & Hprops & Hcs);
    exists l, props; (split; [done|]);
    (split; [by eapply lookup_weaken|]); (split; [done|]); simpl in *;
    [done|].
  destruct Hcs as (a & elems & Ha & Harr & Hpair).
  exists a, elems. split; [done|]. split; [by eapply lookup_weaken|].
  eapply pairwise_mono; [|done]. eapply Forall_impl; [done|].
  intros c Hc e. apply Hc.
Qed.

Lemma represents_ref h s n : represents h s n → ∃ l, s = Ref l.
Proof. rewrite represents_eq. intros (l & _ & -> & _). by exists l. Qed.

Lemma represents_readProp h s n k :
  represents h s n → k ≠ "children" →
  readProp s k h = (Ok (Val (prop n k)), h).
Proof.
  rewrite represents_eq. intros (l & props & -> & Hl & Hprops & _) Hk.
  unfold readProp, prop, get. rewrite Hl, (Hprops k Hk).
  by destruct (fields n !! k).
Qed.

Lemma represents_readChildren h s n :
  represents h s n →
  ∃ elems, readChildren s h = (Ok elems, h)
           ∧ pairwise (represents h) elems (childList n).
Proof.
  rewrite represents_eq. intros (l & props & -> & Hl & _ & Hcs).
  unfold readChildren, mbind, run_bind, readProp, readArray, childList.
  rewrite Hl. destruct (children n) as [cs|]; simpl.
  - destruct Hcs as (a & elems & -> & Harr & Hpair). simpl. rewrite Harr.
    by exists elems.
  - rewrite Hcs. simpl. by exists [].
Qed.
End refinement.

Section store_steps.
Import Heap.

Lemma follows_preserve h0 out l k :
  out ∉ dom h0 →
  follows (building h0 out) (preserve (Ref l) k out) None (λ _, True).
Proof.
  intros Hout. unfold preserve. eapply follows_bind; [apply follows_readProp|].
  intros v _.
  destruct (notNullS v); [by apply follows_writeProp|by apply follows_ret].
Qed.

Lemma follows_storeKey `{Env} h0 out reply box k loginKey :
  out ∉ dom h0 →
  follows (building h0 out) (storeKey reply box k loginKey out)
    (boxStatus reply box loginKey) (λ _, True).
Proof.
  intros Hout. unfold storeKey, boxStatus.
  destruct (notNull _); [|by apply follows_ret].
  destruct (decrypt (prop reply box) loginKey) as [key|e]; simpl.
  - eapply follows_bind; [apply (follows_liftR _ (Ok key))|].
    intros ? _. by apply follows_writeProp.
  - eapply follows_bind_throw. apply (follows_liftR _ (Throw e)).
Qed.

Lemma minimalStash_run h child :
  ∃ l h',
    minimalStash child h = (Ok (Ref l), h')
    ∧ h ⊆ h'
    ∧ represents h' (Ref l)
        (Node {[ "appId" := prop child "appId";
                 "loginId" := prop child "loginId" ]} None).
Proof.
  unfold minimalStash, mbind, run_bind, alloc.
  eexists _, _. split; [done|].
  split; [apply insert_subseteq, not_elem_of_dom, is_fresh|].
  rewrite represents_eq. eexists _, _. split; [done|].
  split; [by rewrite lookup_insert_eq|]. split; [|done].
  intros k Hk. simpl.
  destruct (decide (k = "appId")) as [->|Ha]; [done|].
  rewrite !(lookup_insert_ne _ "appId") by done.
  destruct (decide (k = "loginId")) as [->|Hl]; [done|].
  by rewrite !lookup_singleton_ne.
Qed.
End store_steps.

Lemma storeKey_status `{Env} reply box k loginKey (out : gmap string value) :
  status (storeKey reply box k loginKey out) = boxStatus reply box loginKey.
Proof.
  unfold storeKey, boxStatus. destruct (notNull _); [|done].
  by destruct (decrypt _ _).
Qed.

Lemma replyFields_status `{Env} stash loginKey reply :
  status (replyFields stash loginKey reply)
  = match boxStatus reply "pin2KeyBox" loginKey with
    | Some e => Some e
    | None => boxStatus reply "recovery2KeyBox" loginKey
    end.
Proof.
  unfold replyFields.
  rewrite <- (storeKey_status reply "pin2KeyBox" "pin2Key" loginKey
                (preserve stash "userId"
                   (preserve stash "username"
                      (preserve stash "lastLogin"
                         (filterObject (fields reply) replyAllowlist))))).
  destruct (storeKey reply "pin2KeyBox" _ _ _) as [o1|e1]; simpl; [|done].
  rewrite <- (storeKey_status reply "recovery2KeyBox" "recovery2Key" loginKey o1).
  by destruct (storeKey reply "recovery2KeyBox" _ _ _).
Qed.

(** The store version of [replyFields] ends as the pure one does, and
    returns an object. *)
Lemma replyFields_refines `{Env} h s stash loginKey reply :
  Heap.represents h s stash →
  ∃ r h',
    Heap.replyFields s loginKey reply h = (r, h')
    ∧ h ⊆ h'
    ∧ status r = status (replyFields stash loginKey reply)
    ∧ ∀ out, r = Ok out → ∃ props, h' !! out = Some (Heap.Object props).
Proof.
  intros Hs. destruct (represents_ref _ _ _ Hs) as [l ->].
  rewrite replyFields_status. unfold Heap.replyFields.
  destruct (filterObject_run (fields reply) replyAllowlist h)
    as (out & h1 & Hrun & Hfresh & Hb).
  unfold mbind at 1, Heap.run_bind at 1. rewrite Hrun.
  match goal with
  | |- ∃ r h', ?m h1 = _ ∧ _ =>
      assert (Hrest : Heap.follows (Heap.building h out) m
                        match boxStatus reply "pin2KeyBox" loginKey with
                        | Some e => Some e
                        | None => boxStatus reply "recovery2KeyBox" loginKey
                        end (λ o, o = out))
  end.
  { do 3 (eapply follows_bind; [by apply follows_preserve|intros _ _]).
    pose proof (follows_storeKey h out reply "pin2KeyBox" "pin2Key" loginKey
                  Hfresh) as Hpin.
    pose proof (follows_storeKey h out reply "recovery2KeyBox" "recovery2Key"
                  loginKey Hfresh) as Hrec.
    destruct (boxStatus reply "pin2KeyBox" loginKey);
      [by eapply follows_bind_throw|].
    eapply follows_bind; [done|intros _ _].
    destruct (boxStatus reply "recovery2KeyBox" loginKey);
      [by eapply follows_bind_throw|].
    eapply follows_bind; [done|intros _ _].
    eapply follows_bind; [by apply follows_writeProp|intros _ _].
    by apply follows_ret. }
  destruct (Hrest h1 Hb) as ([Hsub Hobj] & Hst & Hres).
  match goal with |- ∃ r h', ?m h1 = _ ∧ _ => destruct (m h1) as [r h'] end.
  exists r, h'. simpl in *. split; [done|]. split; [done|]. split; [done|].
  intros o Ho. by rewrite (Hres o Ho).
Qed.

Lemma pairwise_represents_mono h h' es cs :
  h ⊆ h' →
  Heap.pairwise (Heap.represents h) es cs →
  Heap.pairwise (Heap.represents h') es cs.
Proof.
  intros Hh. apply pairwise_mono, Forall_forall.
  intros c _ e. by apply represents_mono.
Qed.

Lemma run_bind_eq {A B : Type} (m : Heap.run A) (f : A → Heap.run B) h :
  (m ≫= f) h
  = match m h with
    | (Ok a, h') => f a h'
    | (Throw e, h') => (Throw e, h')
    end.
Proof. done. Qed.

(** The store version of the loop over the reply's children ends as the
    pure one does, when the recursive calls do. *)
Lemma mapReplyChildren_refines `{Env}
    (recurH : Heap.slot → value → node → Heap.run Heap.loc)
    (recur : node → value → node → result node) elems cs loginKey l :
  (∀ s k child h, h ⊆ (recurH s k child h).2) →
  Forall (λ child, ∀ stash s k h,
            Heap.represents h s stash →
            status (recurH s k child h).1 = status (recur stash k child)) l →
  ∀ index h,
    Heap.pairwise (Heap.represents h) elems cs →
    status (Heap.mapReplyChildren recurH elems loginKey l index h).1
    = status (mapReplyChildren recur cs loginKey l index).
Proof.
  intros Hkeeps Hl.
  induction Hl as [|child l Hchild _ IH]; intros index h Hpair; [done|].
  simpl. destruct (negb (truthy _)); [done|].
  rewrite run_bind_eq. unfold Heap.liftR.
  destruct (decrypt (prop child "parentBox") loginKey) as [childKey|e];
    [|done].
  assert (∃ s stash h1,
            match elems !! index with
            | Some s => if Heap.notNullS s then mret s
                        else Heap.minimalStash child
            | None => Heap.minimalStash child
            end h = (Ok s, h1)
            ∧ h ⊆ h1
            ∧ Heap.represents h1 s stash
            ∧ stash = match cs !! index with
                      | Some s => s
                      | None =>
                          Node {[ "appId" := prop child "appId";
                                  "loginId" := prop child "loginId" ]} None
                      end)
    as (s & stash & h1 & Hrun & Hsub & Hrep & Hstash).
  { pose proof (pairwise_lookup _ _ _ index Hpair) as Hi.
    destruct (elems !! index) as [s|], (cs !! index) as [c|]; try done.
    - destruct (represents_ref _ _ _ Hi) as [a ->]. simpl.
      by exists (Heap.Ref a), c, h.
    - destruct (minimalStash_run h child) as (a & h1 & Hrun & Hsub & Hrep).
      by eexists _, _, h1. }
  rewrite run_bind_eq, Hrun. cbn [mbind result_bind]. rewrite <- Hstash.
  pose proof (Hchild stash s childKey h1 Hrep) as Hst.
  pose proof (Hkeeps s childKey child h1) as Hsub'.
  rewrite run_bind_eq.
  destruct (recurH s childKey child h1) as [[c|e] h2],
    (recur stash childKey child) as [c'|e']; try done.
  assert (Hpair' : Heap.pairwise (Heap.represents h2) elems cs).
  { eapply pairwise_represents_mono; [|done]. by etrans. }
  specialize (IH (S index) h2 Hpair').
  rewrite run_bind_eq. cbn [mbind result_bind].
  destruct (Heap.mapReplyChildren recurH elems loginKey l (S index) h2)
    as [[ls|e] h3],
    (mapReplyChildren recur cs loginKey l (S index)) as [cs'|e']; done.
Qed.

Lemma children_written h out cs props :
  h !! out = Some (Heap.Object props) →
  status ((array ← Heap.alloc (Heap.Array cs);
           Heap.writeProp out "children" (Heap.Ref array);;
           mret out) h).1 = None.
Proof.
  intros Hout. rewrite run_bind_eq. unfold Heap.alloc.
  rewrite run_bind_eq. unfold Heap.writeProp.
  rewrite lookup_insert_ne, Hout; [done|].
  intros Heq. apply (is_fresh (dom h)). rewrite Heq. by apply elem_of_dom.
Qed.

Lemma applyLoginReplyInner_step `{Env} reply :
  Forall (λ child, ∀ stash s k h,
            Heap.represents h s stash →
            status (Heap.applyLoginReplyInner s k child h).1
            = status (applyLoginReplyInner stash k child))
    (childList reply) →
  ∀ stash s k h,
    Heap.represents h s stash →
    status (Heap.applyLoginReplyInner s k reply h).1
    = status (applyLoginReplyInner stash k reply).
Proof.
  intros IH stash s k h Hs.
  rewrite applyLoginReplyInner_unfold, applyLoginReplyInner_eq.
  destruct (replyFields_refines h s stash k reply Hs)
    as (r & h1 & Hrun & Hsub & Hst & Hobj).
  rewrite run_bind_eq, Hrun.
  destruct r as [out|e], (replyFields stash k reply) as [fo|e']; try done.
  cbn [mbind result_bind].
  destruct (represents_readChildren h1 s stash) as (elems & Hread & Hpair);
    [by eapply represents_mono|].
  rewrite run_bind_eq, Hread, (pairwise_length _ _ _ Hpair).
  destruct (_ <? _)%nat; [done|].
  destruct (Hobj out eq_refl) as [props Hout].
  unfold childList in IH. destruct (children reply) as [cs|].
  - pose proof (mapReplyChildren_refines
                  (λ childStash childKey child,
                     Heap.applyLoginReplyInner childStash childKey child)
                  (λ childStash childKey child,
                     applyLoginReplyInner childStash childKey child)
                  elems (childList stash) k cs
                  (λ s k child h,
                     proj1 (keeps_applyLoginReplyInner h s k child h
                              (reflexivity h)))
                  IH 0%nat h1 Hpair) as Hloop.
    destruct (keeps_mapReplyChildren h1
                (λ childStash childKey child,
                   Heap.applyLoginReplyInner childStash childKey child)
                elems k cs 0%nat) with (h := h1) as [Hsub' _]; [|done|].
    { intros child _ s' k'. apply keeps_applyLoginReplyInner. }
    rewrite run_bind_eq.
    destruct (Heap.mapReplyChildren _ elems k cs 0%nat h1) as [[ls|e] h2],
      (mapReplyChildren _ (childList stash) k cs 0%nat) as [cs'|e'];
      try done.
    cbn [mbind result_bind]. eapply children_written.
    by eapply lookup_weaken.
  - rewrite run_bind_eq. by eapply children_written.
Qed.

(** The store version of [applyLoginReplyInner] ends as the pure one does,
    on a stash laid out in the store. *)
Lemma applyLoginReplyInner_refines `{Env} reply :
  ∀ stash s k h,
    Heap.represents h s stash →
    status (Heap.applyLoginReplyInner s k reply h).1
    = status (applyLoginReplyInner stash k reply).
Proof.
  induction reply as [f|f cs IH] using node_tree_ind;
    apply applyLoginReplyInner_step; [by constructor|done].
Qed.

Lemma height_children f cs d :
  (height (Node f (Some cs)) < S d)%nat → Forall (λ c, (height c < d)%nat) cs.
Proof.
  simpl. intros Hd. apply Nat.succ_lt_mono in Hd.
  induction cs as [|c cs IH]; simpl in *; [done|].
  constructor; [lia|]. apply IH. lia.
Qed.

(** A store loop over the children ends as the pure loop does, when each
    call does. *)
Lemma mapRun_refines {B B' : Type} (fH : Heap.slot → Heap.run B)
    (f : node → result B') cs :
  (∀ s h, h ⊆ (fH s h).2) →
  Forall (λ c, ∀ s h, Heap.represents h s c →
                      status (fH s h).1 = status (f c)) cs →
  ∀ elems h,
    Heap.pairwise (Heap.represents h) elems cs →
    status (Heap.mapRun fH elems h).1 = status (mapR f cs).
Proof.
  intros Hkeeps Hcs.
  induction Hcs as [|c cs Hc _ IH]; intros [|e elems] h Hpair; try done.
  destruct Hpair as [He Hpair]. simpl. rewrite run_bind_eq.
  pose proof (Hc e h He) as Hst. pose proof (Hkeeps e h) as Hsub.
  destruct (fH e h) as [[y|err] h1], (f c) as [y'|err']; try done.
  simpl in Hsub.
  specialize (IH elems h1 (pairwise_represents_mono _ _ _ _ Hsub Hpair)).
  rewrite run_bind_eq.
  by destruct (Heap.mapRun fH elems h1) as [[ys|err] h2],
    (mapR f cs) as [ys'|err'].
Qed.

Lemma run_bind_ret {A B : Type} (m : Heap.run A) (g : A → B) h :
  ((a ← m; mret (g a)) h).2 = (m h).2
  ∧ status ((a ← m; mret (g a)) h).1 = status (m h).1.
Proof. rewrite run_bind_eq. by destruct (m h) as [[a|e] h']. Qed.

Lemma clone_written cs s h :
  status ((array ← Heap.alloc (Heap.Array cs);
           Heap.cloneNode s (Heap.Ref array)) h).1 = None.
Proof.
  rewrite run_bind_eq. unfold Heap.alloc, Heap.cloneNode.
  rewrite run_bind_eq. unfold Heap.readObject. by repeat case_match.
Qed.

(** The store version of [updateTree] ends as the pure one does, on a tree
    laid out in the store and with enough depth. *)
Lemma updateTree_refines (predicateH : Heap.slot → Heap.run bool)
    (predicate : node → bool) (updateH : Heap.slot → Heap.run Heap.loc)
    (update : node → result node) (clone : node → list node → node) n :
  (∀ s n h, Heap.represents h s n → predicateH s h = (Ok (predicate n), h)) →
  (∀ s n h, Heap.represents h s n →
            status (updateH s h).1 = status (update n)) →
  (∀ h0 s, Heap.keeps h0 (predicateH s) (λ _, True)) →
  (∀ h0 s, Heap.keeps h0 (updateH s) (λ _, True)) →
  ∀ depth s h,
    Heap.represents h s n → (height n < depth)%nat →
    status (Heap.updateTree depth s predicateH updateH Heap.cloneNode h).1
    = status (updateTree n predicate update clone).
Proof.
  intros Hp Hu Hkp Hku.
  assert (Hsub : ∀ depth s h,
            h ⊆ (Heap.updateTree depth s predicateH updateH
                   Heap.cloneNode h).2).
  { intros depth s h.
    by apply (keeps_updateTree h depth s predicateH updateH Heap.cloneNode);
      [..|apply keeps_cloneNode|]. }
  induction n as [f|f cs IH] using node_tree_ind;
    (intros [|depth] s h Hs Hd; [simpl in Hd; lia|]);
    simpl Heap.updateTree; rewrite updateTree_eq;
    rewrite run_bind_eq, (Hp _ _ _ Hs);
    (destruct (predicate _); [by apply Hu|]);
    destruct (represents_readChildren _ _ _ Hs) as (elems & Hread & Hpair);
    rewrite run_bind_eq, Hread; unfold childList in Hpair; simpl in Hpair |- *.
  - destruct elems; [|done]. simpl. rewrite run_bind_eq. simpl.
    apply clone_written.
  - apply height_children in Hd.
    pose proof (mapRun_refines
                  (λ child,
                     l ← Heap.updateTree depth child predicateH updateH
                           Heap.cloneNode;
                     mret (Heap.Ref l))
                  (λ child, updateTree child predicate update clone) cs)
      as Hloop.
    assert (Hsub' : ∀ s' h',
              h' ⊆ ((l ← Heap.updateTree depth s' predicateH updateH
                           Heap.cloneNode;
                     mret (Heap.Ref l)) h').2).
    { intros s' h'. rewrite (proj1 (run_bind_ret _ _ _)). apply Hsub. }
    specialize (Hloop Hsub').
    assert (Hst : status (Heap.mapRun
                            (λ child,
                               l ← Heap.updateTree depth child predicateH
                                     updateH Heap.cloneNode;
                               mret (Heap.Ref l)) elems h).1
                  = status (mapR (λ child,
                                    updateTree child predicate update clone)
                              cs)).
    { apply Hloop; [|done].
      rewrite Forall_forall in IH, Hd. apply Forall_forall.
      intros c Hc s' h' Hs'. rewrite (proj2 (run_bind_ret _ _ _)).
      by apply IH, Hd. }
    rewrite run_bind_eq.
    destruct (Heap.mapRun _ elems h) as [[ls|e] h1],
      (mapR _ cs) as [cs'|e']; try done.
    apply clone_written.
Qed.

(** The store version of [applyLoginReply] ends as the pure one does. *)
Lemma applyLoginReply_refines `{Env} stashTree loginKey reply depth s h :
  Heap.represents h s stashTree → (height stashTree < depth)%nat →
  status (Heap.applyLoginReply depth s loginKey reply h).1
  = status (applyLoginReply stashTree loginKey reply).
Proof.
  intros Hs Hd. unfold Heap.applyLoginReply, applyLoginReply.
  apply updateTree_refines; try done.
  - intros s' n h' Hs'.
    by rewrite run_bind_eq, (represents_readProp _ _ _ _ Hs').
  - intros s' n h' Hs'. by apply applyLoginReplyInner_refines.
  - intros h0 s'. eapply keeps_bind; [apply keeps_readProp|].
    intros a _. by apply keeps_ret.
  - intros h0 s'. apply keeps_applyLoginReplyInner.
Qed.

Lemma store_eq n :
  Heap.store n
  = match children n with
    | Some cs =>
        ls ← Heap.mapRun (λ child, l ← Heap.store child; mret (Heap.Ref l)) cs;
        array ← Heap.alloc (Heap.Array ls);
        Heap.alloc (Heap.Object (<["children" := Heap.Ref array]>
                                   (Heap.Val <$> fields n)))
    | None => Heap.alloc (Heap.Object (Heap.Val <$> fields n))
    end.
Proof. by destruct n. Qed.

Lemma store_children cs :
  Forall (λ c, ∀ h, ∃ l h',
            Heap.store c h = (Ok l, h')
            ∧ h ⊆ h' ∧ Heap.represents h' (Heap.Ref l) c) cs →
  ∀ h, ∃ ls h',
    Heap.mapRun (λ child, l ← Heap.store child; mret (Heap.Ref l)) cs h
    = (Ok ls, h')
    ∧ h ⊆ h' ∧ Heap.pairwise (Heap.represents h') ls cs.
Proof.
  induction 1 as [|c cs Hc _ IH]; intros h; [by exists [], h|].
  destruct (Hc h) as (l & h1 & Hrun & Hsub & Hrep).
  destruct (IH h1) as (ls & h2 & Hrun' & Hsub' & Hpair).
  exists (Heap.Ref l :: ls), h2. simpl.
  rewrite !run_bind_eq, Hrun. simpl. rewrite run_bind_eq, Hrun'.
  split; [done|]. split; [by etrans|].
  split; [by eapply represents_mono|done].
Qed.

(** A tree laid out by [store] is represented in the resulting store. *)
Lemma store_represents n :
  wellFormed n = true →
  ∀ h, ∃ l h',
    Heap.store n h = (Ok l, h')
    ∧ h ⊆ h' ∧ Heap.represents h' (Heap.Ref l) n.
Proof.
  induction n as [f|f cs IH] using node_tree_ind; intros Hwf h;
    rewrite store_eq; simpl in Hwf |- *;
    apply andb_prop in Hwf as [Hf Hcs]; apply bool_decide_eq_true in Hf.
  - eexists _, _. unfold Heap.alloc. split; [done|].
    split; [apply insert_subseteq, not_elem_of_dom, is_fresh|].
    eexists _, _. split; [done|]. split; [by rewrite lookup_insert_eq|].
    split; [intros k _; by rewrite lookup_fmap|].
    by rewrite lookup_fmap, Hf.
  - destruct (store_children cs) with (h := h)
      as (ls & h1 & Hrun & Hsub & Hpair).
    { rewrite forallb_forall in Hcs. rewrite Forall_forall in IH |- *.
      intros c Hc. apply IH; [done|]. apply Hcs. by apply list_elem_of_In. }
    rewrite run_bind_eq, Hrun, run_bind_eq. unfold Heap.alloc.
    set (a := fresh (dom h1)). set (h2 := <[a := Heap.Array ls]> h1).
    set (l := fresh (dom h2)).
    assert (Ha : h1 ⊆ h2) by apply insert_subseteq, not_elem_of_dom, is_fresh.
    assert (Hl : h2 ⊆ <[l := Heap.Object
                              (<["children" := Heap.Ref a]>
                                 (Heap.Val <$> f))]> h2)
      by apply insert_subseteq, not_elem_of_dom, is_fresh.
    eexists _, _. split; [done|]. split; [by do 2 (etrans; [|done])|].
    eexists _, _. split; [done|]. split; [by rewrite lookup_insert_eq|].
    split; [intros k Hk; by rewrite lookup_insert_ne, lookup_fmap|].
    exists a, ls. split; [by rewrite lookup_insert_eq|].
    split.
    + eapply lookup_weaken; [|done]. unfold h2. by rewrite lookup_insert_eq.
    + fold Heap.represents.
      eapply pairwise_represents_mono; [|done]. by etrans.
Qed.

(** C2 as stated fails: the app login of [deepStash] has two children and
    the app login of [bareReply] none, yet the call fails with the key
    integrity error, raised for the missing [parentBox] before the child
    lists are compared. *)
Lemma lost_children_other_error :
  lostChildren deepStash bareReply
  ∧ applyLoginReply (H := quietEnv) deepStash rootKey bareReply
    = Throw KeyIntegrity.
Proof.
  split; [|by vm_compute].
  eapply (lost_below _ _ 0); [done..|].
  apply lost_here. simpl. lia.
Qed.

Lemma applyLoginReply_lost_fails `{Env} stashTree loginKey reply stash :
  searchTree stashTree
    (λ s, strict_eq (prop s "appId") (prop reply "appId")) = Some stash →
  lostChildren stash reply →
  ∃ e, applyLoginReply stashTree loginKey reply = Throw e
       ∧ reconcileError e
       ∧ (replyDecrypts loginKey reply = true → e = ServerLostChildren).
Proof.
  intros Hfind Hlost.
  destruct (applyLoginReplyInner_lost stash loginKey reply Hlost) as [e He].
  exists e. split; [|split].
  - unfold applyLoginReply. by eapply updateTree_match_throws.
  - by eapply applyLoginReplyInner_errors.
  - intros Hd. by eapply applyLoginReplyInner_decrypts.
Qed.

Lemma status_throw {A : Type} (r : result A) e :
  status r = Some e → r = Throw e.
Proof. destruct r; [done|]. by intros [= ->]. Qed.

(** C2 (amended).  When, at some depth under the stash node the reply is
    matched with, a stash node has more children than the reply node it is
    paired with, [applyLoginReply] fails.  The error is the first one met in
    the order of the traversal: the lost-children error, the key integrity
    error of a reply child without [parentBox], or a failure of [decrypt];
    it is the lost-children error whenever every box of the reply opens.
    Run on a store where [root] holds the stash tree, the call fails with
    that same error.  And the call never writes to an object it was given:
    run on any store from any root, failing or not, it ends in a store where
    every object of the initial store is as it was. *)
Theorem applyLoginReply_lost_children `{Env} (stashTree : node)
    (loginKey : value) (reply stash : node) :
  searchTree stashTree
    (λ s, strict_eq (prop s "appId") (prop reply "appId")) = Some stash →
  lostChildren stash reply →
  (∃ e, applyLoginReply stashTree loginKey reply = Throw e
        ∧ reconcileError e
        ∧ (replyDecrypts loginKey reply = true → e = ServerLostChildren)
        ∧ (∀ depth root h,
             Heap.represents h root stashTree →
             (height stashTree < depth)%nat →
             (Heap.applyLoginReply depth root loginKey reply h).1 = Throw e))
  ∧ (∀ depth root h,
       h ⊆ (Heap.applyLoginReply depth root loginKey reply h).2).
Proof.
  intros Hfind Hlost. split.
  - destruct (applyLoginReply_lost_fails stashTree loginKey reply stash
                Hfind Hlost) as (e & He & Herr & Hd).
    exists e. split; [done|]. split; [done|]. split; [done|].
    intros depth root h Hroot Hdepth. apply status_throw.
    rewrite (applyLoginReply_refines stashTree loginKey reply depth root h)
      by done.
    by rewrite He.
  - intros depth root h. by apply (keeps_applyLoginReply h).
Qed.

Lemma applyLoginReply_lost_children_witness :
  applyLoginReply (H := quietEnv) twoAppStash rootKey aliceReply
  = Throw ServerLostChildren
  ∧ (∃ root h h',
       Heap.store twoAppStash ∅ = (Ok root, h)
       ∧ Heap.applyLoginReply (H := quietEnv) 5 (Heap.Ref root) rootKey
           aliceReply h
         = (Throw ServerLostChildren, h')
       ∧ h ⊆ h'
       ∧ Heap.load 5 h' (Heap.Ref root) = Some twoAppStash).
Proof.
  destruct (applyLoginReply_lost_children (H := quietEnv)
              twoAppStash rootKey aliceReply twoAppStash)
    as [(e & -> & _ & He & Hrun) Hkeeps].
  - by vm_compute.
  - apply lost_here. simpl. lia.
  - rewrite (He eq_refl) in Hrun |- *. split; [done|].
    destruct (store_represents twoAppStash eq_refl ∅)
      as (root & h & Hstore & _ & Hroot).
    specialize (Hrun 5%nat (Heap.Ref root) h Hroot).
    specialize (Hkeeps 5%nat (Heap.Ref root) h).
    destruct (Heap.applyLoginReply (H := quietEnv) 5 (Heap.Ref root) rootKey
                aliceReply h) as [r h'] eqn:Hcall.
    exists root, h, h'. simpl in Hrun, Hkeeps. split; [done|].
    split; [rewrite Hcall, Hrun by (simpl; lia); done|]. split; [done|].
    vm_compute in Hstore. injection Hstore as <- <-.
    vm_compute in Hcall. injection Hcall as _ <-. by vm_compute.
Defined.

(** ** Login tree builder *)

Lemma optional_insert_get {A : Type} (c : bool) (r : result A)
    (wrap : A → value) (k k0 : string) (login login' : gmap string value) :
  (if c then x ← r; Ok (<[k := wrap x]> login) else Ok login) = Ok login' →
  k ≠ k0 → get login' k0 = get login k0.
Proof.
  intros Hs Hne. destruct c.
  - destruct r; simpl in Hs; [|done]. injection Hs as <-.
    unfold get. by rewrite lookup_insert_ne.
  - by injection Hs as <-.
Qed.


Lemma makeLoginTreeInner_eq `{Env} stash loginKey :
  makeLoginTreeInner stash loginKey
  = (login ← loginFields stash loginKey;
     cs ← match children stash with
          | Some stashChildren =>
              mapStashChildren
                (λ child childKey, makeLoginTreeInner child childKey)
                loginKey stashChildren
          | None => Ok []
          end;
     Ok (Node login (Some cs))).
Proof. by destruct stash. Qed.



Lemma applyLoginReplyInner_copies `{Env} stash loginKey reply out k :
  applyLoginReplyInner stash loginKey reply = Ok out →
  k ∈ replyAllowlist → k ≠ "userId" →
  prop out k = prop reply k.
Proof.
  intros Hrun Hk Huser. unfold prop, get.
  rewrite (applyLoginReplyInner_lookup _ _ _ _ _ Hrun)
    by (by apply allowlist_not_client).
  by rewrite decide_True.
Qed.

Lemma strict_eq_refl_r a b : strict_eq a b = true → strict_eq b b = true.
Proof.
  destruct a, b; simpl; try done.
  - intros _. apply Bool.eqb_reflx.
  - destruct n, n0; simpl; try done; intros _;
      [apply Bool.eqb_reflx|by apply bool_decide_eq_true].
  - intros _. apply String.eqb_refl.
Qed.





(** ** Server authentication *)

(** C5.  [makeAuthJson] answers with [{ loginId, loginAuth, otp }] whenever
    [loginAuth] is present, whether or not [passwordAuth] is too; with
    [{ userId, passwordAuth, otp }] when only [passwordAuth] is present; and
    throws the no-authentication error when neither is.  The [otp] of the
    request is [totp(otpKey)] when the login has an [otpKey], and reads as
    [undefined] (the property a serialized request leaves out) when it has
    none. *)
Theorem makeAuthJson_spec `{Env} (login : node) :
  (notNull (prop login "loginAuth") = true →
   makeAuthJson login
   = Ok {[ "loginId" := prop login "loginId";
           "loginAuth" := VStr (base64_stringify (prop login "loginAuth"));
           "otp" := getLoginOtp login ]})
  ∧ (notNull (prop login "loginAuth") = false →
     notNull (prop login "passwordAuth") = true →
     makeAuthJson login
     = Ok {[ "userId" := prop login "userId";
             "passwordAuth" := VStr (base64_stringify (prop login "passwordAuth"));
             "otp" := getLoginOtp login ]})
  ∧ (notNull (prop login "loginAuth") = false →
     notNull (prop login "passwordAuth") = false →
     makeAuthJson login = Throw NoAuth)
  ∧ (notNull (prop login "otpKey") = true →
     getLoginOtp login = totp (prop login "otpKey"))
  ∧ (notNull (prop login "otpKey") = false →
     getLoginOtp login = VUndefined)
  ∧ (∀ request, makeAuthJson login = Ok request →
                get request "otp" = getLoginOtp login).
Proof.
  unfold makeAuthJson, getLoginOtp. repeat split.
  - by intros ->.
  - by intros -> ->.
  - by intros -> ->.
  - by intros ->.
  - by intros ->.
  - intros request.
    destruct (notNull (prop login "loginAuth"));
      [|destruct (notNull (prop login "passwordAuth")); [|done]];
      intros [= <-]; by vm_compute.
Qed.

Lemma makeAuthJson_spec_witness :
  makeAuthJson (H := quietEnv) bothAuthLogin
  = Ok {[ "loginId" := VStr rootId; "loginAuth" := VStr "bG9naW4=";
          "otp" := VArr [VStr "totp"; VStr "ABCDEFGHIJKLMNOP"] ]}
  ∧ makeAuthJson (H := quietEnv) passwordLogin
    = Ok {[ "userId" := VStr "user"; "passwordAuth" := VStr "cGFzcw==";
            "otp" := VUndefined ]}
  ∧ makeAuthJson (H := quietEnv) noAuthLogin = Throw NoAuth
  ∧ getLoginOtp (H := quietEnv) bothAuthLogin
    = VArr [VStr "totp"; VStr "ABCDEFGHIJKLMNOP"]
  ∧ getLoginOtp (H := quietEnv) noAuthLogin = VUndefined.
Proof.
  destruct (makeAuthJson_spec (H := quietEnv) bothAuthLogin)
    as (Hlogin & _ & _ & Hotp & _).
  destruct (makeAuthJson_spec (H := quietEnv) passwordLogin)
    as (_ & Hpassword & _).
  destruct (makeAuthJson_spec (H := quietEnv) noAuthLogin)
    as (_ & _ & Hnone & _ & Hnootp & _).
  split; [|split; [|split; [|split]]].
  - rewrite Hlogin; by vm_compute.
  - rewrite Hpassword; by vm_compute.
  - by apply Hnone.
  - by rewrite Hotp.
  - by apply Hnootp.
Defined.

(** ** Stash store *)

Lemma strict_eq_eq a b : strict_eq a b = true → a = b.
Proof.
  destruct a, b; simpl; try done.
  - by intros ->%Bool.eqb_prop.
  - destruct n, n0; simpl; try done.
    + by intros ->%Bool.eqb_prop.
    + by intros ->%bool_decide_eq_true.
  - by intros ->%String.eqb_eq.
Qed.

Lemma saveStash_run `{Env} stashTree w res w' :
  saveStash stashTree w = (res, w') →
  (w' = w ∧ ∃ e, res = Throw e)
  ∨ ∃ loginId,
      savable stashTree loginId
      ∧ res = Ok ()
      ∧ w' = {| disk := <[stashPath loginId := JSON_stringify stashTree]> (disk w);
                trace := trace w ++ [SetText (stashPath loginId)
                                       (JSON_stringify stashTree);
                                     Dispatch (LOGIN_STASH_SAVED stashTree)] |}.
Proof.
  unfold saveStash.
  destruct (strict_eq (prop stashTree "appId") (VStr "")) eqn:HappId;
    simpl; [|intros [= <- <-]; left; eauto].
  destruct (notNull (prop stashTree "loginId")) eqn:HloginId;
    simpl; [|intros [= <- <-]; left; eauto].
  destruct (notNull (prop stashTree "username")) eqn:Husername;
    simpl; [|intros [= <- <-]; left; eauto].
  unfold mbind, io_bind, lift.
  destruct (base64_parse (prop stashTree "loginId")) as [loginId|] eqn:Hparse;
    [|intros [= <- <-]; left; eauto].
  destruct (strict_eq (propLength loginId) (VNum (num 32))) eqn:Hlen;
    simpl; [|intros [= <- <-]; left; eauto].
  unfold setText, dispatch, record.
  destruct (setTextError _ _); [intros [= <- <-]; left; eauto|]. simpl.
  intros [= <- <-]. right. exists loginId. split; [|split; [done|]].
  - unfold savable.
    by rewrite (strict_eq_eq _ _ HappId), (strict_eq_eq _ _ Hlen).
  - by rewrite <- app_assoc.
Qed.



(** ** Kits *)

Lemma applyKit_missing_login `{Env} loginTree kit w :
  kitTarget loginTree kit = None →
  applyKit loginTree kit w = (Throw MissingLogin, w).
Proof. unfold kitTarget, applyKit. by intros ->. Qed.

Lemma applyKit_missing_username `{Env} loginTree kit w target :
  kitTarget loginTree kit = Some target →
  truthy (prop loginTree "username") = false →
  applyKit loginTree kit w = (Throw KitMissingUsername, w).
Proof. unfold kitTarget, applyKit. by intros -> ->. Qed.


Lemma applyKit_returns `{Env} loginTree kit w tree w' :
  applyKit loginTree kit w = (Ok tree, w') →
  ∃ target stashTree request reply newStashTree loginId,
    kitTarget loginTree kit = Some target
    ∧ getStash (prop loginTree "username") = Ok stashTree
    ∧ kitRequest kit target = Ok request
    ∧ loginFetch (default "POST" (Kit.serverMethod kit)) (Kit.serverPath kit)
        request = Ok reply
    ∧ updateTree loginTree
        (λ login, strict_eq (prop login "loginId") (Kit.loginId kit))
        (applyKitLogin kit) cloneNode = Ok tree
    ∧ updateTree stashTree
        (λ stash, strict_eq (prop stash "loginId") (Kit.loginId kit))
        (applyKitStash kit) cloneNode = Ok newStashTree
    ∧ savable newStashTree loginId
    ∧ disk w' = <[stashPath loginId := JSON_stringify newStashTree]> (disk w)
    ∧ trace w'
      = (trace w ++ [Fetch (default "POST" (Kit.serverMethod kit))
                       (Kit.serverPath kit) request;
                     SetText (stashPath loginId) (JSON_stringify newStashTree);
                     Dispatch (LOGIN_STASH_SAVED newStashTree)])%list.
Proof.
  unfold kitTarget, kitRequest, applyKit.
  destruct (searchTree loginTree _) as [target|]; [|done].
  destruct (truthy _); [|done]. simpl.
  unfold mbind at 1, io_bind, lift.
  destruct (getStash _) as [stashTree|]; [|done].
  unfold mbind at 1.
  destruct (makeAuthJson target) as [request|] eqn:Hreq; [|done].
  unfold mbind at 1, fetch.
  destruct (loginFetch _ _ _) as [reply|] eqn:Hfetch; [|done].
  unfold mbind at 1.
  destruct (updateTree loginTree _ _ _) as [newLoginTree|] eqn:Hlogin; [|done].
  unfold mbind at 1.
  destruct (updateTree stashTree _ _ _) as [newStashTree|] eqn:Hstash; [|done].
  unfold mbind at 1.
  destruct (saveStash newStashTree _) as [r w1] eqn:Hsave.
  apply saveStash_run in Hsave as [[-> [e ->]]|(loginId & Hs & -> & ->)];
    [done|].
  intros [= <- <-].
  exists target, stashTree, (<["data" := Kit.server kit]> request), reply,
    newStashTree, loginId.
  rewrite Hreq. simpl. repeat (split; [done|]). by rewrite <- app_assoc.
Qed.


Lemma syncLogin_missing_username `{Env} loginTree login w :
  truthy (prop loginTree "username") = false →
  syncLogin loginTree login w = (Throw SyncMissingUsername, w).
Proof. unfold syncLogin. by intros ->. Qed.



(** C10 as stated fails for [applyKit]: when the kit's login is not in the
    tree, the error is the missing-login one, whether or not the root has a
    username. *)
Lemma stray_kit_missing_login :
  prop namelessTree "username" = VUndefined
  ∧ applyKit (H := quietEnv) namelessTree strayKit emptyWorld
    = (Throw MissingLogin, emptyWorld).
Proof. split; by vm_compute. Qed.

(** C10 (amended).  On a login tree whose root [username] is undefined or
    empty, [syncLogin] throws its missing-username error and [applyKit]
    throws its own when the kit's login is in the tree (when it is not, the
    missing-login error has been thrown already); in each case nothing has
    been sent to the server, written or dispatched. *)
Theorem missing_username_rejected `{Env} (loginTree login : node)
    (kit : Kit.t) (w : world) :
  prop loginTree "username" = VUndefined ∨ prop loginTree "username" = VStr "" →
  syncLogin loginTree login w = (Throw SyncMissingUsername, w)
  ∧ (∀ target,
       kitTarget loginTree kit = Some target →
       applyKit loginTree kit w = (Throw KitMissingUsername, w))
  ∧ (kitTarget loginTree kit = None →
     applyKit loginTree kit w = (Throw MissingLogin, w)).
Proof.
  intros Hname.
  assert (Hfalsy : truthy (prop loginTree "username") = false)
    by (by destruct Hname as [-> | ->]).
  split; [by apply syncLogin_missing_username|]. split.
  - intros target Htarget. by eapply applyKit_missing_username.
  - apply applyKit_missing_login.
Qed.

Lemma missing_username_rejected_witness :
  syncLogin (H := quietEnv) namelessTree namelessTree emptyWorld
  = (Throw SyncMissingUsername, emptyWorld)
  ∧ applyKit (H := quietEnv) namelessTree otpKit emptyWorld
    = (Throw KitMissingUsername, emptyWorld)
  ∧ applyKit (H := quietEnv) namelessTree strayKit emptyWorld
    = (Throw MissingLogin, emptyWorld).
Proof.
  assert (Hname : prop namelessTree "username" = VUndefined
                  ∨ prop namelessTree "username" = VStr "")
    by (left; by vm_compute).
  split; [|split].
  - by apply (missing_username_rejected (H := quietEnv) namelessTree
                namelessTree otpKit emptyWorld).
  - by apply (proj1 (proj2 (missing_username_rejected (H := quietEnv)
                              namelessTree namelessTree otpKit emptyWorld
                              Hname)) namelessTree).
  - by apply (proj2 (proj2 (missing_username_rejected (H := quietEnv)
                              namelessTree namelessTree strayKit emptyWorld
                              Hname))).
Defined.

(** ** One-time passwords *)

Lemma getStashOtp_otp `{Env} stash opts s :
  otp opts = Some s →
  getStashOtp stash opts
  = if regexDigits_test s && (String.length s <? 16)%nat then VStr s
    else totp (VStr s).
Proof. unfold getStashOtp. by intros ->. Qed.

Lemma getStashOtp_no_otp `{Env} stash opts :
  otp opts = None →
  getStashOtp stash opts
  = match otpKey opts with
    | Some k => totp (VStr k)
    | None => if notNull (prop stash "otpKey") then totp (prop stash "otpKey")
              else VUndefined
    end.
Proof. unfold getStashOtp. intros ->. by destruct (otpKey opts). Qed.

Lemma regexDigits_test_digits s :
  isDigitString s = true → regexDigits_test s = true.
Proof.
  unfold isDigitString. destruct s as [|c s]; [done|]. simpl.
  by destruct (isDigit c).
Qed.

(** C8, at a failing input.  ["A2B3C4D5"] is set, is not a digit string and
    is shorter than 16 characters; the pattern of [getStashOtp] has no
    anchors and accepts it for the digits it contains, so it is returned
    verbatim instead of being used as a base32 secret. *)
Theorem getStashOtp_short_secret_verbatim `{Env} (stash : node)
    (key : option string) :
  isDigitString "A2B3C4D5" = false
  ∧ getStashOtp stash {| otp := Some "A2B3C4D5"; otpKey := key |}
    = VStr "A2B3C4D5".
Proof. split; [done|]. by rewrite (getStashOtp_otp _ _ "A2B3C4D5"). Qed.

(** ** Scrypt parameter chooser *)

Lemma Qfloor_num (z : Z) : Qfloor (Q2Qc (inject_Z z)) = z.
Proof.
  simpl. rewrite (Qfloor_comp _ (inject_Z z)) by apply Qred_correct.
  apply Qfloor_Z.
Qed.

Lemma num_lt (a b : Z) :
  (Q2Qc (inject_Z a) < Q2Qc (inject_Z b))%Qc ↔ (a < b)%Z.
Proof.
  unfold Qclt. simpl. by rewrite !Qred_correct, <- Zlt_Qlt.
Qed.

Lemma num_le (a b : Z) :
  (Q2Qc (inject_Z a) <= Q2Qc (inject_Z b))%Qc ↔ (a <= b)%Z.
Proof.
  unfold Qcle. simpl. by rewrite !Qred_correct, <- Zle_Qle.
Qed.

Lemma clamp_floor (a : number) (K : Z) :
  (0 <= K)%Z →
  ∃ z : Z,
    (0 <= z <= K)%Z
    ∧ Math_floor (if ngt (if ngt a (num 0) then a else num 0) (num K)
                  then num K
                  else (if ngt a (num 0) then a else num 0))
      = num z.
Proof.
  intros HK.
  assert (Hzero : ngt (num 0) (num K) = false).
  { apply bool_decide_eq_false. rewrite num_lt. lia. }
  assert (HfloorK : Math_floor (num K) = num K).
  { unfold Math_floor, num at 1. by rewrite Qfloor_num. }
  assert (Hfloor0 : Math_floor (num 0) = num 0) by done.
  destruct (ngt a (num 0)) eqn:Hpos.
  - destruct (ngt a (num K)) eqn:Hbig.
    + rewrite HfloorK. exists K. split; [lia|done].
    + destruct a as [|s|q]; [done|by destruct s|].
      exists (Qfloor q). split; [|done].
      apply bool_decide_eq_true in Hpos. apply bool_decide_eq_false in Hbig.
      unfold Qclt in Hpos, Hbig. simpl in Hpos, Hbig.
      rewrite Qred_correct in Hpos, Hbig.
      apply Qnot_lt_le in Hbig. split.
      * rewrite <- (Qfloor_Z 0). apply Qfloor_resp_le. by apply Qlt_le_weak.
      * rewrite <- (Qfloor_Z K). by apply Qfloor_resp_le.
  - rewrite Hzero, Hfloor0. exists 0%Z. split; [lia|done].
Qed.

Lemma nge_num (a b : Z) : nge (num a) (num b) = bool_decide (b <= a)%Z.
Proof. unfold nge, num. apply bool_decide_ext, num_le. Qed.

Lemma nadd_num `{Rounding} (a b : Z) :
  (Z.abs (a + b) <= 2 ^ 53)%Z → nadd (num a) (num b) = num (a + b).
Proof.
  intros Hab.
  change (nadd (num a) (num b))
    with (round (Q2Qc (inject_Z a) + Q2Qc (inject_Z b))%Qc).
  replace (Q2Qc (inject_Z a) + Q2Qc (inject_Z b))%Qc
    with (Q2Qc (inject_Z (a + b))); [by apply round_integer|].
  apply Qc_is_canon. unfold Qcplus, Q2Qc. cbn [this].
  by rewrite !Qred_correct, inject_Z_plus.
Qed.

Example calcSnrpForTarget_100_2000 :
  let snrp := Scrypt.calcSnrpForTarget (H := quietEnv) (H0 := exact)
                (VBytes []) (num 100) (num 2000) in
  (Scrypt.n snrp, Scrypt.r snrp, Scrypt.p snrp) = (num 131072, num 8, num 4).
Proof. by vm_compute. Qed.

(** C9.  With a benchmark of 0 the chooser returns [n = 131072], [r = 8],
    [p = 64] for every target.  For every benchmark (positive or not) and
    every target, [r] is 8, [n] is [2^k] with [14 <= k <= 17], and [p] is an
    integer between 1 and 64. *)
Theorem calcSnrpForTarget_bounds `{Env} `{Rounding} (salt : value)
    (benchMs targetMs : number) :
  Scrypt.calcSnrpForTarget salt (num 0) targetMs
  = {| Scrypt.salt_hex := base16_stringify salt;
       Scrypt.n := num 131072; Scrypt.r := num 8; Scrypt.p := num 64 |}
  ∧ Scrypt.r (Scrypt.calcSnrpForTarget salt benchMs targetMs) = num 8
  ∧ (∃ k : Z, (14 <= k <= 17)%Z
              ∧ Scrypt.n (Scrypt.calcSnrpForTarget salt benchMs targetMs)
                = num (2 ^ k))
  ∧ (∃ z : Z, (1 <= z <= 64)%Z
              ∧ Scrypt.p (Scrypt.calcSnrpForTarget salt benchMs targetMs)
                = num z).
Proof.
  split; [done|].
  unfold Scrypt.calcSnrpForTarget.
  destruct (num_eqb benchMs (num 0)).
  { split; [done|]. split; [by exists 17%Z|by exists 64%Z]. }
  cbv zeta. cbn [Scrypt.r Scrypt.n Scrypt.p].
  assert (nsub (num 8) (num 8) = num 0) as ->.
  { unfold nsub. change (nneg (num 8)) with (num (-8)). by rewrite nadd_num. }
  destruct (clamp_floor
              (ndiv (nsub targetMs benchMs) (ndiv benchMs (num 8))) 0)
    as (zr & Hzr & ->); [done|].
  assert (zr = 0%Z) as -> by lia.
  split; [by rewrite nadd_num|].
  set (timeUsed := nadd benchMs (nmul (num 0) (ndiv benchMs (num 8)))).
  destruct (clamp_floor (ndiv (nsub targetMs timeUsed) timeUsed) 3)
    as (zn & Hzn & ->); [done|].
  split.
  - exists (14 + zn)%Z. split; [lia|].
    rewrite nge_num, bool_decide_true by lia.
    rewrite nadd_num by lia.
    assert (zn = 0 ∨ zn = 1 ∨ zn = 2 ∨ zn = 3)%Z as [->|[->|[->| ->]]] by lia;
      by vm_compute.
  - set (timeUsed' := nadd timeUsed (nmul (num zn) timeUsed)).
    destruct (clamp_floor (ndiv (nsub targetMs timeUsed') timeUsed') 64)
      as (zp & Hzp & ->); [done|].
    rewrite nge_num. case_bool_decide.
    + exists zp. split; [lia|done].
    + exists 1%Z. split; [lia|done].
Qed.

(** * Further properties of the code *)

(** ** Searching a tree *)

Lemma find_app_first {A : Type} (p : A → bool) (l1 l2 : list A) :
  find p (l1 ++ l2)
  = match find p l1 with Some x => Some x | None => find p l2 end.
Proof. induction l1 as [|x l1 IH]; simpl; [done|]. by destruct (p x). Qed.

Lemma firstOut_find {A B : Type} (f : A → option B) (g : A → list B)
    (p : B → bool) l :
  Forall (λ x, f x = find p (g x)) l →
  firstOut f l = find p (concat (map g l)).
Proof.
  induction 1 as [|x l Hx _ IH]; simpl; [done|].
  rewrite find_app_first, <- Hx. by destruct (f x).
Qed.

(** X1.  [searchTree] returns the first node, in the order that visits a
    node before its children and the children from first to last, on which
    the predicate holds, and nothing when it holds on no node. *)
Theorem searchTree_preorder (n : node) (predicate : node → bool) :
  searchTree n predicate = find predicate (preorder n).
Proof.
  induction n as [f|f cs IH] using node_tree_ind;
    rewrite searchTree_eq; simpl; destruct (predicate _); try done.
  by apply firstOut_find.
Qed.

(** ** Updating a tree where nothing matches *)

Lemma preorder_eq n :
  preorder n
  = n :: match children n with
         | Some cs => concat (map preorder cs)
         | None => []
         end.
Proof. by destruct n. Qed.

Lemma cloneTree_eq clone n :
  cloneTree clone n
  = clone n match children n with
            | Some cs => map (cloneTree clone) cs
            | None => []
            end.
Proof. by destruct n. Qed.

Lemma updateTree_no_match_clones n predicate update clone :
  searchTree n predicate = None →
  updateTree n predicate update clone = Ok (cloneTree clone n).
Proof.
  induction n as [f|f cs IH] using node_tree_ind;
    rewrite searchTree_eq, updateTree_eq, cloneTree_eq;
    destruct (predicate _); try done; simpl.
  intros Hnone.
  assert (mapR (λ child, updateTree child predicate update clone) cs
          = Ok (map (cloneTree clone) cs)) as ->; [|done].
  induction IH as [|c cs Hc _ IHcs]; simpl in *; [done|].
  destruct (searchTree c predicate); [done|].
  by rewrite (Hc eq_refl), (IHcs Hnone).
Qed.

Lemma cloneTree_fields clone (g : gmap string value → gmap string value) n :
  (∀ x cs, fields (clone x cs) = g (fields x)) →
  (∀ x cs, children (clone x cs) = Some cs) →
  map fields (preorder (cloneTree clone n))
  = map (λ m, g (fields m)) (preorder n).
Proof.
  intros Hf Hc.
  induction n as [f|f cs IH] using node_tree_ind;
    rewrite cloneTree_eq, (preorder_eq (clone _ _)), Hc; simpl;
    rewrite Hf; simpl; [done|].
  f_equal. induction IH as [|c cs Hc' _ IHcs]; simpl; [done|].
  by rewrite !map_app, Hc', IHcs.
Qed.

(** X2.  A reply whose [appId] no node of the stash tree has is dropped
    without an error: [applyLoginReply] returns the stash tree rebuilt by
    [cloneNode], in which every node has the properties it had (a node
    without children has got an empty array of them), and nothing of the
    reply. *)
Theorem applyLoginReply_unknown_appId `{Env} (stashTree : node)
    (loginKey : value) (reply : node) :
  searchTree stashTree
    (λ s, strict_eq (prop s "appId") (prop reply "appId")) = None →
  applyLoginReply stashTree loginKey reply
  = Ok (cloneTree cloneNode stashTree)
  ∧ map fields (preorder (cloneTree cloneNode stashTree))
    = map fields (preorder stashTree).
Proof.
  intros Hnone. split.
  - unfold applyLoginReply. by apply updateTree_no_match_clones.
  - rewrite (cloneTree_fields cloneNode id) by done. by apply map_ext.
Qed.

Lemma applyLoginReply_unknown_appId_witness :
  applyLoginReply (H := quietEnv) aliceStash rootKey
    (Node {[ "appId" := VStr "elsewhere"; "loginId" := VStr "x" ]} None)
  = Ok (Node (fields aliceStash) (Some [Node (fields appStash) (Some [])])).
Proof.
  by apply (applyLoginReply_unknown_appId (H := quietEnv) aliceStash rootKey
              (Node {[ "appId" := VStr "elsewhere"; "loginId" := VStr "x" ]}
                 None)).
Defined.

(** X3.  Asked for an [appId] that no node of the stash tree has,
    [makeLoginTree] does not fail either: it returns the tree of reduced
    nodes, where every node holds at most [username], [appId] and [loginId]
    of the stash node it stands for, so no key and no secret. *)
Theorem makeLoginTree_unknown_appId `{Env} (stashTree : node)
    (loginKey appId : value) :
  searchTree stashTree
    (λ s, strict_eq (prop s "appId") (orDefault appId (VStr ""))) = None →
  ∃ tree,
    makeLoginTree stashTree loginKey appId = Ok tree
    ∧ map fields (preorder tree)
      = map (λ s, filterObject (fields s) ["username"; "appId"; "loginId"])
          (preorder stashTree).
Proof.
  intros Hnone. eexists. split.
  - unfold makeLoginTree. by apply updateTree_no_match_clones.
  - by apply (cloneTree_fields _
                (λ f, filterObject f ["username"; "appId"; "loginId"])).
Qed.

Lemma makeLoginTree_unknown_appId_witness :
  ∃ tree,
    makeLoginTree (H := quietEnv) aliceStash rootKey (VStr "elsewhere")
    = Ok tree
    ∧ map fields (preorder tree)
      = [ {[ "username" := VStr "alice"; "appId" := VStr "";
             "loginId" := VStr rootId ]};
          {[ "appId" := VStr "app"; "loginId" := VStr "app-login" ]} ].
Proof.
  destruct (makeLoginTree_unknown_appId (H := quietEnv) aliceStash rootKey
              (VStr "elsewhere")) as (tree & Htree & Hfields); [done|].
  exists tree. split; [done|]. rewrite Hfields. by vm_compute.
Defined.

(** ** What the reconciler stores *)

Lemma preserve_lookup_eq source k (out : gmap string value) :
  preserve source k out !! k = kept source k (out !! k).
Proof.
  unfold preserve, kept. case_match; [by rewrite lookup_insert_eq|done].
Qed.

Lemma storeKey_lookup_eq `{Env} reply box k loginKey
    (out out' : gmap string value) :
  storeKey reply box k loginKey out = Ok out' →
  out' !! k = if notNull (prop reply box) then openedKey reply box loginKey
              else out !! k.
Proof.
  unfold storeKey, openedKey. intros Hs. destruct (notNull _).
  - destruct (decrypt _ _); simpl in Hs; [|done].
    injection Hs as <-. by rewrite lookup_insert_eq.
  - by injection Hs as <-.
Qed.

Lemma replyFields_client `{Env} stash loginKey reply
    (out : gmap string value) :
  replyFields stash loginKey reply = Ok out →
  out !! "lastLogin" = kept stash "lastLogin" None
  ∧ out !! "username" = kept stash "username" None
  ∧ out !! "userId" = kept stash "userId" (fields reply !! "userId")
  ∧ out !! "pin2Key" = openedKey reply "pin2KeyBox" loginKey
  ∧ out !! "recovery2Key" = openedKey reply "recovery2KeyBox" loginKey
  ∧ out !! "keyBoxes"
    = Some (if notNull (prop reply "keyBoxes") then prop reply "keyBoxes"
            else VArr []).
Proof.
  unfold replyFields. intros Hout.
  destruct (storeKey reply "pin2KeyBox" _ _ _) as [o1|] eqn:Hs1; [|done].
  simpl in Hout.
  destruct (storeKey reply "recovery2KeyBox" _ _ _) as [o2|] eqn:Hs2; [|done].
  simpl in Hout. injection Hout as <-.
  repeat split.
  - rewrite lookup_insert_ne by done.
    rewrite (storeKey_lookup_ne _ _ _ _ _ _ _ Hs2) by done.
    rewrite (storeKey_lookup_ne _ _ _ _ _ _ _ Hs1) by done.
    rewrite !preserve_lookup_ne by done.
    by rewrite preserve_lookup_eq, filterObject_lookup.
  - rewrite lookup_insert_ne by done.
    rewrite (storeKey_lookup_ne _ _ _ _ _ _ _ Hs2) by done.
    rewrite (storeKey_lookup_ne _ _ _ _ _ _ _ Hs1) by done.
    rewrite preserve_lookup_ne by done.
    rewrite preserve_lookup_eq, preserve_lookup_ne by done.
    by rewrite filterObject_lookup.
  - rewrite lookup_insert_ne by done.
    rewrite (storeKey_lookup_ne _ _ _ _ _ _ _ Hs2) by done.
    rewrite (storeKey_lookup_ne _ _ _ _ _ _ _ Hs1) by done.
    rewrite preserve_lookup_eq, !preserve_lookup_ne by done.
    by rewrite filterObject_lookup.
  - rewrite lookup_insert_ne by done.
    rewrite (storeKey_lookup_ne _ _ _ _ _ _ _ Hs2) by done.
    rewrite (storeKey_lookup_eq _ _ _ _ _ _ Hs1).
    unfold openedKey. destruct (notNull (prop reply "pin2KeyBox")); [done|].
    rewrite !preserve_lookup_ne by done. by rewrite filterObject_lookup.
  - rewrite lookup_insert_ne by done.
    rewrite (storeKey_lookup_eq _ _ _ _ _ _ Hs2).
    unfold openedKey.
    destruct (notNull (prop reply "recovery2KeyBox")); [done|].
    rewrite (storeKey_lookup_ne _ _ _ _ _ _ _ Hs1) by done.
    rewrite !preserve_lookup_ne by done. by rewrite filterObject_lookup.
  - by rewrite lookup_insert_eq.
Qed.

Lemma applyLoginReplyInner_out `{Env} stash loginKey reply out :
  applyLoginReplyInner stash loginKey reply = Ok out →
  ∃ cs,
    replyFields stash loginKey reply = Ok (fields out)
    ∧ children out = Some cs
    ∧ (length (childList stash) <= length (childList reply))%nat
    ∧ match children reply with
      | Some l =>
          mapReplyChildren
            (λ childStash childKey child,
               applyLoginReplyInner childStash childKey child)
            (childList stash) loginKey l 0%nat
      | None => Ok []
      end = Ok cs.
Proof.
  rewrite applyLoginReplyInner_eq.
  destruct (replyFields stash loginKey reply) as [fo|]; [|done]. simpl.
  destruct (_ <? _)%nat eqn:Hlen; [done|]. apply Nat.ltb_ge in Hlen.
  destruct (match children reply with Some _ => _ | None => _ end) as [cs|];
    [|done].
  simpl. intros [= <-]. by exists cs.
Qed.

(** X4.  The properties [lastLogin] and [username] of a reconciled node are
    those of the old stash node when it has them, and are absent when it has
    not: the reply cannot set them.  [userId] is the old stash's when it has
    one, and the reply's otherwise. *)
Theorem applyLoginReplyInner_client_fields `{Env} (stash : node)
    (loginKey : value) (reply out : node) :
  applyLoginReplyInner stash loginKey reply = Ok out →
  fields out !! "lastLogin" = kept stash "lastLogin" None
  ∧ fields out !! "username" = kept stash "username" None
  ∧ fields out !! "userId" = kept stash "userId" (fields reply !! "userId").
Proof.
  intros (cs & Hf & _)%applyLoginReplyInner_out.
  by destruct (replyFields_client _ _ _ _ Hf) as (? & ? & ? & _).
Qed.

Lemma applyLoginReplyInner_client_fields_witness :
  fields aliceStash' !! "username" = Some (VStr "alice")
  ∧ fields aliceStash' !! "lastLogin" = None.
Proof.
  destruct (applyLoginReplyInner_client_fields (H := quietEnv) aliceStash
              rootKey aliceReply aliceStash') as (Hlast & Hname & _);
    [by vm_compute|].
  by rewrite Hlast, Hname.
Defined.

(** X5.  The keys a reconciled node holds in the clear come from the reply
    alone: [pin2Key] and [recovery2Key] are the opened [pin2KeyBox] and
    [recovery2KeyBox] of the reply and are absent when the reply has no such
    box, whatever the old stash held; [keyBoxes] is the reply's, or the
    empty array. *)
Theorem applyLoginReplyInner_keys `{Env} (stash : node) (loginKey : value)
    (reply out : node) :
  applyLoginReplyInner stash loginKey reply = Ok out →
  fields out !! "pin2Key" = openedKey reply "pin2KeyBox" loginKey
  ∧ fields out !! "recovery2Key" = openedKey reply "recovery2KeyBox" loginKey
  ∧ fields out !! "keyBoxes"
    = Some (if notNull (prop reply "keyBoxes") then prop reply "keyBoxes"
            else VArr []).
Proof.
  intros (cs & Hf & _)%applyLoginReplyInner_out.
  by destruct (replyFields_client _ _ _ _ Hf) as (_ & _ & _ & ? & ? & ?).
Qed.

Lemma applyLoginReplyInner_keys_witness :
  fields aliceStash' !! "pin2Key" = Some (VStr "cGlu")
  ∧ fields aliceStash' !! "recovery2Key" = None
  ∧ fields aliceStash' !! "keyBoxes" = Some (VArr []).
Proof.
  destruct (applyLoginReplyInner_keys (H := quietEnv) aliceStash rootKey
              aliceReply aliceStash') as (Hpin & Hrec & Hboxes);
    [by vm_compute|].
  by rewrite Hpin, Hrec, Hboxes.
Defined.

Lemma mapReplyChildren_Forall2 `{Env}
    (recur : node → value → node → result node) (R : node → node → Prop)
    stashChildren loginKey l :
  Forall (λ child, ∀ s k out, recur s k child = Ok out → R out child) l →
  ∀ index cs,
    mapReplyChildren recur stashChildren loginKey l index = Ok cs →
    Forall2 R cs l.
Proof.
  induction 1 as [|child l Hchild _ IH]; intros index cs; simpl.
  - intros [= <-]. constructor.
  - destruct (negb _); [done|].
    destruct (decrypt _ _) as [childKey|]; simpl; [|done].
    destruct (recur _ childKey child) as [c|] eqn:Hc; simpl; [|done].
    destruct (mapReplyChildren _ _ _ l _) as [cs'|] eqn:Hcs; simpl; [|done].
    intros [= <-]. constructor; [by eapply Hchild|by eapply IH].
Qed.

(** X6.  A reconciled node mirrors the reply it was made from, at every
    depth: it has a [children] array with one node for each child of the
    reply, in the reply's order, and each node carries the allowlisted
    properties of the reply node it stands for ([userId] apart, which the
    old stash can override). *)
Theorem applyLoginReplyInner_mirrors `{Env} (stash : node) (loginKey : value)
    (reply out : node) :
  applyLoginReplyInner stash loginKey reply = Ok out → mirrors out reply.
Proof.
  revert stash loginKey out.
  induction reply as [f|f l IH] using node_tree_ind; intros stash loginKey out
    Hrun; pose proof Hrun as (cs & Hf & Hcs & _ & Hloop)%applyLoginReplyInner_out;
    (apply (mirrors_node _ _ cs); [done| |]);
    try (intros k Hk Huser;
         rewrite (applyLoginReplyInner_lookup _ _ _ _ _ Hrun)
           by (by apply allowlist_not_client);
         by rewrite decide_True).
  - simpl in *. injection Hloop as <-. constructor.
  - simpl in *. eapply mapReplyChildren_Forall2; [|done].
    eapply Forall_impl; [done|]. intros child Hchild s k out'. apply Hchild.
Qed.

Lemma applyLoginReplyInner_mirrors_witness : mirrors aliceStash' aliceReply.
Proof.
  apply (applyLoginReplyInner_mirrors (H := quietEnv) aliceStash rootKey).
  by vm_compute.
Defined.

(** ** Reconciling twice *)

Lemma preserve_fixed (stash : node) (k : string) (fo out : gmap string value)
    cs otherwise :
  fo !! k = kept stash k otherwise →
  (notNull (prop stash k) = false → otherwise = out !! k) →
  preserve (Node fo cs) k out = preserve stash k out.
Proof.
  unfold preserve, kept, prop, get. simpl. intros -> Hother.
  destruct (notNull (default VUndefined (fields stash !! k))) eqn:Hk;
    simpl; [by rewrite Hk|].
  rewrite (Hother eq_refl).
  destruct (out !! k) as [v|] eqn:Hv; simpl; [|done].
  destruct (notNull v); [|done]. by apply insert_id.
Qed.

Lemma replyFields_fixed `{Env} stash loginKey reply
    (fo : gmap string value) cs :
  replyFields stash loginKey reply = Ok fo →
  replyFields (Node fo cs) loginKey reply = Ok fo.
Proof.
  intros Hf.
  destruct (replyFields_client _ _ _ _ Hf) as (Hlast & Hname & Huser & _).
  etrans; [|exact Hf]. unfold replyFields.
  rewrite (preserve_fixed stash "lastLogin" fo _ cs None Hlast).
  2:{ intros _. by rewrite filterObject_lookup. }
  rewrite (preserve_fixed stash "username" fo _ cs None Hname).
  2:{ intros _. by rewrite preserve_lookup_ne, filterObject_lookup. }
  rewrite (preserve_fixed stash "userId" fo _ cs _ Huser); [done|].
  intros _. by rewrite !preserve_lookup_ne, filterObject_lookup.
Qed.

Lemma mapReplyChildren_length `{Env} recur stashChildren loginKey l :
  ∀ index cs,
    mapReplyChildren recur stashChildren loginKey l index = Ok cs →
    length cs = length l.
Proof.
  induction l as [|child l IH]; intros index cs; simpl.
  - by intros [= <-].
  - destruct (negb _); [done|].
    destruct (decrypt _ _) as [childKey|]; simpl; [|done].
    destruct (recur _ childKey child) as [c|]; simpl; [|done].
    destruct (mapReplyChildren _ _ _ l _) as [cs'|] eqn:Hcs; simpl; [|done].
    intros [= <-]. simpl. f_equal. by eapply IH.
Qed.

Lemma mapReplyChildren_fixed `{Env}
    (recur : node → value → node → result node) loginKey l :
  Forall (λ child, ∀ s k out, recur s k child = Ok out →
                              recur out k child = Ok out) l →
  ∀ index stashChildren cs pre,
    mapReplyChildren recur stashChildren loginKey l index = Ok cs →
    length pre = index →
    mapReplyChildren recur (pre ++ cs)%list loginKey l index = Ok cs.
Proof.
  induction 1 as [|child l Hchild _ IH]; intros index stashChildren cs pre;
    simpl.
  - by intros [= <-].
  - destruct (negb _); [done|].
    destruct (decrypt _ _) as [childKey|]; simpl; [|done].
    destruct (recur _ childKey child) as [c|] eqn:Hc; simpl; [|done].
    destruct (mapReplyChildren _ _ _ l _) as [cs'|] eqn:Hcs; simpl; [|done].
    intros [= <-] Hpre.
    rewrite lookup_app_r, Hpre, Nat.sub_diag by lia. simpl.
    rewrite (Hchild _ _ _ Hc). simpl.
    specialize (IH (S index) stashChildren cs' (pre ++ [c])%list Hcs).
    rewrite <- app_assoc in IH. simpl in IH.
    rewrite IH; [done|]. rewrite length_app. simpl. lia.
Qed.

Lemma applyLoginReplyInner_fixed `{Env} reply :
  ∀ stash loginKey out,
    applyLoginReplyInner stash loginKey reply = Ok out →
    applyLoginReplyInner out loginKey reply = Ok out.
Proof.
  induction reply as [f|f l IH] using node_tree_ind; intros stash loginKey out
    (cs & Hf & Hcs & _ & Hloop)%applyLoginReplyInner_out;
    destruct out as [fo ocs]; simpl in Hf, Hcs, Hloop; subst ocs;
    rewrite applyLoginReplyInner_eq, (replyFields_fixed _ _ _ _ _ Hf);
    simpl.
  - by injection Hloop as <-.
  - unfold childList; simpl.
    rewrite (mapReplyChildren_length _ _ _ _ _ _ Hloop), Nat.ltb_irrefl.
    pose proof (mapReplyChildren_fixed
                  (λ childStash childKey child,
                     applyLoginReplyInner childStash childKey child)
                  _ _ IH _ _ _ [] Hloop eq_refl) as Hfixed.
    simpl in Hfixed. by rewrite Hfixed.
Qed.

(** X7.  Reconciling is idempotent: applying the same reply, under the same
    key, to the stash tree [applyLoginReply] returned gives that stash tree
    back. *)
Theorem applyLoginReply_idempotent `{Env} (stashTree : node)
    (loginKey : value) (reply stash' : node) :
  applyLoginReply stashTree loginKey reply = Ok stash' →
  applyLoginReply stash' loginKey reply = Ok stash'.
Proof.
  unfold applyLoginReply. revert stash'.
  induction stashTree as [f|f cs IH] using node_tree_ind; intros stash';
    rewrite updateTree_eq; cbv beta;
    destruct (strict_eq _ (prop reply "appId")) eqn:Hp.
  - intros Hrun. rewrite updateTree_eq; cbv beta.
    rewrite (applyLoginReplyInner_copies _ _ _ _ "appId" Hrun), 
      (strict_eq_refl_r _ _ Hp); [|compute_done|done].
    by eapply applyLoginReplyInner_fixed.
  - intros [= <-]. rewrite updateTree_eq; cbv beta.
    change (prop (cloneNode (Node f None) []) "appId")
      with (prop (Node f None) "appId").
    by rewrite Hp.
  - intros Hrun. rewrite updateTree_eq; cbv beta.
    rewrite (applyLoginReplyInner_copies _ _ _ _ "appId" Hrun), 
      (strict_eq_refl_r _ _ Hp); [|compute_done|done].
    by eapply applyLoginReplyInner_fixed.
  - simpl. destruct (mapR _ cs) as [cs'|] eqn:Hcs; [|done].
    intros [= <-]. rewrite updateTree_eq; cbv beta.
    change (prop (cloneNode (Node f (Some cs)) cs') "appId")
      with (prop (Node f (Some cs)) "appId").
    rewrite Hp. simpl. by rewrite (mapR_fixed _ cs cs' IH Hcs).
Qed.

Lemma applyLoginReply_idempotent_witness :
  applyLoginReply (H := quietEnv) aliceStash' rootKey aliceReply
  = Ok aliceStash'.
Proof.
  apply (applyLoginReply_idempotent (H := quietEnv) aliceStash).
  by vm_compute.
Defined.

(** ** Building a login *)

Lemma loginFields_stages `{Env} stash loginKey login :
  loginFields stash loginKey = Ok login →
  ∃ l1 l2,
    (if notNull (prop stash "loginAuthBox") then
       loginAuth ← decrypt (prop stash "loginAuthBox") loginKey;
       Ok (<["loginAuth" := loginAuth]> (loginSkeleton stash loginKey))
     else Ok (loginSkeleton stash loginKey)) = Ok l1
    ∧ (if notNull (prop stash "passwordAuthBox") then
         passwordAuth ← decrypt (prop stash "passwordAuthBox") loginKey;
         Ok (<["passwordAuth" := passwordAuth]>
               (if notNull (get l1 "userId") then l1
                else <["userId" := prop stash "loginId"]> l1))
       else Ok l1) = Ok l2
    ∧ negb (notNull (get l2 "loginAuth"))
      && negb (notNull (get l2 "passwordAuth")) = false
    ∧ ∀ k, k ∉ ["pin2Key"; "pin"; "recovery2Key"; "keyInfos"] →
           get login k = get l2 k.
Proof.
  unfold loginFields. fold (loginSkeleton stash loginKey). intros Hrun.
  match type of Hrun with (?m ≫= _) = _ => destruct m as [l1|] eqn:H1 end;
    simpl in Hrun; [|done].
  match type of Hrun with (?m ≫= _) = _ => destruct m as [l2|] eqn:H2 end;
    simpl in Hrun; [|done].
  destruct (_ && _) eqn:Hauth; [done|].
  match type of Hrun with (?m ≫= _) = _ => destruct m as [l3|] eqn:H3 end;
    simpl in Hrun; [|done].
  match type of Hrun with (?m ≫= _) = _ => destruct m as [l4|] eqn:H4 end;
    simpl in Hrun; [|done].
  match type of Hrun with (?m ≫= _) = _ => destruct m as [l5|] eqn:H5 end;
    simpl in Hrun; [|done].
  match type of Hrun with (?m ≫= _) = _ => destruct m as [k1|] end;
    simpl in Hrun; [|done].
  match type of Hrun with (?m ≫= _) = _ => destruct m as [k2|] end;
    simpl in Hrun; [|done].
  match type of Hrun with (?m ≫= _) = _ => destruct m as [infos|] end;
    simpl in Hrun; [|done].
  match type of Hrun with (?m ≫= _) = _ => destruct m as [merged|] end;
    simpl in Hrun; [|done].
  injection Hrun as <-.
  exists l1, l2. split; [done|]. split.
  { destruct (notNull (prop stash "passwordAuthBox")); [|done].
    destruct (decrypt (prop stash "passwordAuthBox") loginKey);
      simpl in H2 |- *; [|done].
    injection H2 as <-. by destruct (notNull (get l1 "userId")). }
  split; [done|].
  intros k Hk. rewrite !not_elem_of_cons in Hk.
  destruct Hk as (? & ? & ? & ? & _).
  unfold get at 1. rewrite lookup_insert_ne by done. fold (get l5 k).
  rewrite (optional_insert_get _ _ id _ k _ _ H5) by done.
  rewrite (optional_insert_get _ _ id _ k _ _ H4) by done.
  by rewrite (optional_insert_get _ _ id _ k _ _ H3) by done.
Qed.

Lemma loginSkeleton_get `{Env} stash loginKey k :
  k ∉ ["appId"; "created"; "lastLogin"; "loginId"; "otpKey"; "otpResetDate";
       "otpTimeout"; "userId"; "username"; "loginKey"; "keyInfos"] →
  loginSkeleton stash loginKey !! k = None.
Proof.
  intros Hk. rewrite !not_elem_of_cons in Hk.
  destruct Hk as (? & ? & ? & ? & ? & ? & ? & ? & ? & ? & ? & _).
  unfold loginSkeleton. rewrite !lookup_insert_ne by done.
  by rewrite lookup_singleton_ne.
Qed.

Lemma loginFields_missing_auth `{Env} stash loginKey :
  notNull (prop stash "loginAuthBox") = false →
  notNull (prop stash "passwordAuthBox") = false →
  loginFields stash loginKey = Throw MissingAuth.
Proof.
  intros Hlogin Hpassword. unfold loginFields.
  fold (loginSkeleton stash loginKey). rewrite Hlogin, Hpassword. simpl.
  unfold get. by rewrite !loginSkeleton_get by compute_done.
Qed.

(** X8.  A login cannot be built from a stash node that holds neither a
    [loginAuthBox] nor a [passwordAuthBox]: when the node [makeLoginTree] is
    asked for is such a node, the call throws the missing-authentication
    error, whatever else the node holds. *)
Theorem makeLoginTree_missing_auth `{Env} (stashTree : node)
    (loginKey appId : value) (stash : node) :
  searchTree stashTree
    (λ s, strict_eq (prop s "appId") (orDefault appId (VStr ""))) = Some stash →
  notNull (prop stash "loginAuthBox") = false →
  notNull (prop stash "passwordAuthBox") = false →
  makeLoginTree stashTree loginKey appId = Throw MissingAuth.
Proof.
  intros Hfind Hlogin Hpassword. unfold makeLoginTree.
  eapply updateTree_match_throws; [done|].
  rewrite makeLoginTreeInner_eq.
  by rewrite loginFields_missing_auth.
Qed.

Lemma makeLoginTree_missing_auth_witness :
  makeLoginTree (H := quietEnv) twoAppStash rootKey (VStr "other")
  = Throw MissingAuth.
Proof.
  by apply (makeLoginTree_missing_auth (H := quietEnv) twoAppStash rootKey
              (VStr "other") otherStash).
Defined.

Lemma makeLoginTreeInner_fields `{Env} stash loginKey login :
  makeLoginTreeInner stash loginKey = Ok login →
  loginFields stash loginKey = Ok (fields login).
Proof.
  rewrite makeLoginTreeInner_eq.
  destruct (loginFields stash loginKey) as [f|]; simpl; [|done].
  destruct (match children stash with Some _ => _ | None => _ end); simpl;
    [|done].
  by intros [= <-].
Qed.

(** X9.  A login [makeLoginTreeInner] has built can always authenticate:
    [makeAuthJson] returns a request for it.  When the stash node had no
    [loginAuthBox], that request is the password one, and its [userId] is
    the stash node's [userId], or its [loginId] when it has no [userId]. *)
Theorem makeLoginTreeInner_authenticates `{Env} (stash : node)
    (loginKey : value) (login : node) :
  makeLoginTreeInner stash loginKey = Ok login →
  ∃ request,
    makeAuthJson login = Ok request
    ∧ (notNull (prop stash "loginAuthBox") = false →
       is_Some (request !! "passwordAuth")
       ∧ request !! "userId"
         = Some (if notNull (prop stash "userId") then prop stash "userId"
                 else prop stash "loginId")).
Proof.
  intros Hf%makeLoginTreeInner_fields.
  destruct (loginFields_stages _ _ _ Hf) as (l1 & l2 & H1 & H2 & Hauth & Hkeep).
  assert (Hprop : ∀ k, prop login k = get (fields login) k) by done.
  unfold makeAuthJson. rewrite !Hprop, !Hkeep by compute_done.
  destruct (notNull (get l2 "loginAuth")) eqn:Hla.
  - eexists. split; [done|]. intros Hbox. rewrite Hbox in H1.
    injection H1 as <-. exfalso. revert Hla.
    destruct (notNull (prop stash "passwordAuthBox")).
    + destruct (decrypt _ _); simpl in H2; [|done]. injection H2 as <-.
      unfold get. rewrite lookup_insert_ne by done.
      destruct (notNull _); [|rewrite lookup_insert_ne by done];
        by rewrite loginSkeleton_get by compute_done.
    + injection H2 as <-. unfold get.
      by rewrite loginSkeleton_get by compute_done.
  - simpl in Hauth. apply negb_false_iff in Hauth. rewrite Hauth.
    eexists. split; [done|]. intros Hbox. rewrite Hbox in H1.
    injection H1 as <-. split; [by rewrite lookup_insert_ne, lookup_insert_eq|].
    rewrite lookup_insert_eq. f_equal.
    destruct (notNull (prop stash "passwordAuthBox")).
    + destruct (decrypt _ _); simpl in H2; [|done]. injection H2 as <-.
      unfold get. rewrite lookup_insert_ne by done.
      assert (loginSkeleton stash loginKey !! "userId"
              = Some (prop stash "userId")) as Huser by done.
      rewrite Huser. simpl.
      destruct (notNull (prop stash "userId"));
        [by rewrite Huser|by rewrite lookup_insert_eq].
    + injection H2 as <-. revert Hauth. unfold get.
      by rewrite loginSkeleton_get by compute_done.
Qed.

Lemma makeLoginTreeInner_authenticates_witness :
  ∃ login request,
    makeLoginTreeInner (H := quietEnv)
      (Node {[ "appId" := VStr ""; "loginId" := VStr rootId;
               "passwordAuthBox" := toyBox [1; 2; 3] (VBytes [7]) ]} None)
      rootKey = Ok login
    ∧ makeAuthJson (H := quietEnv) login = Ok request
    ∧ request !! "userId" = Some (VStr rootId).
Proof.
  destruct (makeLoginTreeInner (H := quietEnv)
              (Node {[ "appId" := VStr ""; "loginId" := VStr rootId;
                       "passwordAuthBox" := toyBox [1; 2; 3] (VBytes [7]) ]}
                 None) rootKey) as [login|] eqn:Hlogin;
    [|by vm_compute in Hlogin].
  destruct (makeLoginTreeInner_authenticates (H := quietEnv) _ _ _ Hlogin)
    as (request & Hrequest & Huser).
  exists login, request. split; [done|]. split; [done|].
  by destruct (Huser eq_refl) as [_ ->].
Defined.

(** ** Children without a parent box *)

Lemma mapStashChildren_parentBox `{Env} recur loginKey l child :
  child ∈ l → truthy (prop child "parentBox") = false →
  ∃ e, mapStashChildren recur loginKey l = Throw e.
Proof.
  intros Hin Hbox. induction l as [|c l IH]; [by apply elem_of_nil in Hin|].
  simpl. apply elem_of_cons in Hin as [<-|Hin].
  - rewrite Hbox. by eexists.
  - destruct (negb _); [by eexists|].
    destruct (decrypt _ _) as [childKey|]; simpl; [|by eexists].
    destruct (recur c childKey); simpl; [|by eexists].
    destruct (IH Hin) as [e ->]. by eexists.
Qed.

Lemma mapReplyChildren_parentBox `{Env} recur stashChildren loginKey l child :
  child ∈ l → truthy (prop child "parentBox") = false →
  ∀ index, ∃ e,
    mapReplyChildren recur stashChildren loginKey l index = Throw e.
Proof.
  intros Hin Hbox. induction l as [|c l IH]; [by apply elem_of_nil in Hin|].
  intros index. simpl. apply elem_of_cons in Hin as [<-|Hin].
  - rewrite Hbox. by eexists.
  - destruct (negb _); [by eexists|].
    destruct (decrypt _ _) as [childKey|]; simpl; [|by eexists].
    destruct (recur _ childKey c); simpl; [|by eexists].
    destruct (IH Hin (S index)) as [e ->]. by eexists.
Qed.

(** X10.  Every child must carry its [parentBox].  [makeLoginTreeInner]
    fails on a stash node one of whose children has no [parentBox] (or an
    empty one), and [applyLoginReplyInner] fails on a reply one of whose
    children has none: neither returns a tree with a child it could not
    derive a key for. *)
Theorem child_without_parentBox_rejected `{Env} (stash reply : node)
    (loginKey : value) (child : node) :
  truthy (prop child "parentBox") = false →
  (child ∈ childList stash →
   ∃ e, makeLoginTreeInner stash loginKey = Throw e)
  ∧ (child ∈ childList reply →
     ∃ e, applyLoginReplyInner stash loginKey reply = Throw e).
Proof.
  intros Hbox. split; intros Hin.
  - rewrite makeLoginTreeInner_eq.
    destruct (loginFields stash loginKey); simpl; [|by eexists].
    unfold childList in Hin. destruct (children stash) as [cs|];
      [|by apply elem_of_nil in Hin].
    destruct (mapStashChildren_parentBox
                (λ child childKey, makeLoginTreeInner child childKey)
                loginKey cs child Hin Hbox) as [e ->].
    by eexists.
  - rewrite applyLoginReplyInner_eq.
    destruct (replyFields stash loginKey reply); simpl; [|by eexists].
    destruct (_ <? _)%nat; [by eexists|].
    unfold childList in Hin. destruct (children reply) as [cs|];
      [|by apply elem_of_nil in Hin].
    destruct (mapReplyChildren_parentBox
                (λ childStash childKey child,
                   applyLoginReplyInner childStash childKey child)
                (childList stash) loginKey cs child Hin Hbox 0%nat) as [e ->].
    by eexists.
Qed.

Lemma child_without_parentBox_rejected_witness :
  (∃ e, makeLoginTreeInner (H := quietEnv) bareReply rootKey = Throw e)
  ∧ (∃ e, applyLoginReplyInner (H := quietEnv) aliceStash rootKey bareReply
          = Throw e).
Proof.
  set (child := Node {[ "appId" := VStr "app"; "loginId" := VStr "app-login" ]}
                  None).
  assert (Hbox : truthy (prop child "parentBox") = false) by (by vm_compute).
  destruct (child_without_parentBox_rejected (H := quietEnv) bareReply
              bareReply rootKey child Hbox) as [Hbuild _].
  destruct (child_without_parentBox_rejected (H := quietEnv) aliceStash
              bareReply rootKey child Hbox) as [_ Hreply].
  split; [apply Hbuild|apply Hreply]; apply elem_of_cons; by left.
Defined.

(** ** What a kit leaves on disk *)

Lemma applyKit_saved `{Env} loginTree kit w tree w' stashTree :
  applyKit loginTree kit w = (Ok tree, w') →
  getStash (prop loginTree "username") = Ok stashTree →
  ∃ target request newStashTree loginId,
    kitTarget loginTree kit = Some target
    ∧ kitRequest kit target = Ok request
    ∧ updateTree stashTree
        (λ stash, strict_eq (prop stash "loginId") (Kit.loginId kit))
        (applyKitStash kit) cloneNode = Ok newStashTree
    ∧ trace w'
      = (trace w ++ [Fetch (default "POST" (Kit.serverMethod kit))
                       (Kit.serverPath kit) request;
                     SetText (stashPath loginId) (JSON_stringify newStashTree);
                     Dispatch (LOGIN_STASH_SAVED newStashTree)])%list.
Proof.
  intros (target & stashTree' & request & reply & newStashTree & loginId
          & Htarget & Hstash & Hrequest & _ & _ & Hnew & _ & _ & Htrace)
           %applyKit_returns Hget.
  rewrite Hget in Hstash. injection Hstash as <-.
  by exists target, request, newStashTree, loginId.
Qed.

Lemma kitRequest_data `{Env} kit target request :
  kitRequest kit target = Ok request →
  request !! "data" = Some (Kit.server kit).
Proof.
  unfold kitRequest. destruct (makeAuthJson target); simpl; [|done].
  intros [= <-]. by rewrite lookup_insert_eq.
Qed.

Lemma applyKitStash_lookup kit stash out :
  applyKitStash kit stash = Ok out →
  (∀ k, k ≠ "keyBoxes" →
        fields out !! k
        = match fields (Kit.stash kit) !! k with
          | Some v => Some v
          | None => fields stash !! k
          end)
  ∧ fields out !! "keyBoxes"
    = Some (VArr (softCatV [prop stash "keyBoxes";
                            prop (Kit.stash kit) "keyBoxes"]))
  ∧ children out = Some (softCat [children stash; children (Kit.stash kit)]).
Proof.
  unfold applyKitStash. intros [= <-]. simpl. split; [|split; [|done]].
  - intros k Hk. rewrite lookup_insert_ne by done.
    rewrite lookup_union. by destruct (_ !! k), (_ !! k).
  - by rewrite lookup_insert_eq.
Qed.

Lemma applyKit_target_stash `{Env} (kit : Kit.t) stashTree newStashTree stash :
  fields (Kit.stash kit) !! "loginId" = None →
  updateTree stashTree
    (λ stash, strict_eq (prop stash "loginId") (Kit.loginId kit))
    (applyKitStash kit) cloneNode = Ok newStashTree →
  kitStash stashTree kit = Some stash →
  ∃ out, applyKitStash kit stash = Ok out ∧ kitStash newStashTree kit = Some out.
Proof.
  intros Hkit Hnew Hfind. unfold kitStash in *.
  eapply (updateTree_search _ _ _ cloneNode); try done.
  intros x y Hx Hy. apply applyKitStash_lookup in Hy as [Hy _].
  unfold prop, get. rewrite Hy, Hkit by done. exact Hx.
Qed.

(** X11.  [applyKit] does not look for the kit's login in the stash tree.
    When the login is in the login tree but no node of the stash tree has
    its [loginId], the call succeeds all the same: the server is asked, and
    the stash tree is saved as it was read (rebuilt by [cloneNode]), without
    anything of the kit in it. *)
Theorem applyKit_stash_without_login `{Env} (loginTree : node) (kit : Kit.t)
    (w w' : world) (tree stashTree : node) :
  applyKit loginTree kit w = (Ok tree, w') →
  getStash (prop loginTree "username") = Ok stashTree →
  kitStash stashTree kit = None →
  ∃ request path,
    trace w'
    = (trace w
       ++ [Fetch (default "POST" (Kit.serverMethod kit)) (Kit.serverPath kit)
             request;
           SetText path (JSON_stringify (cloneTree cloneNode stashTree));
           Dispatch (LOGIN_STASH_SAVED (cloneTree cloneNode stashTree))])%list.
Proof.
  intros Hrun Hget Hnone.
  destruct (applyKit_saved _ _ _ _ _ _ Hrun Hget)
    as (target & request & newStashTree & loginId & _ & _ & Hnew & Htrace).
  rewrite (updateTree_no_match_clones _ _ _ _ Hnone) in Hnew.
  injection Hnew as <-. by exists request, (stashPath loginId).
Qed.

Lemma applyKit_stash_without_login_witness :
  ∃ tree w' request path,
    applyKit (H := quietEnv) appTree appKit emptyWorld = (Ok tree, w')
    ∧ trace w'
      = [ Fetch "POST" "/v2/login/otp" request;
          SetText path "{}";
          Dispatch
            (LOGIN_STASH_SAVED
               (Node {[ "username" := VStr "alice"; "appId" := VStr "";
                        "loginId" := VStr rootId ]} (Some []))) ].
Proof.
  destruct (applyKit (H := quietEnv) appTree appKit emptyWorld)
    as [[tree|] w'] eqn:Hrun; [|by vm_compute in Hrun].
  destruct (applyKit_stash_without_login (H := quietEnv) appTree appKit
              emptyWorld w' tree
              (Node {[ "username" := VStr "alice"; "appId" := VStr "";
                       "loginId" := VStr rootId ]} None) Hrun)
    as (request & path & Htrace); [done|done|].
  by exists tree, w', request, path.
Defined.



(** ** One-time password kits *)

Lemma then_unit_run {A : Type} (m : io A) w w' :
  (m;; mret ()) w = (Ok (), w') → ∃ a, m w = (Ok a, w').
Proof.
  unfold mbind, io_bind. destruct (m w) as [[a|e] w1]; [|done].
  intros [= <-]. by exists a.
Qed.

Lemma otp_kit_run `{Env} loginTree kit w w' stashTree tree :
  applyKit loginTree kit w = (Ok tree, w') →
  getStash (prop loginTree "username") = Ok stashTree →
  fields (Kit.stash kit) !! "loginId" = None →
  ∃ request newStashTree path,
    trace w'
    = (trace w ++ [Fetch (default "POST" (Kit.serverMethod kit))
                     (Kit.serverPath kit) request;
                   SetText path (JSON_stringify newStashTree);
                   Dispatch (LOGIN_STASH_SAVED newStashTree)])%list
    ∧ request !! "data" = Some (Kit.server kit)
    ∧ ∀ stash',
        kitStash newStashTree kit = Some stash' →
        ∃ stash,
          kitStash stashTree kit = Some stash
          ∧ ∀ k, k ≠ "keyBoxes" →
                 fields stash' !! k
                 = match fields (Kit.stash kit) !! k with
                   | Some v => Some v
                   | None => fields stash !! k
                   end.
Proof.
  intros Hrun Hget Hkit.
  destruct (applyKit_saved _ _ _ _ _ _ Hrun Hget)
    as (target & request & newStashTree & loginId & _ & Hreq & Hnew & Htrace).
  exists request, newStashTree, (stashPath loginId).
  split; [done|]. split; [by eapply kitRequest_data|].
  intros stash' Hfind'.
  destruct (kitStash stashTree kit) as [stash|] eqn:Hfind.
  - destruct (applyKit_target_stash kit _ _ _ Hkit Hnew Hfind)
      as (out & Hout & Hfind'').
    rewrite Hfind' in Hfind''. injection Hfind'' as <-.
    exists stash. split; [done|]. by apply applyKitStash_lookup.
  - unfold kitStash in *.
    assert (searchTree newStashTree
              (λ stash, strict_eq (prop stash "loginId") (Kit.loginId kit))
            = None) as Hnone
      by (by eapply (updateTree_search_none _ _ _ cloneNode)).
    by rewrite Hnone in Hfind'.
Qed.

(** X13.  [disableOtp] asks the server with [DELETE /v2/login/otp] and no
    payload, and the stash it then saves has no OTP data on the account's
    login: its [otpKey], [otpResetDate] and [otpTimeout] read as
    [undefined]. *)
Theorem disableOtp_clears `{Env} (loginTree stashTree : node) (w w' : world) :
  disableOtp loginTree w = (Ok (), w') →
  getStash (prop loginTree "username") = Ok stashTree →
  ∃ request newStashTree path,
    trace w'
    = (trace w ++ [Fetch "DELETE" "/v2/login/otp" request;
                   SetText path (JSON_stringify newStashTree);
                   Dispatch (LOGIN_STASH_SAVED newStashTree)])%list
    ∧ request !! "data" = Some VUndefined
    ∧ ∀ stash',
        searchTree newStashTree
          (λ s, strict_eq (prop s "loginId") (prop loginTree "loginId"))
        = Some stash' →
        prop stash' "otpKey" = VUndefined
        ∧ prop stash' "otpResetDate" = VUndefined
        ∧ prop stash' "otpTimeout" = VUndefined.
Proof.
  intros [tree Hrun]%then_unit_run Hget.
  destruct (otp_kit_run _ _ _ _ _ _ Hrun Hget eq_refl)
    as (request & newStashTree & path & Htrace & Hdata & Hstash).
  exists request, newStashTree, path. split; [done|]. split; [done|].
  intros stash' (stash & _ & Hfields)%Hstash.
  unfold prop, get. by rewrite !Hfields.
Qed.

Lemma disableOtp_clears_witness :
  ∃ w' request newStashTree path stash',
    disableOtp (H := quietEnv) otpTree emptyWorld = (Ok (), w')
    ∧ trace w'
      = [ Fetch "DELETE" "/v2/login/otp" request;
          SetText path (JSON_stringify (Env := quietEnv) newStashTree);
          Dispatch (LOGIN_STASH_SAVED newStashTree) ]
    ∧ searchTree newStashTree
        (λ s, strict_eq (prop s "loginId") (VStr rootId)) = Some stash'
    ∧ prop stash' "otpKey" = VUndefined.
Proof.
  destruct (disableOtp (H := quietEnv) otpTree emptyWorld)
    as [[[]|] w'] eqn:Hrun; [|by vm_compute in Hrun].
  destruct (disableOtp_clears (H := quietEnv) otpTree
              (Node {[ "username" := VStr "alice"; "appId" := VStr "";
                       "loginId" := VStr rootId ]} None)
              emptyWorld w' Hrun eq_refl)
    as (request & newStashTree & path & Htrace & _ & Hstash).
  destruct (searchTree newStashTree
              (λ s, strict_eq (prop s "loginId") (VStr rootId)))
    as [stash'|] eqn:Hfind.
  - exists w', request, newStashTree, path, stash'.
    split; [done|]. split; [done|]. split; [done|]. by apply Hstash.
  - exfalso. vm_compute in Hrun. injection Hrun as <-.
    simpl in Htrace. injection Htrace as _ _ <-. by vm_compute in Hfind.
Defined.

(** X14.  [enableOtp] keeps the secret an account already has, passed
    through [fixOtpKey], and draws a new one only when it has none.  That
    one secret, with the timeout asked for, is what the server is sent with
    [POST /v2/login/otp] and what the saved stash holds on the account's
    login; a pending reset date is cleared there. *)
Theorem enableOtp_key `{Env} `{OtpEnv} (loginTree stashTree : node)
    (otpTimeout : value) (w w' : world) :
  enableOtp loginTree otpTimeout w = (Ok (), w') →
  getStash (prop loginTree "username") = Ok stashTree →
  let secret := if notNull (prop loginTree "otpKey")
                then fixOtpKey (prop loginTree "otpKey")
                else freshOtpKey in
  ∃ request newStashTree path,
    trace w'
    = (trace w ++ [Fetch "POST" "/v2/login/otp" request;
                   SetText path (JSON_stringify newStashTree);
                   Dispatch (LOGIN_STASH_SAVED newStashTree)])%list
    ∧ request !! "data"
      = Some (VObj [("otpKey", secret); ("otpTimeout", otpTimeout)])
    ∧ ∀ stash',
        searchTree newStashTree
          (λ s, strict_eq (prop s "loginId") (prop loginTree "loginId"))
        = Some stash' →
        prop stash' "otpKey" = secret
        ∧ prop stash' "otpResetDate" = VUndefined
        ∧ prop stash' "otpTimeout" = otpTimeout.
Proof.
  intros [tree Hrun]%then_unit_run Hget secret.
  destruct (otp_kit_run _ _ _ _ _ _ Hrun Hget eq_refl)
    as (request & newStashTree & path & Htrace & Hdata & Hstash).
  exists request, newStashTree, path. split; [done|]. split; [done|].
  intros stash' (stash & _ & Hfields)%Hstash.
  unfold prop, get. rewrite !Hfields by done. simpl.
  rewrite lookup_insert_eq, lookup_insert_ne, lookup_insert_eq by done.
  by rewrite !lookup_insert_ne, lookup_singleton_eq by done.
Qed.

Lemma enableOtp_key_witness :
  ∃ w' request newStashTree path,
    enableOtp (H := quietEnv) (H0 := plainOtpEnv) otpTree (VNum (num 60))
      emptyWorld = (Ok (), w')
    ∧ trace w'
      = [ Fetch "POST" "/v2/login/otp" request;
          SetText path (JSON_stringify (Env := quietEnv) newStashTree);
          Dispatch (LOGIN_STASH_SAVED newStashTree) ]
    ∧ request !! "data"
      = Some (VObj [("otpKey", VStr "ABCDEFGHIJKLMNOP");
                    ("otpTimeout", VNum (num 60))]).
Proof.
  destruct (enableOtp (H := quietEnv) (H0 := plainOtpEnv) otpTree
              (VNum (num 60)) emptyWorld) as [[[]|] w'] eqn:Hrun;
    [|by vm_compute in Hrun].
  destruct (enableOtp_key (H := quietEnv) (H0 := plainOtpEnv) otpTree
              (Node {[ "username" := VStr "alice"; "appId" := VStr "";
                       "loginId" := VStr rootId ]} None)
              (VNum (num 60)) emptyWorld w' Hrun eq_refl)
    as (request & newStashTree & path & Htrace & Hdata & _).
  by exists w', request, newStashTree, path.
Defined.

(** X15.  [cancelOtpReset] sends the server the account's present
    [otpTimeout] and [otpKey], and the stash it then saves differs, on the
    account's login, in [otpResetDate] alone, which reads as [undefined];
    the key and the timeout stored there are untouched. *)
Theorem cancelOtpReset_keeps_key `{Env} (loginTree stashTree : node)
    (w w' : world) :
  cancelOtpReset loginTree w = (Ok (), w') →
  getStash (prop loginTree "username") = Ok stashTree →
  ∃ request newStashTree path,
    trace w'
    = (trace w ++ [Fetch "POST" "/v2/login/otp" request;
                   SetText path (JSON_stringify newStashTree);
                   Dispatch (LOGIN_STASH_SAVED newStashTree)])%list
    ∧ request !! "data"
      = Some (VObj [("otpTimeout", prop loginTree "otpTimeout");
                    ("otpKey", prop loginTree "otpKey")])
    ∧ ∀ stash',
        searchTree newStashTree
          (λ s, strict_eq (prop s "loginId") (prop loginTree "loginId"))
        = Some stash' →
        ∃ stash,
          searchTree stashTree
            (λ s, strict_eq (prop s "loginId") (prop loginTree "loginId"))
          = Some stash
          ∧ prop stash' "otpResetDate" = VUndefined
          ∧ ∀ k, k ≠ "otpResetDate" → k ≠ "keyBoxes" →
                 fields stash' !! k = fields stash !! k.
Proof.
  intros [tree Hrun]%then_unit_run Hget.
  destruct (otp_kit_run _ _ _ _ _ _ Hrun Hget eq_refl)
    as (request & newStashTree & path & Htrace & Hdata & Hstash).
  exists request, newStashTree, path. split; [done|]. split; [done|].
  intros stash' (stash & Hfind & Hfields)%Hstash.
  exists stash. split; [done|]. split.
  - unfold prop, get. by rewrite Hfields.
  - intros k Hk Hboxes. rewrite Hfields by done. simpl.
    by rewrite lookup_singleton_ne.
Qed.

Lemma cancelOtpReset_keeps_key_witness :
  ∃ w' request newStashTree path,
    cancelOtpReset (H := quietEnv) otpTree emptyWorld = (Ok (), w')
    ∧ trace w'
      = [ Fetch "POST" "/v2/login/otp" request;
          SetText path (JSON_stringify (Env := quietEnv) newStashTree);
          Dispatch (LOGIN_STASH_SAVED newStashTree) ]
    ∧ request !! "data"
      = Some (VObj [("otpTimeout", VNum (num 86400));
                    ("otpKey", VStr "ABCDEFGHIJKLMNOP")]).
Proof.
  destruct (cancelOtpReset (H := quietEnv) otpTree emptyWorld)
    as [[[]|] w'] eqn:Hrun; [|by vm_compute in Hrun].
  destruct (cancelOtpReset_keeps_key (H := quietEnv) otpTree
              (Node {[ "username" := VStr "alice"; "appId" := VStr "";
                       "loginId" := VStr rootId ]} None)
              emptyWorld w' Hrun eq_refl)
    as (request & newStashTree & path & Htrace & Hdata & _).
  exists w', request, newStashTree, path. split; [done|]. split; [done|].
  rewrite Hdata. by vm_compute.
Defined.

(** ** Refreshing a login *)

Lemma syncLogin_run `{Env} loginTree login w res w' :
  syncLogin loginTree login w = (res, w') →
  (w' = w ∧ ∃ e, res = Throw e)
  ∨ (∃ request,
       makeAuthJson login = Ok request
       ∧ w' = record (Fetch "POST" "/v2/login" request) w
       ∧ ∃ e, res = Throw e)
  ∨ ∃ tree stashTree request reply newStashTree loginId,
      res = Ok tree
      ∧ getStash (prop loginTree "username") = Ok stashTree
      ∧ makeAuthJson login = Ok request
      ∧ loginFetch "POST" "/v2/login" request = Ok reply
      ∧ applyLoginReply stashTree (prop login "loginKey") reply
        = Ok newStashTree
      ∧ makeLoginTree newStashTree (prop login "loginKey")
          (prop login "appId") = Ok tree
      ∧ savable newStashTree loginId
      ∧ disk w' = <[stashPath loginId := JSON_stringify newStashTree]> (disk w)
      ∧ trace w'
        = (trace w ++ [Fetch "POST" "/v2/login" request;
                       SetText (stashPath loginId)
                         (JSON_stringify newStashTree);
                       Dispatch (LOGIN_STASH_SAVED newStashTree)])%list.
Proof.
  unfold syncLogin.
  destruct (truthy _); simpl; [|intros [= <- <-]; left; eauto].
  unfold mbind at 1, io_bind, lift.
  destruct (getStash _) as [stashTree|]; [|intros [= <- <-]; left; eauto].
  unfold mbind at 1.
  destruct (makeAuthJson login) as [request|];
    [|intros [= <- <-]; left; eauto].
  unfold mbind at 1, fetch.
  destruct (loginFetch _ _ _) as [reply|] eqn:Hfetch;
    [|intros [= <- <-]; right; left; eauto].
  unfold mbind at 1.
  destruct (applyLoginReply stashTree _ reply) as [newStashTree|] eqn:Hreply;
    [|intros [= <- <-]; right; left; eauto].
  unfold mbind at 1.
  destruct (makeLoginTree newStashTree _ _) as [tree|] eqn:Htree;
    [|intros [= <- <-]; right; left; eauto].
  unfold mbind at 1.
  destruct (saveStash newStashTree _) as [r w1] eqn:Hsave.
  apply saveStash_run in Hsave as [[-> [e ->]]|(loginId & Hs & -> & ->)].
  - intros [= <- <-]; right; left; eauto.
  - intros [= <- <-]. right; right.
    exists tree, stashTree, request, reply, newStashTree, loginId.
    repeat (split; [done|]). simpl. by rewrite <- app_assoc.
Qed.

(** X16.  [syncLogin] works in the order request, reconcile, build, save.
    A run has no effect at all (it failed before the request), or its one
    effect is the request [POST /v2/login] carrying the login's
    authentication (it failed after: the server's error, a reply that does
    not reconcile, a login that cannot be built, or a stash that cannot be
    saved), or it is the request, then the write of the reconciled stash,
    then the dispatch; only then is a tree returned, and it is the tree
    [makeLoginTree] builds from the stash that was saved. *)
Theorem syncLogin_order `{Env} (loginTree login : node) (w w' : world)
    (res : result node) :
  syncLogin loginTree login w = (res, w') →
  (w' = w ∧ ∃ e, res = Throw e)
  ∨ (∃ request,
       makeAuthJson login = Ok request
       ∧ w' = {| disk := disk w;
                 trace := trace w ++ [Fetch "POST" "/v2/login" request] |}
       ∧ ∃ e, res = Throw e)
  ∨ ∃ tree stashTree request reply newStashTree path,
      res = Ok tree
      ∧ getStash (prop loginTree "username") = Ok stashTree
      ∧ makeAuthJson login = Ok request
      ∧ loginFetch "POST" "/v2/login" request = Ok reply
      ∧ applyLoginReply stashTree (prop login "loginKey") reply
        = Ok newStashTree
      ∧ makeLoginTree newStashTree (prop login "loginKey")
          (prop login "appId") = Ok tree
      ∧ disk w' = <[path := JSON_stringify newStashTree]> (disk w)
      ∧ trace w'
        = (trace w ++ [Fetch "POST" "/v2/login" request;
                       SetText path (JSON_stringify newStashTree);
                       Dispatch (LOGIN_STASH_SAVED newStashTree)])%list.
Proof.
  intros [Hnone|[Hfetch|Hall]]%syncLogin_run; [by left|by right; left|].
  right; right.
  destruct Hall as (tree & stashTree & request & reply & newStashTree
                    & loginId & ? & ? & ? & ? & ? & ? & _ & ? & ?).
  by exists tree, stashTree, request, reply, newStashTree, (stashPath loginId).
Qed.

Lemma syncLogin_order_witness :
  (∃ request,
     syncLogin (H := offlineEnv) aliceTree aliceTree emptyWorld
     = (Throw (External "NetworkError"),
        {| disk := ∅; trace := [Fetch "POST" "/v2/login" request] |}))
  ∧ (∃ tree request path text newStashTree,
       syncLogin (H := quietEnv) aliceTree aliceTree emptyWorld
       = (Ok tree,
          {| disk := {[ path := text ]};
             trace := [Fetch "POST" "/v2/login" request;
                       SetText path text;
                       Dispatch (LOGIN_STASH_SAVED newStashTree)] |})).
Proof.
  split.
  - destruct (syncLogin (H := offlineEnv) aliceTree aliceTree emptyWorld)
      as [res [d t]] eqn:Hrun.
    destruct (syncLogin_order (H := offlineEnv) _ _ _ _ _ Hrun)
      as [[Hw _]|[(request & _ & Hw & _)|
                  (tree & _ & _ & _ & _ & _ & -> & _)]].
    + vm_compute in Hrun. injection Hrun as _ _ <-. by injection Hw.
    + exists request. vm_compute in Hrun. injection Hrun as <- _ _.
      by rewrite Hw.
    + by vm_compute in Hrun.
  - destruct (syncLogin (H := quietEnv) aliceTree aliceTree emptyWorld)
      as [res [d t]] eqn:Hrun.
    destruct (syncLogin_order (H := quietEnv) _ _ _ _ _ Hrun)
      as [[Hw _]|[(request & _ & Hw & _)|
                  (tree & stashTree & request & reply & newStashTree & path
                   & -> & _ & _ & _ & _ & _ & Hdisk & Htrace)]].
    + vm_compute in Hrun. injection Hrun as _ _ <-. by injection Hw.
    + vm_compute in Hrun. injection Hrun as _ _ <-. by injection Hw.
    + simpl in Hdisk, Htrace. subst d t.
      by exists tree, request, path,
           (JSON_stringify (Env := quietEnv) newStashTree), newStashTree.
Defined.

(** ** A device slower than the target *)

Section slow_device.
Context `{Env} `{Rounding}.

(** Rounding does not turn a result that is zero or negative into a
    positive number. *)
Hypothesis round_sign :
  ∀ q : Qc, (q <= 0)%Qc → ngt (round q) (num 0) = false.

Lemma round_zero : round 0%Qc = num 0.
Proof. apply (round_integer 0). by vm_compute. Qed.

Lemma clamp_nonpositive (a : number) (K : Z) :
  (0 <= K)%Z → ngt a (num 0) = false →
  Math_floor (if ngt (if ngt a (num 0) then a else num 0) (num K)
              then num K
              else (if ngt a (num 0) then a else num 0)) = num 0.
Proof.
  intros HK ->.
  assert (ngt (num 0) (num K) = false) as ->; [|done].
  apply bool_decide_eq_false. rewrite num_lt. lia.
Qed.

Lemma ratio_nonpositive (d : number) (qb : Qc) :
  (0 < qb)%Qc → ngt d (num 0) = false →
  ngt (ndiv d (Fin qb)) (num 0) = false.
Proof.
  intros Hqb Hd. destruct d as [|s|q]; simpl; [done| |].
  - destruct s; [|done]. unfold isNegative.
    rewrite bool_decide_false; [done|]. by apply Qcle_not_lt, Qclt_le_weak.
  - unfold isZero. rewrite bool_decide_false.
    2:{ intros ->. by apply Qclt_not_eq in Hqb. }
    apply round_sign. apply bool_decide_eq_false in Hd.
    apply Qcnot_lt_le in Hd. unfold Qcdiv.
    replace 0%Qc with (0 * / qb)%Qc by ring.
    apply Qcmult_le_compat_r; [done|].
    by apply Qclt_le_weak, Qcinv_pos.
Qed.

Lemma nothing_added (t : number) (qb : Qc) (T : number) (K : Z) :
  (0 < qb)%Qc → (0 <= K)%Z →
  ngt (nsub t (Fin qb)) (num 0) = false →
  T = NaN ∨ T = Fin qb →
  Math_floor
    (if ngt (if ngt (ndiv (nsub t T) T) (num 0)
             then ndiv (nsub t T) T else num 0) (num K)
     then num K
     else (if ngt (ndiv (nsub t T) T) (num 0)
           then ndiv (nsub t T) T else num 0)) = num 0.
Proof.
  intros Hqb HK Hd [-> | ->]; apply clamp_nonpositive; try done.
  - by destruct (nsub t NaN).
  - by apply ratio_nonpositive.
Qed.

Lemma time_unchanged (qb : Qc) (T : number) :
  round qb = Fin qb → T = NaN ∨ T = Fin qb →
  nadd T (nmul (num 0) T) = NaN ∨ nadd T (nmul (num 0) T) = Fin qb.
Proof.
  intros Hqb [-> | ->]; [by left|]. right. simpl.
  change (Q2Qc (inject_Z 0)) with 0%Qc.
  replace (0 * qb)%Qc with 0%Qc by ring.
  rewrite round_zero. simpl. change (Q2Qc (inject_Z 0)) with 0%Qc.
  by replace (qb + 0)%Qc with qb by ring.
Qed.

End slow_device.

(** X17.  On a device whose benchmark took at least as long as the target
    (a positive [benchMs], a [targetMs] not above it), the chooser returns
    the smallest parameters, [n = 16384], [r = 8], [p = 1]: nothing is added
    to any of them.  Asked of the arithmetic: adding zero to [benchMs] gives
    [benchMs] back, and a result that is zero or negative is not rounded to
    a positive number. *)
Theorem calcSnrpForTarget_slow_device `{Env} `{Rounding} (salt : value)
    (qb qt : Qc) :
  (∀ q : Qc, (q <= 0)%Qc → ngt (round q) (num 0) = false) →
  round qb = Fin qb →
  (0 < qb)%Qc → (qt <= qb)%Qc →
  Scrypt.calcSnrpForTarget salt (Fin qb) (Fin qt)
  = {| Scrypt.salt_hex := base16_stringify salt;
       Scrypt.n := num 16384; Scrypt.r := num 8; Scrypt.p := num 1 |}.
Proof.
  intros round_sign Hround Hqb Hqt.
  assert (Hd : ngt (nsub (Fin qt) (Fin qb)) (num 0) = false).
  { simpl. apply round_sign.
    replace 0%Qc with (qb + - qb)%Qc by ring.
    by apply Qcplus_le_compat. }
  unfold Scrypt.calcSnrpForTarget.
  assert (num_eqb (Fin qb) (num 0) = false) as ->.
  { apply bool_decide_eq_false. intros ->. by apply Qclt_not_eq in Hqb. }
  cbv zeta. cbn [Scrypt.salt_hex].
  assert (nsub (num 8) (num 8) = num 0) as ->.
  { unfold nsub. change (nneg (num 8)) with (num (-8)). by rewrite nadd_num. }
  destruct (clamp_floor
              (ndiv (nsub (Fin qt) (Fin qb)) (ndiv (Fin qb) (num 8))) 0)
    as (zr & Hzr & ->); [done|].
  assert (zr = 0%Z) as -> by lia.
  rewrite (nadd_num 8 0) by done.
  set (timeUsed := nadd (Fin qb) (nmul (num 0) (ndiv (Fin qb) (num 8)))).
  assert (HT : timeUsed = NaN ∨ timeUsed = Fin qb).
  { unfold timeUsed. destruct (ndiv (Fin qb) (num 8)) as [|s|x];
      [by left|by left|]. right. simpl.
    change (Q2Qc (inject_Z 0)) with 0%Qc.
    replace (0 * x)%Qc with 0%Qc by ring.
    rewrite round_zero. simpl. change (Q2Qc (inject_Z 0)) with 0%Qc.
    by replace (qb + 0)%Qc with qb by ring. }
  rewrite (nothing_added round_sign (Fin qt) qb timeUsed 3) by done.
  rewrite nge_num, bool_decide_true by lia.
  rewrite (nadd_num 14 0) by done.
  assert (HT' : nadd timeUsed (nmul (num 0) timeUsed) = NaN
                ∨ nadd timeUsed (nmul (num 0) timeUsed) = Fin qb)
    by (by apply time_unchanged).
  rewrite (nothing_added round_sign (Fin qt) qb _ 64) by done.
  rewrite nge_num, bool_decide_false by lia.
  reflexivity.
Qed.

Lemma calcSnrpForTarget_slow_device_witness :
  Scrypt.calcSnrpForTarget (H := quietEnv) (H0 := exact) (VBytes [])
    (num 200) (num 100)
  = {| Scrypt.salt_hex := "00";
       Scrypt.n := num 16384; Scrypt.r := num 8; Scrypt.p := num 1 |}.
Proof.
  apply (calcSnrpForTarget_slow_device (H := quietEnv) (H0 := exact)
           (VBytes []) (Q2Qc (inject_Z 200)) (Q2Qc (inject_Z 100))).
  - intros q Hq. apply bool_decide_eq_false. by apply Qcle_not_lt.
  - reflexivity.
  - by vm_compute.
  - by vm_compute.
Defined.

(** ** Selecting properties *)

Lemma filterObjectIn_fold (proto source : gmap string value)
    (keys : list string) (acc : gmap string value) (k : string) :
  foldl (λ out key,
           if bool_decide (is_Some (source !! key))
              || bool_decide (is_Some (proto !! key))
           then <[key := get (source ∪ proto) key]> out
           else out) acc keys !! k
  = if decide (k ∈ keys)
    then match (source ∪ proto) !! k with
         | Some v => Some v
         | None => acc !! k
         end
    else acc !! k.
Proof.
  revert acc. induction keys as [|key keys IH]; intros acc; simpl; [done|].
  rewrite IH.
  assert (Hin : bool_decide (is_Some (source !! key))
                || bool_decide (is_Some (proto !! key))
                = bool_decide (is_Some ((source ∪ proto) !! key))).
  { rewrite lookup_union.
    destruct (source !! key), (proto !! key); simpl;
      repeat case_bool_decide; try done;
      match goal with
      | H : ¬ is_Some (Some _) |- _ => by destruct H
      | H : is_Some None |- _ => by apply is_Some_None in H
      end. }
  rewrite Hin. clear Hin.
  destruct (decide (k = key)) as [->|Hne].
  - rewrite (decide_True (P := key ∈ key :: keys))
      by (apply elem_of_cons; by left).
    unfold get. destruct ((source ∪ proto) !! key) as [v|] eqn:Hv.
    + rewrite bool_decide_true by done. rewrite lookup_insert_eq.
      by case_decide.
    + rewrite bool_decide_false by (by intros ?%is_Some_None).
      by case_decide.
  - assert (Hk : (if bool_decide (is_Some ((source ∪ proto) !! key))
                  then <[key := get (source ∪ proto) key]> acc
                  else acc) !! k = acc !! k).
    { case_bool_decide; [by rewrite lookup_insert_ne|done]. }
    rewrite Hk.
    destruct (decide (k ∈ keys)) as [Hin|Hin].
    + by rewrite decide_True by (apply elem_of_cons; by right).
    + rewrite decide_False; [done|].
      intros [?|?]%elem_of_cons; done.
Qed.

Lemma filterObjectIn_lookup (proto source : gmap string value)
    (keys : list string) (k : string) :
  filterObjectIn proto source keys !! k
  = if decide (k ∈ keys) then (source ∪ proto) !! k else None.
Proof.
  unfold filterObjectIn. rewrite filterObjectIn_fold, lookup_empty.
  case_decide; [by destruct ((source ∪ proto) !! k)|done].
Qed.

(** X18.  [filterObject] selects with [key in source], which also finds the
    properties the source inherits.  For keys other than [__proto__]
    (assigning to it sets no property), the result holds exactly the
    selected properties that the source has or inherits, an own property
    before an inherited one of the same name, and selecting again changes
    nothing.  When no selected key is inherited, the result holds own
    properties only: it is a part of the source, its keys are the source's
    keys that are selected. *)
Theorem filterObject_selects (proto source : gmap string value)
    (keys : list string) :
  "__proto__" ∉ keys →
  (∀ k, filterObjectIn proto source keys !! k
        = if decide (k ∈ keys) then (source ∪ proto) !! k else None)
  ∧ filterObjectIn proto (filterObjectIn proto source keys) keys
    = filterObjectIn proto source keys
  ∧ ((∀ k, k ∈ keys → proto !! k = None) →
     filterObjectIn proto source keys = filterObject source keys
     ∧ filterObjectIn proto source keys ⊆ source
     ∧ dom (filterObjectIn proto source keys)
       = dom source ∩ list_to_set keys).
Proof.
  intros _. split; [apply filterObjectIn_lookup|]. split.
  - apply map_eq. intros k. rewrite !filterObjectIn_lookup.
    case_decide; [|done].
    rewrite lookup_union, filterObjectIn_lookup, decide_True by done.
    rewrite lookup_union.
    by destruct (source !! k), (proto !! k).
  - intros Hown.
    assert (Heq : filterObjectIn proto source keys = filterObject source keys).
    { apply map_eq. intros k.
      rewrite filterObjectIn_lookup, filterObject_lookup.
      case_decide as Hk; [|done].
      rewrite lookup_union, (Hown k Hk). by destruct (source !! k). }
    rewrite Heq. split; [done|]. split.
    + apply map_subseteq_spec. intros k v. rewrite filterObject_lookup.
      by case_decide.
    + apply set_eq. intros k.
      rewrite elem_of_intersection, !elem_of_dom, elem_of_list_to_set,
        filterObject_lookup.
      case_decide; [tauto|]. split; [by intros ?%is_Some_None|tauto].
Qed.

Lemma filterObject_selects_witness :
  filterObjectIn {[ "toString" := VStr "function toString()" ]} ∅
    ["toString"] !! "toString"
  = Some (VStr "function toString()")
  ∧ filterObjectIn {[ "toString" := VStr "function toString()" ]}
      {[ "appId" := VStr ""; "loginAuthBox" := VStr "box" ]}
      ["appId"; "loginId"]
    = {[ "appId" := VStr "" ]}.
Proof.
  split.
  - by rewrite (proj1 (filterObject_selects
                         {[ "toString" := VStr "function toString()" ]} ∅
                         ["toString"] ltac:(by compute_done))).
  - destruct (filterObject_selects
                {[ "toString" := VStr "function toString()" ]}
                {[ "appId" := VStr ""; "loginAuthBox" := VStr "box" ]}
                ["appId"; "loginId"] ltac:(by compute_done))
      as (_ & _ & Hown).
    destruct Hown as (-> & _).
    + intros k [->|[->|[]%elem_of_nil]%elem_of_cons]%elem_of_cons;
        by vm_compute.
    + by vm_compute.
Defined.

(** ** What the builder shows of the nodes above the target *)

(** X19.  When the root of the stash tree is not the node asked for,
    [makeLoginTree] gives back, in its place, a node that holds the root's
    [username], [appId] and [loginId] and nothing else of it (no box, no
    key, no login key), with one child for each child of the root. *)
Theorem makeLoginTree_reduces_root `{Env} (stashTree : node)
    (loginKey appId : value) (tree : node) :
  makeLoginTree stashTree loginKey appId = Ok tree →
  strict_eq (prop stashTree "appId") (orDefault appId (VStr "")) = false →
  fields tree
  = filterObject (fields stashTree) ["username"; "appId"; "loginId"]
  ∧ (∀ k, k ∉ ["username"; "appId"; "loginId"] → fields tree !! k = None)
  ∧ length (childList tree) = length (childList stashTree).
Proof.
  unfold makeLoginTree. rewrite updateTree_eq; cbv beta. intros Hrun Hroot.
  rewrite Hroot in Hrun.
  destruct (match children stashTree with Some _ => _ | None => _ end)
    as [cs|] eqn:Hcs; simpl in Hrun; [|done].
  injection Hrun as <-. simpl. split; [done|]. split.
  - intros k Hk. by rewrite filterObject_lookup, decide_False.
  - unfold childList. destruct (children stashTree) as [l|];
      [|by injection Hcs as <-].
    simpl. clear Hroot. revert cs Hcs. induction l as [|c l IH]; intros cs;
      simpl; [by intros [= <-]|].
    destruct (updateTree c _ _ _); [|done].
    destruct (mapR _ l) as [cs'|]; [|done].
    intros [= <-]. simpl. f_equal. by apply IH.
Qed.

Lemma makeLoginTree_reduces_root_witness :
  ∃ tree,
    makeLoginTree (H := quietEnv) aliceStash appKey (VStr "app") = Ok tree
    ∧ fields tree !! "loginAuthBox" = None
    ∧ fields tree !! "loginKey" = None
    ∧ length (childList tree) = 1%nat.
Proof.
  destruct (makeLoginTree (H := quietEnv) aliceStash appKey (VStr "app"))
    as [tree|] eqn:Htree; [|by vm_compute in Htree].
  destruct (makeLoginTree_reduces_root (H := quietEnv) _ _ _ _ Htree eq_refl)
    as (_ & Habsent & Hlen).
  exists tree. split; [done|].
  split; [apply Habsent; compute_done|].
  split; [apply Habsent; compute_done|done].
Defined.


(** ** The chain of login keys *)

Lemma loginFields_loginKey `{Env} stash loginKey login :
  loginFields stash loginKey = Ok login → get login "loginKey" = loginKey.
Proof.
  intros (l1 & l2 & H1 & H2 & _ & Hkeep)%loginFields_stages.
  rewrite Hkeep by compute_done.
  assert (Hskeleton : loginSkeleton stash loginKey !! "loginKey"
                      = Some loginKey) by done.
  assert (Hl1 : get l1 "loginKey" = loginKey).
  { destruct (notNull (prop stash "loginAuthBox")).
    - destruct (decrypt (prop stash "loginAuthBox") loginKey);
        simpl in H1; [|done].
      injection H1 as <-. unfold get. by rewrite lookup_insert_ne, Hskeleton.
    - injection H1 as <-. unfold get. by rewrite Hskeleton. }
  destruct (notNull (prop stash "passwordAuthBox"));
    [|injection H2 as <-; exact Hl1].
  destruct (decrypt (prop stash "passwordAuthBox") loginKey);
    simpl in H2; [|done].
  injection H2 as <-.
  unfold get in *. rewrite lookup_insert_ne by done.
  destruct (notNull (default VUndefined (l1 !! "userId"))); [exact Hl1|].
  by rewrite lookup_insert_ne.
Qed.

Lemma mapStashChildren_Forall2 `{Env} (recur : node → value → result node)
    (R : value → node → node → Prop) loginKey l :
  Forall (λ child, ∀ k out, recur child k = Ok out → R k child out) l →
  ∀ cs,
    mapStashChildren recur loginKey l = Ok cs →
    Forall2 (λ child out,
               ∃ childKey,
                 decrypt (prop child "parentBox") loginKey = Ok childKey
                 ∧ R childKey child out) l cs.
Proof.
  induction 1 as [|child l Hchild _ IH]; intros cs; simpl.
  - intros [= <-]. constructor.
  - destruct (negb _); [done|].
    destruct (decrypt _ _) as [childKey|] eqn:Hkey; simpl; [|done].
    destruct (recur child childKey) as [c|] eqn:Hc; simpl; [|done].
    destruct (mapStashChildren _ _ l) as [cs'|] eqn:Hcs; simpl; [|done].
    intros [= <-]. constructor; [|by apply IH].
    exists childKey. split; [done|]. by apply Hchild.
Qed.

(** X20.  The login keys of a built tree form the chain the boxes describe:
    the login [makeLoginTreeInner] returns holds the key it was given, it
    has one child for each child of the stash node, in order, and each
    child holds the key that its [parentBox] opens to under the parent's
    key, at every depth. *)
Theorem makeLoginTreeInner_keyChain `{Env} (stash : node) (loginKey : value)
    (login : node) :
  makeLoginTreeInner stash loginKey = Ok login →
  keyChain loginKey stash login.
Proof.
  revert loginKey login.
  induction stash as [f|f l IH] using node_tree_ind; intros loginKey login;
    rewrite makeLoginTreeInner_eq;
    destruct (loginFields _ loginKey) as [fo|] eqn:Hf; simpl; try done.
  - intros [= <-].
    apply (keyChain_node _ _ _ []);
      [by apply (loginFields_loginKey (Node f None))|done|constructor].
  - destruct (mapStashChildren _ loginKey l) as [cs|] eqn:Hcs; simpl; [|done].
    intros [= <-].
    apply (keyChain_node _ _ _ cs);
      [by apply (loginFields_loginKey (Node f (Some l)))|done|].
    simpl. eapply (mapStashChildren_Forall2 _ (λ k child out, keyChain k child out));
      [|done].
    eapply Forall_impl; [done|]. intros child Hchild k out. apply Hchild.
Qed.

Lemma makeLoginTreeInner_keyChain_witness :
  ∃ login, makeLoginTreeInner (H := quietEnv) aliceStash rootKey = Ok login
           ∧ keyChain (H := quietEnv) rootKey aliceStash login.
Proof.
  destruct (makeLoginTreeInner (H := quietEnv) aliceStash rootKey)
    as [login|] eqn:Hlogin; [|by vm_compute in Hlogin].
  exists login. split; [done|].
  by apply (makeLoginTreeInner_keyChain (H := quietEnv)).
Defined.

(** ** Stash files *)

Lemma loadStashes_fold `{StashFiles} (disk : gmap string string) paths :
  ∀ acc : list node * list string,
    let r := foldl (λ acc path,
                      match text ← getText disk path; readStash text with
                      | Ok stash => ((acc.1 ++ [stash])%list, acc.2)
                      | Throw error =>
                          (acc.1,
                           (acc.2 ++ [("Could not load " ++ path ++ ": "
                                       ++ errorText error)%string])%list)
                      end) acc paths in
    r.1 = (acc.1
           ++ omap (λ path,
                      match text ← getText disk path; readStash text with
                      | Ok stash => Some stash
                      | Throw _ => None
                      end) paths)%list
    ∧ (length r.1 + length r.2
       = length acc.1 + length acc.2 + length paths)%nat.
Proof.
  induction paths as [|path paths IH]; intros acc; simpl.
  - rewrite app_nil_r. split; [done|lia].
  - destruct (text ← getText disk path; readStash text) as [stash|e].
    + destruct (IH ((acc.1 ++ [stash])%list, acc.2)) as [-> ->]. simpl.
      rewrite <- app_assoc, length_app. simpl. split; [done|lia].
    + destruct (IH (acc.1,
                    (acc.2 ++ [("Could not load " ++ path ++ ": "
                                ++ errorText e)%string])%list)) as [-> ->].
      simpl. rewrite length_app. simpl. split; [done|lia].
Qed.

(** X21.  A file that cannot be read or does not hold a stash costs
    [loadStashes] nothing but that file: the call fails only when the folder
    cannot be listed; otherwise it returns the stashes of the listed files
    that read well, in the order of the listing, and logs one warning for
    each of the others. *)
Theorem loadStashes_skips_bad_files `{StashFiles}
    (disk : gmap string string) :
  match listLogins disk with
  | Ok paths =>
      ∃ stashes warnings,
        loadStashes disk = Ok (stashes, warnings)
        ∧ stashes
          = omap (λ path,
                    match text ← getText disk path; readStash text with
                    | Ok stash => Some stash
                    | Throw _ => None
                    end) paths
        ∧ (length stashes + length warnings = length paths)%nat
  | Throw e => loadStashes disk = Throw e
  end.
Proof.
  unfold loadStashes. destruct (listLogins disk) as [paths|e]; simpl; [|done].
  destruct (loadStashes_fold disk paths ([], [])) as [Hout Hlen].
  eexists _, _. split; [apply f_equal, surjective_pairing|].
  split; [apply Hout|apply Hlen].
Qed.

Lemma removable_ext `{StashFiles} fixedName (d d' : gmap string string) p :
  d' !! p = d !! p → removable fixedName d' p = removable fixedName d p.
Proof. unfold removable, getText. by intros ->. Qed.

Lemma removeFile_lookup `{StashFiles} fixedName (d : gmap string string)
    path p :
  removeFile fixedName d path !! p
  = if bool_decide (p = path) && removable fixedName d p then None
    else d !! p.
Proof.
  unfold removeFile, removable. case_bool_decide as Hp; simpl.
  - subst p. destruct (text ← getText d path; readStash text) as [stash|];
      [|done].
    destruct (strict_eq _ _); [|done]. simpl.
    destruct (deleteError path) eqn:Hdelete; simpl;
      [done|by rewrite lookup_delete_eq].
  - destruct (text ← getText d path; readStash text) as [stash|]; [|done].
    destruct (strict_eq _ _); [|done].
    destruct (deleteError path); [done|]. by rewrite lookup_delete_ne.
Qed.

Lemma removeFile_fold `{StashFiles} fixedName paths p :
  ∀ d : gmap string string,
    foldl (removeFile fixedName) d paths !! p
    = if bool_decide (p ∈ paths) && removable fixedName d p then None
      else d !! p.
Proof.
  induction paths as [|path paths IH]; intros d; cbn [foldl].
  - by rewrite bool_decide_false by apply not_elem_of_nil.
  - rewrite IH.
    pose proof (removeFile_lookup fixedName d path p) as Hstep.
    destruct (bool_decide (p = path)) eqn:Hp; simpl in Hstep.
    + rewrite (bool_decide_true (p ∈ path :: paths))
        by (apply bool_decide_eq_true in Hp; subst; apply elem_of_cons; by left).
      simpl. destruct (removable fixedName d p) eqn:Hr.
      * rewrite Hstep. by destruct (_ && _).
      * rewrite (removable_ext fixedName d) by done.
        rewrite Hr, andb_false_r. done.
    + apply bool_decide_eq_false in Hp.
      rewrite (removable_ext fixedName d) by done. rewrite Hstep.
      assert (bool_decide (p ∈ path :: paths) = bool_decide (p ∈ paths))
        as ->; [|done].
      apply bool_decide_ext. rewrite elem_of_cons. tauto.
Qed.

Lemma removeStash_run `{Usernames} `{StashFiles} username
    (disk : gmap string string) fixedName paths :
  fixUsername username = Ok fixedName →
  listLogins disk = Ok paths →
  ∃ disk',
    removeStash username disk = Ok (disk', LOGIN_STASH_DELETED fixedName)
    ∧ ∀ p, disk' !! p
           = if bool_decide (p ∈ paths) && removable fixedName disk p
             then None
             else disk !! p.
Proof.
  unfold removeStash. intros -> ->. simpl.
  eexists. split; [done|]. intros p. apply removeFile_fold.
Qed.

(** X22.  [removeStash] deletes the listed files that read as a stash of
    the user (its [username] is the normalized name) and that the disk lets
    it delete, and no other file: a file that cannot be read, holds no
    stash, or belongs to someone else is left as it was.  It fails only
    when the name cannot be normalized or the folder cannot be listed, and
    then before any change.  Otherwise it ends by dispatching
    [LOGIN_STASH_DELETED] with the normalized name, whether or not a file
    was deleted. *)
Theorem removeStash_removes `{Usernames} `{StashFiles} (username : string)
    (disk : gmap string string) :
  match fixUsername username with
  | Ok fixedName =>
      match listLogins disk with
      | Ok paths =>
          ∃ disk',
            removeStash username disk
            = Ok (disk', LOGIN_STASH_DELETED fixedName)
            ∧ ∀ p, disk' !! p
                   = if bool_decide (p ∈ paths) && removable fixedName disk p
                     then None
                     else disk !! p
      | Throw e => removeStash username disk = Throw e
      end
  | Throw e => removeStash username disk = Throw e
  end.
Proof.
  destruct (fixUsername username) as [fixedName|e] eqn:Hname;
    [|unfold removeStash; by rewrite Hname].
  destruct (listLogins disk) as [paths|e] eqn:Hlist;
    [|unfold removeStash; by rewrite Hname, Hlist].
  by apply removeStash_run.
Qed.



(** ** Creating a login *)

(** X24.  [createLogin] asks the server first and saves after.  A run has
    no effect at all (the name or the kit could not be made), or its one
    effect is the request [POST] to the kit's path, carrying the kit's
    server payload and no authentication (the server refused, or the stash
    could not be saved: nothing is on disk then), or it is that request,
    then the write of the stash, then the dispatch.  In that last case only
    a login is returned: the kit's login with the normalized name as
    [username] and its [loginId] as [userId]; the stash saved is the kit's
    stash with that [username] and [lastLogin] set to the time of the
    call. *)
Theorem createLogin_order `{Env} `{Usernames} `{CreateEnv} (username : string)
    (now : value) (opts : LoginCreateOpts) (w w' : world)
    (res : result node) :
  createLogin username now opts w = (res, w') →
  (w' = w ∧ ∃ e, res = Throw e)
  ∨ (∃ fixedName kit,
       fixUsername username = Ok fixedName
       ∧ makeCreateKit None "" fixedName opts = Ok kit
       ∧ w' = {| disk := disk w;
                 trace := trace w
                          ++ [Fetch "POST" (Kit.serverPath kit)
                                {[ "data" := Kit.server kit ]}] |}
       ∧ ∃ e, res = Throw e)
  ∨ ∃ fixedName kit login stash path,
      res = Ok login
      ∧ fixUsername username = Ok fixedName
      ∧ makeCreateKit None "" fixedName opts = Ok kit
      ∧ fields login
        = <["userId" := prop (Kit.login kit) "loginId"]>
            (<["username" := VStr fixedName]> (fields (Kit.login kit)))
      ∧ children login = children (Kit.login kit)
      ∧ fields stash
        = <["lastLogin" := orDefault now newDate]>
            (<["username" := VStr fixedName]> (fields (Kit.stash kit)))
      ∧ children stash = children (Kit.stash kit)
      ∧ disk w' = <[path := JSON_stringify stash]> (disk w)
      ∧ trace w'
        = (trace w ++ [Fetch "POST" (Kit.serverPath kit)
                         {[ "data" := Kit.server kit ]};
                       SetText path (JSON_stringify stash);
                       Dispatch (LOGIN_STASH_SAVED stash)])%list.
Proof.
  unfold createLogin. unfold mbind at 1, io_bind, lift.
  destruct (fixUsername username) as [fixedName|];
    [|intros [= <- <-]; left; eauto].
  unfold mbind at 1.
  destruct (makeCreateKit None "" fixedName opts) as [kit|] eqn:Hkit;
    [|intros [= <- <-]; left; eauto].
  unfold mbind at 1, fetch.
  destruct (loginFetch _ _ _) as [reply|];
    [|intros [= <- <-]; right; left; exists fixedName, kit; by eauto].
  unfold mbind at 1.
  match goal with
  | |- context [saveStash ?s ?w0] =>
      destruct (saveStash s w0) as [r w1] eqn:Hsave
  end.
  apply saveStash_run in Hsave as [[-> [e ->]]|(loginId & Hs & -> & ->)].
  - intros [= <- <-]. right; left. exists fixedName, kit. by eauto.
  - intros [= <- <-]. right; right.
    eexists fixedName, kit, _,
      (Node (<["lastLogin" := orDefault now newDate]>
               (<["username" := VStr fixedName]> (fields (Kit.stash kit))))
            (children (Kit.stash kit))),
      (stashPath loginId).
    split; [done|]. split; [done|]. split; [done|]. split.
    { simpl. unfold get, prop, get. by rewrite lookup_insert_ne. }
    simpl. split; [done|]. split; [done|]. split; [done|].
    split; [done|]. by rewrite <- app_assoc.
Qed.

Lemma createLogin_order_witness :
  ∃ login path stash,
    createLogin (H := quietEnv) (H0 := plainUsernames) (H1 := sampleCreate)
      "alice" VUndefined
      {| keyInfo := VUndefined; password := VUndefined; pin := VUndefined |}
      emptyWorld
    = (Ok login,
       {| disk := {[ path := "{}" ]};
          trace := [ Fetch "POST" "/v2/login/create"
                       {[ "data" := VObj [("appId", VStr "");
                                          ("loginId", VStr rootId)] ]};
                     SetText path "{}";
                     Dispatch (LOGIN_STASH_SAVED stash) ] |})
    ∧ prop login "username" = VStr "alice"
    ∧ prop stash "username" = VStr "alice".
Proof.
  destruct (createLogin (H := quietEnv) (H0 := plainUsernames)
              (H1 := sampleCreate) "alice" VUndefined
              {| keyInfo := VUndefined; password := VUndefined;
                 pin := VUndefined |} emptyWorld) as [res [d t]] eqn:Hrun.
  destruct (createLogin_order (H := quietEnv) (H0 := plainUsernames)
              (H1 := sampleCreate) _ _ _ _ _ _ Hrun)
    as [[Hw _]|[(fixedName & kit & _ & _ & Hw & _)|
                (fixedName & kit & login & stash & path & -> & Hname & Hkit
                 & Hlogin & _ & Hstash & _ & Hdisk & Htrace)]].
  - vm_compute in Hrun. injection Hrun as _ _ <-. by injection Hw.
  - vm_compute in Hrun. injection Hrun as _ _ <-. by injection Hw.
  - injection Hname as <-. injection Hkit as <-.
    simpl in Hdisk, Htrace. subst d t.
    exists login, path, stash. split; [done|].
    unfold prop, get. rewrite Hlogin, Hstash. by vm_compute.
Defined.

(** ** What a kit leaves in memory *)





(** ** When the reconciler succeeds *)

Lemma lostChildren_leaf stash reply :
  children stash = None → ¬ lostChildren stash reply.
Proof.
  intros Hleaf Hlost. destruct Hlost as [stash reply Hlen|stash reply i sc rc Hs];
    unfold childList in *; rewrite Hleaf in *; simpl in *; [lia|done].
Qed.

Lemma replyFields_opens `{Env} stash loginKey reply :
  boxOpens reply "pin2KeyBox" loginKey = true →
  boxOpens reply "recovery2KeyBox" loginKey = true →
  ∃ fo, replyFields stash loginKey reply = Ok fo.
Proof.
  intros Hpin Hrec.
  destruct (replyFields stash loginKey reply) as [fo|e] eqn:Hfo; [by eexists|].
  apply replyFields_throw in Hfo as [[?|?] _]; congruence.
Qed.

Lemma mapReplyChildren_opens `{Env}
    (recur : node → value → node → result node) stashChildren loginKey l :
  Forall (λ child,
            ∀ s k, replyDecrypts k child = true → ¬ lostChildren s child →
                   ∃ out, recur s k child = Ok out) l →
  forallb (λ child,
             truthy (prop child "parentBox")
             && match decrypt (prop child "parentBox") loginKey with
                | Ok childKey => replyDecrypts childKey child
                | Throw _ => false
                end) l = true →
  ∀ index,
    (∀ i s child,
       stashChildren !! (index + i)%nat = Some s → l !! i = Some child →
       ¬ lostChildren s child) →
    ∃ cs, mapReplyChildren recur stashChildren loginKey l index = Ok cs.
Proof.
  induction 1 as [|child l Hchild _ IH]; intros Hopen index Hfits; simpl;
    [by eexists|].
  simpl in Hopen. apply andb_true_iff in Hopen as [Hc Hopen].
  apply andb_true_iff in Hc as [-> Hkey]. simpl.
  destruct (decrypt _ _) as [childKey|]; [|done]. simpl.
  destruct (Hchild
              match stashChildren !! index with
              | Some s => s
              | None => Node {[ "appId" := prop child "appId";
                                "loginId" := prop child "loginId" ]} None
              end childKey Hkey) as [c ->].
  { destruct (stashChildren !! index) as [s|] eqn:Hs.
    - apply (Hfits 0%nat s child); [by rewrite Nat.add_0_r|done].
    - by apply lostChildren_leaf. }
  simpl. destruct (IH Hopen (S index)) as [cs ->]; [|by eexists].
  intros i s c' Hs Hc'. apply (Hfits (S i) s c'); [|done].
  by rewrite <- Nat.add_succ_comm.
Qed.

(** X26.  When every box of the reply opens, the reconciler succeeds
    exactly when no children are lost: [applyLoginReplyInner] returns a
    stash node if, and only if, at no depth does a stash node have more
    children than the reply node it is paired with. *)
Theorem applyLoginReplyInner_succeeds `{Env} (stash : node)
    (loginKey : value) (reply : node) :
  replyDecrypts loginKey reply = true →
  (∃ out, applyLoginReplyInner stash loginKey reply = Ok out)
  ↔ ¬ lostChildren stash reply.
Proof.
  intros Hopen. split.
  - intros [out Hout] Hlost.
    destruct (applyLoginReplyInner_lost stash loginKey reply Hlost) as [e He].
    congruence.
  - revert stash loginKey Hopen.
    induction reply as [f|f l IH] using node_tree_ind;
      intros stash loginKey Hopen Hfits;
      rewrite replyDecrypts_eq, !andb_true_iff in Hopen;
      destruct Hopen as [[Hpin Hrec] Hcs];
      rewrite applyLoginReplyInner_eq;
      destruct (replyFields_opens stash loginKey _ Hpin Hrec) as [fo ->];
      simpl;
      (destruct (_ <? _)%nat eqn:Hlen;
       [apply Nat.ltb_lt in Hlen; destruct Hfits; by apply lost_here|]).
    + by eexists.
    + destruct (mapReplyChildren_opens
                  (λ childStash childKey child,
                     applyLoginReplyInner childStash childKey child)
                  (childList stash) loginKey l) with (index := 0%nat)
        as [cs ->]; [| |..|by eexists].
      * eapply Forall_impl; [done|]. intros child Hchild s k Hk Hs.
        by apply Hchild.
      * done.
      * intros i s child Hs Hchild Hlost. apply Hfits.
        by apply (lost_below _ _ i s child).
Qed.

Lemma applyLoginReplyInner_succeeds_witness :
  (∃ out, applyLoginReplyInner (H := quietEnv) aliceStash rootKey aliceReply
          = Ok out)
  ∧ ¬ lostChildren aliceStash aliceReply.
Proof.
  assert (Hrun : ∃ out, applyLoginReplyInner (H := quietEnv) aliceStash
                          rootKey aliceReply = Ok out)
    by (exists aliceStash'; by vm_compute).
  split; [done|].
  by apply (applyLoginReplyInner_succeeds (H := quietEnv) aliceStash rootKey
              aliceReply eq_refl).
Defined.

(** ** Failures of the tree engine *)

Lemma mapR_throw {A B : Type} (f : A → result B) l e :
  mapR f l = Throw e → ∃ x, x ∈ l ∧ f x = Throw e.
Proof.
  induction l as [|x l IH]; simpl; [done|].
  destruct (f x) as [y|e'] eqn:Hx.
  - destruct (mapR f l) as [ys|e']; [done|]. intros [= ->].
    destruct (IH eq_refl) as (x' & Hin & Hx').
    exists x'. split; [by apply elem_of_cons; right|done].
  - intros [= ->]. exists x. split; [by apply elem_of_cons; left|done].
Qed.

Lemma elem_of_concat_map {A B : Type} (f : A → list B) (l : list A) x y :
  x ∈ l → y ∈ f x → y ∈ concat (map f l).
Proof.
  intros Hx Hy. apply list_elem_of_In, in_concat. exists (f x).
  split; [|by apply list_elem_of_In].
  apply in_map. by apply list_elem_of_In.
Qed.

(** X27.  [updateTree] has no failure of its own: when it throws, [update]
    has thrown that error on a node of the tree on which the predicate
    holds.  So it cannot fail on a tree where nothing matches, nor with an
    [update] that does not throw. *)
Theorem updateTree_fails_in_update (n : node) (predicate : node → bool)
    (update : node → result node) (clone : node → list node → node)
    (e : error) :
  updateTree n predicate update clone = Throw e →
  ∃ m, m ∈ preorder n ∧ predicate m = true ∧ update m = Throw e.
Proof.
  induction n as [f|f cs IH] using node_tree_ind;
    rewrite updateTree_eq, preorder_eq; destruct (predicate _) eqn:Hp;
    simpl; try done;
    try (intros He; eexists; split; [by apply elem_of_cons; left|done]).
  destruct (mapR _ cs) as [cs'|e'] eqn:Hcs; simpl; [done|].
  intros [= ->]. apply mapR_throw in Hcs as (c & Hin & Hc).
  rewrite Forall_forall in IH. destruct (IH c Hin Hc) as (m & Hm & Hpm & Hu).
  exists m. split; [|done]. apply elem_of_cons; right.
  by apply (elem_of_concat_map preorder cs c).
Qed.

Lemma updateTree_fails_in_update_witness :
  ∃ m, m ∈ preorder twoAppStash
       ∧ strict_eq (prop m "appId") (VStr "other") = true
       ∧ makeLoginTreeInner (H := quietEnv) m rootKey = Throw MissingAuth.
Proof.
  apply (updateTree_fails_in_update twoAppStash
           (λ s, strict_eq (prop s "appId") (VStr "other"))
           (λ s, makeLoginTreeInner (H := quietEnv) s rootKey)
           (λ s cs, Node (filterObject (fields s)
                            ["username"; "appId"; "loginId"]) (Some cs))).
  by vm_compute.
Defined.

(** ** Saving and loading *)

Lemma loadStashes_run `{StashFiles} (disk : gmap string string) paths :
  listLogins disk = Ok paths →
  ∃ warnings,
    loadStashes disk
    = Ok (omap (λ path,
                  match text ← getText disk path; readStash text with
                  | Ok stash => Some stash
                  | Throw _ => None
                  end) paths, warnings).
Proof.
  unfold loadStashes. intros ->. simpl.
  destruct (loadStashes_fold disk paths ([], [])) as [Hout _].
  simpl in Hout. eexists. apply f_equal. rewrite <- Hout.
  apply surjective_pairing.
Qed.

(** X28.  What [saveStash] has written, [loadStashes] reads: when the file
    is listed and its text reads back as a stash, that stash is among those
    [loadStashes] returns. *)
Theorem saved_stash_is_loaded `{Env} `{StashFiles} (stashTree : node)
    (w w' : world) (paths : list string) (loginId : value) (stash : node) :
  saveStash stashTree w = (Ok (), w') →
  base64_parse (prop stashTree "loginId") = Ok loginId →
  listLogins (disk w') = Ok paths →
  stashPath loginId ∈ paths →
  readStash (JSON_stringify stashTree) = Ok stash →
  ∃ stashes warnings,
    loadStashes (disk w') = Ok (stashes, warnings) ∧ stash ∈ stashes.
Proof.
  intros Hsave Hid Hlist Hin Hread.
  apply saveStash_run in Hsave
    as [[_ [e ?]]|(loginId' & (_ & _ & _ & Hid' & _) & _ & ->)]; [done|].
  rewrite Hid in Hid'. injection Hid' as <-. simpl in *.
  destruct (loadStashes_run _ _ Hlist) as [warnings ->].
  eexists _, warnings. split; [done|].
  apply list_elem_of_omap. exists (stashPath loginId). split; [done|].
  unfold getText. rewrite lookup_insert_eq. simpl. by rewrite Hread.
Qed.

Lemma saved_stash_is_loaded_witness :
  ∃ w' stashes warnings,
    saveStash (H := quietEnv) aliceStash' emptyWorld = (Ok (), w')
    ∧ loadStashes (H := sampleFiles) (disk w') = Ok (stashes, warnings)
    ∧ aliceStash' ∈ stashes.
Proof.
  destruct (saveStash (H := quietEnv) aliceStash' emptyWorld)
    as [[[]|] w'] eqn:Hsave; [|by vm_compute in Hsave].
  destruct (saved_stash_is_loaded (H := quietEnv) (H0 := sampleFiles)
              aliceStash' emptyWorld w'
              ["logins/11111111111111111111111111111111.json"]
              (VBytes (replicate 32 0)) aliceStash' Hsave)
    as (stashes & warnings & Hload & Hin); try done.
  - vm_compute in Hsave. injection Hsave as <-. by vm_compute.
  - apply elem_of_cons. by left.
  - by exists w', stashes, warnings.
Defined.


(** ** Keys from the server's box to memory *)

Lemma loginFields_parsed_keys `{Env} stash loginKey login :
  loginFields stash loginKey = Ok login →
  (notNull (prop stash "pin2Key") = true →
   base64_parse (prop stash "pin2Key") = Ok (get login "pin2Key"))
  ∧ (notNull (prop stash "recovery2Key") = true →
     base64_parse (prop stash "recovery2Key") = Ok (get login "recovery2Key")).
Proof.
  unfold loginFields. intros Hrun.
  match type of Hrun with (?m ≫= _) = _ => destruct m as [l1|] eqn:H1 end;
    simpl in Hrun; [|done].
  match type of Hrun with (?m ≫= _) = _ => destruct m as [l2|] eqn:H2 end;
    simpl in Hrun; [|done].
  destruct (_ && _) eqn:Hauth; [done|].
  match type of Hrun with (?m ≫= _) = _ => destruct m as [l3|] eqn:H3 end;
    simpl in Hrun; [|done].
  match type of Hrun with (?m ≫= _) = _ => destruct m as [l4|] eqn:H4 end;
    simpl in Hrun; [|done].
  match type of Hrun with (?m ≫= _) = _ => destruct m as [l5|] eqn:H5 end;
    simpl in Hrun; [|done].
  match type of Hrun with (?m ≫= _) = _ => destruct m as [k1|] end;
    simpl in Hrun; [|done].
  match type of Hrun with (?m ≫= _) = _ => destruct m as [k2|] end;
    simpl in Hrun; [|done].
  match type of Hrun with (?m ≫= _) = _ => destruct m as [infos|] end;
    simpl in Hrun; [|done].
  match type of Hrun with (?m ≫= _) = _ => destruct m as [merged|] end;
    simpl in Hrun; [|done].
  injection Hrun as <-. split.
  - intros Hpin. rewrite Hpin in H3.
    destruct (base64_parse (prop stash "pin2Key")) as [v|]; simpl in H3;
      [|done].
    injection H3 as <-. f_equal.
    unfold get at 1. rewrite lookup_insert_ne by done. fold (get l5 "pin2Key").
    rewrite (optional_insert_get _ _ id _ "pin2Key" _ _ H5) by done.
    rewrite (optional_insert_get _ _ id _ "pin2Key" _ _ H4) by done.
    unfold get. by rewrite lookup_insert_eq.
  - intros Hrec. rewrite Hrec in H5.
    destruct (base64_parse (prop stash "recovery2Key")) as [v|];
      simpl in H5; [|done].
    injection H5 as <-. f_equal.
    unfold get. rewrite lookup_insert_ne by done.
    by rewrite lookup_insert_eq.
Qed.

Lemma storeKey_opened `{Env} reply box k loginKey
    (out out' : gmap string value) :
  storeKey reply box k loginKey out = Ok out' →
  notNull (prop reply box) = true →
  ∃ key, decrypt (prop reply box) loginKey = Ok key
         ∧ out' !! k = Some (VStr (base64_stringify key)).
Proof.
  unfold storeKey. intros Hs Hbox. rewrite Hbox in Hs.
  destruct (decrypt (prop reply box) loginKey) as [key|]; simpl in Hs;
    [|done].
  injection Hs as <-. exists key. by rewrite lookup_insert_eq.
Qed.

Lemma replyFields_opened_keys `{Env} stash loginKey reply
    (out : gmap string value) :
  replyFields stash loginKey reply = Ok out →
  (notNull (prop reply "pin2KeyBox") = true →
   ∃ key, decrypt (prop reply "pin2KeyBox") loginKey = Ok key
          ∧ out !! "pin2Key" = Some (VStr (base64_stringify key)))
  ∧ (notNull (prop reply "recovery2KeyBox") = true →
     ∃ key, decrypt (prop reply "recovery2KeyBox") loginKey = Ok key
            ∧ out !! "recovery2Key" = Some (VStr (base64_stringify key))).
Proof.
  unfold replyFields. intros Hout.
  destruct (storeKey reply "pin2KeyBox" _ _ _) as [o1|] eqn:Hs1; [|done].
  simpl in Hout.
  destruct (storeKey reply "recovery2KeyBox" _ _ _) as [o2|] eqn:Hs2; [|done].
  simpl in Hout. injection Hout as <-.
  split; intros Hbox.
  - destruct (storeKey_opened _ _ _ _ _ _ Hs1 Hbox) as (key & Hkey & Hget).
    exists key. split; [done|].
    rewrite lookup_insert_ne by done.
    by rewrite (storeKey_lookup_ne _ _ _ _ _ _ _ Hs2).
  - destruct (storeKey_opened _ _ _ _ _ _ Hs2 Hbox) as (key & Hkey & Hget).
    exists key. split; [done|].
    by rewrite lookup_insert_ne.
Qed.

(** X29.  The PIN key and the recovery key travel unchanged from the
    server's boxes to memory.  The reconciler stores the key a box
    ([pin2KeyBox], [recovery2KeyBox]) opens to as base64 text, and the
    builder parses that text: when the codec reads back what it wrote for
    that key, the login built from the reconciled stash node holds exactly
    the opened key (as [pin2Key], [recovery2Key]). *)
Theorem reply_keys_reach_login `{Env} (stash : node) (loginKey : value)
    (reply out login : node) (box k : string) (key : value) :
  (box, k) ∈ [("pin2KeyBox", "pin2Key"); ("recovery2KeyBox", "recovery2Key")] →
  applyLoginReplyInner stash loginKey reply = Ok out →
  makeLoginTreeInner out loginKey = Ok login →
  notNull (prop reply box) = true →
  decrypt (prop reply box) loginKey = Ok key →
  base64_parse (VStr (base64_stringify key)) = Ok key →
  prop login k = key.
Proof.
  intros Hbox (cs & Hf & _)%applyLoginReplyInner_out
    Hlogin%makeLoginTreeInner_fields Hpresent Hkey Hcodec.
  destruct (replyFields_opened_keys _ _ _ _ Hf) as [Hpin Hrec].
  destruct (loginFields_parsed_keys _ _ _ Hlogin) as [Hpin' Hrec'].
  assert (Hprop : ∀ n j, prop n j = get (fields n) j) by done.
  apply elem_of_cons in Hbox as [[= -> ->]|Hbox];
    [|apply elem_of_cons in Hbox as [[= -> ->]|Hbox];
      [|by apply elem_of_nil in Hbox]].
  - destruct (Hpin Hpresent) as (key' & Hkey' & Hget).
    rewrite Hkey in Hkey'. injection Hkey' as <-.
    assert (Hstored : prop out "pin2Key" = VStr (base64_stringify key))
      by (by rewrite Hprop; unfold get; rewrite Hget).
    rewrite Hstored in Hpin'. specialize (Hpin' eq_refl).
    rewrite Hcodec in Hpin'. rewrite Hprop. by injection Hpin'.
  - destruct (Hrec Hpresent) as (key' & Hkey' & Hget).
    rewrite Hkey in Hkey'. injection Hkey' as <-.
    assert (Hstored : prop out "recovery2Key" = VStr (base64_stringify key))
      by (by rewrite Hprop; unfold get; rewrite Hget).
    rewrite Hstored in Hrec'. specialize (Hrec' eq_refl).
    rewrite Hcodec in Hrec'. rewrite Hprop. by injection Hrec'.
Qed.

Lemma reply_keys_reach_login_witness :
  ∃ out login,
    applyLoginReplyInner (H := quietEnv)
      (Node {[ "appId" := VStr ""; "loginId" := VStr rootId ]} None) rootKey
      (Node {[ "appId" := VStr ""; "loginId" := VStr rootId;
               "loginAuthBox" := toyBox [1; 2; 3] (VBytes [7]);
               "pin2KeyBox" := toyBox [1; 2; 3] (VBytes [0; 0; 0; 0]%Z) ]}
         None) = Ok out
    ∧ makeLoginTreeInner (H := quietEnv) out rootKey = Ok login
    ∧ prop login "pin2Key" = VBytes [0; 0; 0; 0]%Z.
Proof.
  set (stash := Node {[ "appId" := VStr ""; "loginId" := VStr rootId ]} None).
  set (reply := Node _ None).
  destruct (applyLoginReplyInner (H := quietEnv) stash rootKey reply)
    as [out|] eqn:Hout; [|by vm_compute in Hout].
  destruct (makeLoginTreeInner (H := quietEnv) out rootKey)
    as [login|] eqn:Hlogin;
    [|by vm_compute in Hout; injection Hout as <-; vm_compute in Hlogin].
  exists out, login. split; [done|]. split; [done|].
  apply (reply_keys_reach_login (H := quietEnv) stash rootKey reply out login
           "pin2KeyBox" "pin2Key"); try done.
  apply elem_of_cons. by left.
Defined.
